(** * Attendance kiosk client: cache, recognition reply handling, camera start

    A shallow embedding of three services of the Qt client

    - [src/Qt/src/services/cachemanager.cpp]  (the offline cache),
    - [src/Qt/src/services/facerecognitionservice.cpp]
      ([parseRecognizeResponse], [onRecognizeReplyFinished]),
    - [src/Qt/src/services/cameramanager.cpp]  (the camera state flags and
      the capture of an image),

    and of the members of the bridge that drive them
    ([src/Qt/src/bridge/qmlbridge.cpp]), with the properties of them that
    the specification states and further properties of the same code.

    Qt itself is not part of the repository.  What the services use of it is
    modelled as follows.

    - [QVariant] is modelled on the values that JSON can carry (this is what
      the cache stores and what the server returns), plus the invalid
      variant.  A number is a double: [QVariant] compares numbers by
      value, whatever their numeric type.  [QJsonValue] is represented by
      the same tree: [Invalid] stands for [QJsonValue::Undefined].
    - [QVariantMap] and [QJsonObject] are finite maps with string keys.
    - The bytes of a file or of a reply body are opaque: the services only
      hand them to, or get them from, Qt's JSON reader and writer.  The
      reader and writer are an interface ([QtJson]) with the laws the
      services rely on; a reference implementation is given, and the
      closed examples are computed with it.
    - [QDateTime::currentDateTime().toString(Qt::ISODate)] is an input
      [now : string] of the operation that calls it.
    - [qDebug] output is not modelled. *)

From Stdlib Require Import PrimFloat Ascii ZArith FloatOps SpecFloat Uint63.
From stdpp Require Import gmap strings list fin_maps.

Set Warnings "-register-all,-inexact-float".
Set Default Proof Using "Type*".

Open Scope string_scope.
Open Scope list_scope.

(* ===================================================================== *)
(** * QVariant *)
(* ===================================================================== *)

Inductive QVariant : Type :=
  | Invalid                              (* QVariant(), QJsonValue::Undefined *)
  | Null                                 (* QVariant::fromValue(nullptr), JSON null *)
  | Bool (b : bool)
  | Double (d : float)
  | String (s : string)
  | List (l : list QVariant)             (* QVariantList, JSON array *)
  | Map (m : gmap string QVariant).      (* QVariantMap, JSON object *)

Abbreviation QVariantList := (list QVariant).
Abbreviation QVariantMap := (gmap string QVariant).
Abbreviation QJsonObject := (gmap string QVariant).

(** ** Conversions of QVariant *)

Definition lower_ascii (c : ascii) : ascii :=
  let n := nat_of_ascii c in
  if (65 <=? n)%nat && (n <=? 90)%nat then ascii_of_nat (n + 32) else c.

Fixpoint toLower (s : string) : string :=
  match s with
  | EmptyString => EmptyString
  | String.String c r => String.String (lower_ascii c) (toLower r)
  end.

(** [QVariant::toBool]: a number is true when it is not zero, a string when
    its lower-case content is none of the empty string, "0" and "false". *)
Definition toBool (v : QVariant) : bool :=
  match v with
  | Bool b => b
  | Double d => negb (PrimFloat.eqb d 0%float)
  | String s =>
      let s' := toLower s in
      negb (String.eqb s' "" || String.eqb s' "0" || String.eqb s' "false")
  | _ => false
  end.

(** [QVariant::toList] and [QVariant::toMap]: empty unless the variant holds
    a list, respectively a map. *)
Definition toList (v : QVariant) : QVariantList :=
  match v with List l => l | _ => [] end.

Definition toMap (v : QVariant) : QVariantMap :=
  match v with Map m => m | _ => ∅ end.

(** The non-const [QMap::operator[]]: it returns the value under the key,
    and a map that lacks the key gets a default-constructed value there. *)
Definition subscript (m : QVariantMap) (k : string) : QVariant * QVariantMap :=
  match m !! k with
  | Some v => (v, m)
  | None => (Invalid, <[k := Invalid]> m)
  end.

(** ** The strict accessors of QJsonValue

    They convert nothing: a value of another type gives the default. *)

Definition jsonToBool (v : QVariant) : bool :=
  match v with Bool b => b | _ => false end.

Definition jsonToString (v : QVariant) : string :=
  match v with String s => s | _ => "" end.

Definition jsonToDouble (v : QVariant) : float :=
  match v with Double d => d | _ => 0%float end.

(** [QJsonObject::operator[]] read for its value only: a missing key reads
    as a value that every strict accessor maps to its default. *)
Definition jsonValue (obj : QJsonObject) (k : string) : QVariant :=
  default Invalid (obj !! k).

(** ** What JSON keeps of a QVariant

    [QJsonValue::fromVariant] maps an invalid variant to null, and the writer
    prints a number that is not finite as null. *)

Fixpoint jsonOfVariant (v : QVariant) : QVariant :=
  match v with
  | Invalid => Null
  | Null => Null
  | Bool b => Bool b
  | Double d => if is_finite d then Double d else Null
  | String s => String s
  | List l => List (map jsonOfVariant l)
  | Map m => Map (jsonOfVariant <$> m)
  end.

(** [QJsonDocument::fromVariant(v)] followed by [toVariant()]: only a list
    or a map makes a document; anything else makes the null document, whose
    variant is invalid. *)
Definition jsonDocument (v : QVariant) : QVariant :=
  match v with
  | List l => List (map jsonOfVariant l)
  | Map m => Map (jsonOfVariant <$> m)
  | _ => Invalid
  end.

(** A variant that JSON carries unchanged. *)
Definition isJson (v : QVariant) : Prop := jsonOfVariant v = v.

(** ** Qt's JSON reader and writer *)

Class QtJson := {
  QByteArray : Type;
  (** the content of a file that was just created or truncated *)
  noBytes : QByteArray;
  (** [QJsonDocument::fromVariant(v).toJson()] *)
  toJson : QVariant → QByteArray;
  (** [QJsonDocument::fromJson(b).toVariant()] *)
  fromJson : QByteArray → QVariant;
  (** [QString::number] as [QVariant::toString] uses it for a number *)
  numberToString : float → string;
  fromJson_toJson : ∀ v, fromJson (toJson v) = jsonDocument v;
  fromJson_document : ∀ b, jsonDocument (fromJson b) = fromJson b;
  fromJson_noBytes : fromJson noBytes = Invalid;
}.

(** [QVariant::toString]: the text of a string, a boolean or a number, and
    the empty string for everything else. *)
Definition toString `{QtJson} (v : QVariant) : string :=
  match v with
  | String s => s
  | Bool b => if b then "true" else "false"
  | Double d => numberToString d
  | _ => ""
  end.

(* ===================================================================== *)
(** * Files *)
(* ===================================================================== *)

(** The part of the file system that [QFile] shows to the cache: the content
    of each existing file, and the paths that cannot be opened for reading,
    respectively for writing (missing directory, permissions).  The source
    tests the result of neither [write] nor [close].  In [saveToFile] and
    the operations built on it they store all the bytes; [saveToFile_io]
    and the operations built on it take what they leave in the file as an
    input, so that a write that fails is covered too. *)
Record FileSystem `{QtJson} := mkFileSystem {
  files : gmap string QByteArray;
  readDenied : gset string;
  writeDenied : gset string;
}.
Arguments mkFileSystem {_} _ _ _.

Section Files.
Context `{QtJson}.

(** [QFile::open(QIODevice::WriteOnly)]: refused, or the file exists and is
    empty afterwards (created or truncated). *)
Definition openWriteOnly (filePath : string) (fs : FileSystem) : option FileSystem :=
  if decide (filePath ∈ writeDenied fs) then None
  else Some (mkFileSystem (<[filePath := noBytes]> (files fs)) (readDenied fs) (writeDenied fs)).

(** [QFile::write] of the whole content, on a file opened by [openWriteOnly]. *)
Definition writeAll (filePath : string) (bytes : QByteArray) (fs : FileSystem) : FileSystem :=
  mkFileSystem (<[filePath := bytes]> (files fs)) (readDenied fs) (writeDenied fs).

(** [QFile::remove]. *)
Definition removeFile (filePath : string) (fs : FileSystem) : FileSystem :=
  mkFileSystem (delete filePath (files fs)) (readDenied fs) (writeDenied fs).

Definition fileExists (filePath : string) (fs : FileSystem) : bool :=
  bool_decide (is_Some (files fs !! filePath)).

End Files.

(* ===================================================================== *)
(** * CacheManager  (cachemanager.h, cachemanager.cpp) *)
(* ===================================================================== *)

Record CacheManager := mkCacheManager {
  m_cacheDir : string;
  m_usersCacheFile : string;
  m_logsCacheFile : string;
}.

Inductive CacheSignal := cacheUpdated | unsyncedLogsChanged.

(** The constructor, from [QStandardPaths::writableLocation(AppDataLocation)]. *)
Definition newCacheManager (appDataLocation : string) : CacheManager :=
  let cacheDir := appDataLocation +:+ "/cache" in
  mkCacheManager cacheDir (cacheDir +:+ "/users_cache.json") (cacheDir +:+ "/logs_cache.json").

Section Cache.
Context `{QtJson}.
Variable cm : CacheManager.

(** Every operation that has an effect maps the file system to the new file
    system and the signals it emitted, in order. *)

(** [saveToFile] when [write] and [close] store the bytes.  The source does
    not test their results; [saveToFile_io] below takes their outcome as
    an input, and this is its case [WriteStored]. *)
Definition saveToFile (filePath : string) (data : QVariant) (fs : FileSystem)
  : bool * FileSystem :=
  match openWriteOnly filePath fs with
  | None => (false, fs)
  | Some fs1 => (true, writeAll filePath (toJson data) fs1)
  end.

(** The disk when the process stops after [n] of the file operations of
    [saveToFile] (open, then write): what a crash at that point leaves. *)
Definition saveToFile_stopped (n : nat) (filePath : string) (data : QVariant)
    (fs : FileSystem) : FileSystem :=
  match n with
  | 0 => fs
  | S n' =>
      match openWriteOnly filePath fs with
      | None => fs
      | Some fs1 =>
          match n' with
          | 0 => fs1
          | S _ => writeAll filePath (toJson data) fs1
          end
      end
  end.

Definition loadFromFile (filePath : string) (fs : FileSystem) : QVariant :=
  match files fs !! filePath with
  | None => Invalid
  | Some bytes =>
      if decide (filePath ∈ readDenied fs) then Invalid
      else fromJson bytes
  end.

(** ** User cache *)

Definition usersCacheData (users : QVariantList) (now : string) : QVariantMap :=
  <["users" := List users]> (<["timestamp" := String now]> ∅).

Definition cacheUsers (users : QVariantList) (now : string) (fs : FileSystem)
  : FileSystem * list CacheSignal :=
  let cacheData := usersCacheData users now in
  let '(ok, fs') := saveToFile (m_usersCacheFile cm) (Map cacheData) fs in
  if ok then (fs', [cacheUpdated]) else (fs', []).

Definition getCachedUsers (fs : FileSystem) : QVariantList :=
  let cacheData := toMap (loadFromFile (m_usersCacheFile cm) fs) in
  toList (subscript cacheData "users").1.

Definition clearUserCache (fs : FileSystem) : FileSystem * list CacheSignal :=
  (removeFile (m_usersCacheFile cm) fs, [cacheUpdated]).

Definition hasCachedUsers (fs : FileSystem) : bool :=
  negb (bool_decide (getCachedUsers fs = [])).

(** ** Log cache *)

Definition getCachedLogs (fs : FileSystem) : QVariantList :=
  toList (loadFromFile (m_logsCacheFile cm) fs).

Definition logWithSync (log : QVariantMap) (now : string) : QVariantMap :=
  <["cached_at" := String now]> (<["synced" := Bool false]> log).

Definition cacheLog (log : QVariantMap) (now : string) (fs : FileSystem)
  : FileSystem * list CacheSignal :=
  let logs := getCachedLogs fs in
  let logs := logs ++ [Map (logWithSync log now)] in
  let '(ok, fs') := saveToFile (m_logsCacheFile cm) (List logs) fs in
  if ok then (fs', [unsyncedLogsChanged]) else (fs', []).

(** The loop of [getUnsyncedLogs], which [clearSyncedLogs] repeats:
[[
    for (const QVariant &logVar : allLogs) {
        QVariantMap log = logVar.toMap();
        if (!log["synced"].toBool()) unsyncedLogs.append(log);
    }
]]
    [log] is not const, so [log["synced"]] is the inserting subscript. *)
Fixpoint unsyncedLoop (allLogs : QVariantList) (unsyncedLogs : QVariantList)
  : QVariantList :=
  match allLogs with
  | [] => unsyncedLogs
  | logVar :: rest =>
      let '(synced, log) := subscript (toMap logVar) "synced" in
      if negb (toBool synced) then unsyncedLoop rest (unsyncedLogs ++ [Map log])
      else unsyncedLoop rest unsyncedLogs
  end.

Definition getUnsyncedLogs (fs : FileSystem) : QVariantList :=
  let allLogs := getCachedLogs fs in
  unsyncedLoop allLogs [].

Definition syncedLog (log : QVariantMap) (now : string) : QVariantMap :=
  <["synced_at" := String now]> (<["synced" := Bool true]> log).

(** The loop of [markLogSynced]; [rest] holds [logs[i]], [logs[i+1]], ...
[[
    for (int i = 0; i < logs.size(); ++i) {
        QVariantMap log = logs[i].toMap();
        if (log["id"].toString() == logId) {
            log["synced"] = true;  log["synced_at"] = ...;
            logs[i] = log;
            break;
        }
    }
]] *)
Fixpoint markLoop (rest : QVariantList) (i : nat) (logId now : string)
    (logs : QVariantList) : QVariantList :=
  match rest with
  | [] => logs
  | logVar :: rest' =>
      let '(id, log) := subscript (toMap logVar) "id" in
      if String.eqb (toString id) logId
      then <[i := Map (syncedLog log now)]> logs
      else markLoop rest' (S i) logId now logs
  end.

Definition markLogSynced (logId now : string) (fs : FileSystem)
  : FileSystem * list CacheSignal :=
  let logs := getCachedLogs fs in
  let logs := markLoop logs 0 logId now logs in
  let '(ok, fs') := saveToFile (m_logsCacheFile cm) (List logs) fs in
  if ok then (fs', [unsyncedLogsChanged]) else (fs', []).

Definition clearSyncedLogs (fs : FileSystem) : FileSystem * list CacheSignal :=
  let allLogs := getCachedLogs fs in
  let unsyncedLogs := unsyncedLoop allLogs [] in
  let '(ok, fs') := saveToFile (m_logsCacheFile cm) (List unsyncedLogs) fs in
  if ok then (fs', [unsyncedLogsChanged]) else (fs', []).

Definition hasUnsyncedLogs (fs : FileSystem) : bool :=
  negb (bool_decide (length (getUnsyncedLogs fs) = 0)).

Definition getUnsyncedLogsCount (fs : FileSystem) : nat :=
  length (getUnsyncedLogs fs).

(** ** Cache status *)

Definition isCacheValid (fs : FileSystem) : bool :=
  fileExists (m_usersCacheFile cm) fs && fileExists (m_logsCacheFile cm) fs.

Definition clearAllCache (fs : FileSystem) : FileSystem * list CacheSignal :=
  let '(fs1, sigs) := clearUserCache fs in
  (removeFile (m_logsCacheFile cm) fs1, sigs ++ [cacheUpdated; unsyncedLogsChanged]).

(** ** The disk when a mutating operation is interrupted

    Each mutating operation ends in one call of [saveToFile]; stopped after
    [n] file operations of that call, it leaves the disk as follows. *)

Definition cacheUsers_stopped (n : nat) (users : QVariantList) (now : string)
    (fs : FileSystem) : FileSystem :=
  saveToFile_stopped n (m_usersCacheFile cm) (Map (usersCacheData users now)) fs.

Definition cacheLog_stopped (n : nat) (log : QVariantMap) (now : string)
    (fs : FileSystem) : FileSystem :=
  saveToFile_stopped n (m_logsCacheFile cm)
    (List (getCachedLogs fs ++ [Map (logWithSync log now)])) fs.

Definition markLogSynced_stopped (n : nat) (logId now : string)
    (fs : FileSystem) : FileSystem :=
  let logs := getCachedLogs fs in
  saveToFile_stopped n (m_logsCacheFile cm) (List (markLoop logs 0 logId now logs)) fs.

(** ** Reading an entry of the log as the cache does *)

(** The sync flag of a stored entry, as the loops read it. *)
Definition isSynced (logVar : QVariant) : bool :=
  toBool (subscript (toMap logVar) "synced").1.

(** The id of a stored entry, as [markLogSynced] compares it. *)
Definition logId (logVar : QVariant) : string :=
  toString (subscript (toMap logVar) "id").1.

(** The sync state of the data model.  The cache stores one boolean per
    entry, so only two states occur; there is no count of failed attempts. *)
Inductive SyncState := Pending | Synced.

Definition syncState (logVar : QVariant) : SyncState :=
  if isSynced logVar then Synced else Pending.

(** ** Sequences of log operations *)

Inductive CacheOp :=
  | OpCacheLog (log : QVariantMap) (now : string)
  | OpMarkLogSynced (logId now : string)
  | OpClearSyncedLogs.

Definition runOp (op : CacheOp) (fs : FileSystem) : FileSystem :=
  match op with
  | OpCacheLog log now => (cacheLog log now fs).1
  | OpMarkLogSynced logId now => (markLogSynced logId now fs).1
  | OpClearSyncedLogs => (clearSyncedLogs fs).1
  end.

Definition runOps (ops : list CacheOp) (fs : FileSystem) : FileSystem :=
  foldl (λ fs op, runOp op fs) fs ops.

End Cache.

(* ===================================================================== *)
(** * FaceRecognitionService  (facerecognitionservice.cpp) *)
(* ===================================================================== *)

(** [QNetworkReply::NetworkError]: no error, errors of the transport, and
    the errors Qt reports for an HTTP status of 400 and above. *)
Inductive NetworkError :=
  | NoError
  | ConnectionRefusedError
  | RemoteHostClosedError
  | HostNotFoundError
  | TimeoutError
  | OperationCanceledError
  | UnknownNetworkError
  | ContentAccessDenied            (* 403 *)
  | ContentNotFoundError           (* 404 *)
  | UnknownContentError            (* other 4xx *)
  | InternalServerError            (* 500 *)
  | ServiceUnavailableError        (* 503 *)
  | UnknownServerError.            (* other 5xx *)

Record QNetworkReply `{QtJson} := mkReply {
  replyError : NetworkError;
  httpStatusCode : nat;
  replyBody : QByteArray;
}.
Arguments mkReply {_} _ _ _.

Inductive ServiceSignal :=
  | faceRecognized (userId userName : string)
  | faceRecognitionFailed.

Section Recognition.
Context `{QtJson}.

(** [QJsonDocument::isNull] on the document that [fromJson] returned. *)
Definition docIsNull (doc : QVariant) : bool :=
  match doc with Invalid => true | _ => false end.

Definition parseRecognizeResponse (responseData : QByteArray) : QVariantMap :=
  let result : QVariantMap := ∅ in
  let doc := fromJson responseData in
  if docIsNull doc then
    let result := <["success" := Bool false]> result in
    let result := <["error" := String "Invalid JSON response"]> result in
    result
  else
    let obj : QJsonObject := toMap doc in
    let result := <["success" := Bool true]> result in
    let result := <["matched" := Bool (jsonToBool (jsonValue obj "matched"))]> result in
    let result := <["user_id" := String (jsonToString (jsonValue obj "user_id"))]> result in
    let result := <["name" := String (jsonToString (jsonValue obj "name"))]> result in
    let result := <["distance" := Double (jsonToDouble (jsonValue obj "distance"))]> result in
    let result := <["threshold" := Double (jsonToDouble (jsonValue obj "threshold"))]> result in
    result.

(** The slot connected to [QNetworkReply::finished]; [sender] is the result
    of [qobject_cast<QNetworkReply*>(sender())].  It returns the signals it
    emits. *)
Definition onRecognizeReplyFinished (sender : option QNetworkReply)
  : list ServiceSignal :=
  match sender with
  | None => []
  | Some reply =>
      match replyError reply with
      | NoError =>
          let responseData := replyBody reply in
          let result := parseRecognizeResponse responseData in
          let '(matched, result) := subscript result "matched" in
          if toBool matched then
            let '(user_id, result) := subscript result "user_id" in
            let '(name, result) := subscript result "name" in
            [faceRecognized (toString user_id) (toString name)]
          else [faceRecognitionFailed]
      | _ => [faceRecognitionFailed]
      end
  end.

End Recognition.

(* ===================================================================== *)
(** * CameraManager  (cameramanager.h, cameramanager.cpp) *)
(* ===================================================================== *)

(** A camera device is known by its description; an image is its bytes. *)
Abbreviation QCameraDevice := string.
Abbreviation ImageBytes := string.

Record CameraManager := mkCameraManager {
  m_cameraAvailable : bool;
  m_cameraRunning : bool;
  m_camera : option QCameraDevice;        (* null, or the camera of a device *)
  m_captureSession : bool;                (* null or allocated *)
  m_imageCapture : bool;                  (* null or allocated *)
  m_lastCapturedImage : ImageBytes;
  m_captureInProgress : bool;
}.

Inductive CameraSignal :=
  | cameraStarted
  | cameraStopped
  | cameraError (error : string).

(** The statement of the [try] block of [startCamera] at which a
    [std::exception] is thrown. *)
Inductive ThrowSite :=
  | AtNewCamera
  | AtNewCaptureSession
  | AtNewImageCapture
  | AfterAllocation.

(** What the platform answers during one call of [startCamera]. *)
Record StartEnv := mkStartEnv {
  videoInputs : list QCameraDevice;          (* QMediaDevices::videoInputs() *)
  thrown : option (ThrowSite * string);      (* the exception and its what() *)
}.

(** What the platform answers during one call of [captureImage]. *)
Record CaptureEnv := mkCaptureEnv {
  cameraIsActive : bool;                     (* m_camera->isActive() *)
  readyForCapture : bool;                    (* m_imageCapture->isReadyForCapture() *)
  captureId : Z;                             (* m_imageCapture->capture() *)
}.

(** The constructor: [devices] is [QMediaDevices::videoInputs()] then. *)
Definition newCameraManager (devices : list QCameraDevice) : CameraManager :=
  mkCameraManager (negb (bool_decide (devices = []))) false None false false "" false.

Definition startFailed (what : string) : string :=
  "Failed to start camera: " +:+ what.

Definition startCamera (env : StartEnv) (s : CameraManager)
  : bool * CameraManager * list CameraSignal :=
  if negb (m_cameraAvailable s) then
    (false, s, [cameraError "Camera not available"])
  else if m_cameraRunning s then
    (true, s, [])
  else
    match videoInputs env with
    | [] => (false, s, [cameraError "No camera found"])
    | first :: _ =>
        let s1 := mkCameraManager (m_cameraAvailable s) (m_cameraRunning s)
                    (Some first) (m_captureSession s) (m_imageCapture s)
                    (m_lastCapturedImage s) (m_captureInProgress s) in
        let s2 := mkCameraManager (m_cameraAvailable s) (m_cameraRunning s)
                    (Some first) true (m_imageCapture s)
                    (m_lastCapturedImage s) (m_captureInProgress s) in
        let s3 := mkCameraManager (m_cameraAvailable s) (m_cameraRunning s)
                    (Some first) true true
                    (m_lastCapturedImage s) (m_captureInProgress s) in
        match thrown env with
        | Some (AtNewCamera, what) => (false, s, [cameraError (startFailed what)])
        | Some (AtNewCaptureSession, what) => (false, s1, [cameraError (startFailed what)])
        | Some (AtNewImageCapture, what) => (false, s2, [cameraError (startFailed what)])
        | Some (AfterAllocation, what) => (false, s3, [cameraError (startFailed what)])
        | None =>
            (true,
             mkCameraManager (m_cameraAvailable s) true (Some first) true true
               (m_lastCapturedImage s) (m_captureInProgress s),
             [cameraStarted])
        end
    end.

Definition stopCamera (s : CameraManager) : CameraManager * list CameraSignal :=
  if negb (m_cameraRunning s) then (s, [])
  else
    (mkCameraManager (m_cameraAvailable s) false None false false
       (m_lastCapturedImage s) (m_captureInProgress s),
     [cameraStopped]).

(** [captureImage]: the bytes it returns and the new state.  The timeout
    it arms is the separate step [captureTimeout]. *)
Definition captureImage (env : CaptureEnv) (s : CameraManager)
  : ImageBytes * CameraManager :=
  if negb (m_cameraRunning s) || negb (m_imageCapture s) then ("", s)
  else if m_captureInProgress s then ("", s)
  else if bool_decide (is_Some (m_camera s)) && negb (cameraIsActive env) then ("", s)
  else if negb (readyForCapture env) then ("", s)
  else if negb (bool_decide (m_lastCapturedImage s = "")) then (m_lastCapturedImage s, s)
  else
    let s1 := mkCameraManager (m_cameraAvailable s) (m_cameraRunning s) (m_camera s)
                (m_captureSession s) (m_imageCapture s) "" true in
    if bool_decide (captureId env = (-1)%Z) then
      ("", mkCameraManager (m_cameraAvailable s) (m_cameraRunning s) (m_camera s)
             (m_captureSession s) (m_imageCapture s) "" false)
    else ("", s1).

(** The lambda of the 5 s single-shot timer. *)
Definition captureTimeout (s : CameraManager) : CameraManager :=
  if m_captureInProgress s then
    mkCameraManager (m_cameraAvailable s) (m_cameraRunning s) (m_camera s)
      (m_captureSession s) (m_imageCapture s) (m_lastCapturedImage s) false
  else s.

(** [onImageCaptured]: [jpeg] is the image saved as JPEG into the buffer. *)
Definition onImageCaptured (jpeg : ImageBytes) (s : CameraManager) : CameraManager :=
  mkCameraManager (m_cameraAvailable s) (m_cameraRunning s) (m_camera s)
    (m_captureSession s) (m_imageCapture s) jpeg false.

Definition onImageCaptureError (errorString : string) (s : CameraManager)
  : CameraManager * list CameraSignal :=
  (mkCameraManager (m_cameraAvailable s) (m_cameraRunning s) (m_camera s)
     (m_captureSession s) (m_imageCapture s) (m_lastCapturedImage s) false,
   [cameraError ("Image capture failed: " +:+ errorString)]).

Definition isCameraAvailable (s : CameraManager) : bool := m_cameraAvailable s.
Definition isCameraRunning (s : CameraManager) : bool := m_cameraRunning s.

(** ** The states a CameraManager can be in *)

Inductive CameraOp :=
  | CallStartCamera (env : StartEnv)
  | CallStopCamera
  | CallCaptureImage (env : CaptureEnv)
  | FireCaptureTimeout
  | SlotImageCaptured (jpeg : ImageBytes)
  | SlotImageCaptureError (errorString : string).

Definition cameraStep (op : CameraOp) (s : CameraManager) : CameraManager :=
  match op with
  | CallStartCamera env => (startCamera env s).1.2
  | CallStopCamera => (stopCamera s).1
  | CallCaptureImage env => (captureImage env s).2
  | FireCaptureTimeout => captureTimeout s
  | SlotImageCaptured jpeg => onImageCaptured jpeg s
  | SlotImageCaptureError e => (onImageCaptureError e s).1
  end.

Inductive reachable : CameraManager → Prop :=
  | reachable_new devices : reachable (newCameraManager devices)
  | reachable_step op s : reachable s → reachable (cameraStep op s).

(* ===================================================================== *)
(** * CacheManager, writes that fail  (cachemanager.cpp) *)
(* ===================================================================== *)

(** What [QFile::write] and [close] leave in a file that was opened for
    writing: all the bytes, or, when the write fails (the disk is full, the
    device reports an error), the bytes [leftover] that reached the file. *)
Inductive WriteOutcome `{QtJson} :=
  | WriteStored
  | WriteFailed (leftover : QByteArray).

Section CacheWrites.
Context `{QtJson}.
Variable cm : CacheManager.

Definition writeThenClose (outcome : WriteOutcome) (filePath : string)
    (bytes : QByteArray) (fs : FileSystem) : FileSystem :=
  match outcome with
  | WriteStored => writeAll filePath bytes fs
  | WriteFailed leftover => writeAll filePath leftover fs
  end.

(** [saveToFile] with the outcome of its write as an input.  It returns
    [false] only when the open is refused: the results of [write] and
    [close] are not tested, and [true] is returned after them whatever
    they did. *)
Definition saveToFile_io (outcome : WriteOutcome) (filePath : string) (data : QVariant)
    (fs : FileSystem) : bool * FileSystem :=
  match openWriteOnly filePath fs with
  | None => (false, fs)
  | Some fs1 => (true, writeThenClose outcome filePath (toJson data) fs1)
  end.

Definition cacheUsers_io (outcome : WriteOutcome) (users : QVariantList) (now : string)
    (fs : FileSystem) : FileSystem * list CacheSignal :=
  let cacheData := usersCacheData users now in
  let '(ok, fs') := saveToFile_io outcome (m_usersCacheFile cm) (Map cacheData) fs in
  if ok then (fs', [cacheUpdated]) else (fs', []).

Definition cacheLog_io (outcome : WriteOutcome) (log : QVariantMap) (now : string)
    (fs : FileSystem) : FileSystem * list CacheSignal :=
  let logs := getCachedLogs cm fs in
  let logs := logs ++ [Map (logWithSync log now)] in
  let '(ok, fs') := saveToFile_io outcome (m_logsCacheFile cm) (List logs) fs in
  if ok then (fs', [unsyncedLogsChanged]) else (fs', []).

End CacheWrites.

(* ===================================================================== *)
(** * CacheManager, the lookup by id  (cachemanager.cpp) *)
(* ===================================================================== *)

Section CacheLookup.
Context `{QtJson}.
Variable cm : CacheManager.

(** The loop of [getCachedUserById]; [user] is not const, so [user["id"]]
    is the inserting subscript, and the map returned is the copy it was
    applied to. *)
Fixpoint findUserLoop (users : QVariantList) (userId : string) : QVariantMap :=
  match users with
  | [] => ∅
  | userVar :: rest =>
      let '(id, user) := subscript (toMap userVar) "id" in
      if String.eqb (toString id) userId then user
      else findUserLoop rest userId
  end.

Definition getCachedUserById (userId : string) (fs : FileSystem) : QVariantMap :=
  let users := getCachedUsers cm fs in
  findUserLoop users userId.

End CacheLookup.

(* ===================================================================== *)
(** * FaceRecognitionService, the requests and the other replies
      (facerecognitionservice.h, facerecognitionservice.cpp) *)
(* ===================================================================== *)

(** ** More of QJsonValue *)

(** [QJsonObject::operator[]] on an object that is not const: the value
    under the key, and a key that is missing is created with the value
    null. *)
Definition jsonRef (obj : QJsonObject) (k : string) : QVariant :=
  default Null (obj !! k).

Definition jsonIsNull (v : QVariant) : bool :=
  match v with Null => true | _ => false end.

(** The integer that a double holds, when it holds one in the range of
    [int] (Qt's [convertDoubleTo<int>]). *)
Definition doubleToInt (d : float) : option Z :=
  match Prim2SF d with
  | S754_zero _ => Some 0%Z
  | S754_finite negative m e =>
      let magnitude :=
        if (0 <=? e)%Z then
          if (e <=? 31)%Z then Some (Z.pos m * 2 ^ e)%Z else None
        else if (Z.pos m mod 2 ^ (- e) =? 0)%Z then Some (Z.pos m / 2 ^ (- e))%Z
        else None in
      match magnitude with
      | Some n =>
          let v := if negative then (- n)%Z else n in
          if ((- 2 ^ 31 <=? v) && (v <? 2 ^ 31))%Z then Some v else None
      | None => None
      end
  | _ => None
  end.

(** [QJsonValue::toInt()]: the integer of a number that holds one, else 0. *)
Definition jsonToInt (v : QVariant) : Z :=
  match v with
  | Double d => default 0%Z (doubleToInt d)
  | _ => 0%Z
  end.

(** An [int] as the number a [QVariant] holds. *)
Definition intToDouble (n : Z) : float :=
  if (n <? 0)%Z then PrimFloat.opp (PrimFloat.of_uint63 (Uint63.of_Z (- n)))
  else PrimFloat.of_uint63 (Uint63.of_Z n).

(** ** The service *)

Record FaceRecognitionService := mkService {
  m_databaseManager : bool;        (* null or set *)
  m_networkManager : bool;         (* null or allocated *)
  m_serverUrl : string;
  m_deviceId : string;
}.

(** The constructor; [machineHostName] is [QSysInfo::machineHostName()]. *)
Definition newFaceRecognitionService (machineHostName : string) : FaceRecognitionService :=
  mkService false true "http://localhost:8001" machineHostName.

Definition setDatabaseManager (set : bool) (svc : FaceRecognitionService) :=
  mkService set (m_networkManager svc) (m_serverUrl svc) (m_deviceId svc).

Definition setServerUrl (url : string) (svc : FaceRecognitionService) :=
  mkService (m_databaseManager svc) (m_networkManager svc) url (m_deviceId svc).

Definition setDeviceId (deviceId : string) (svc : FaceRecognitionService) :=
  mkService (m_databaseManager svc) (m_networkManager svc) (m_serverUrl svc) deviceId.

Definition isNetworkAvailable (svc : FaceRecognitionService) : bool :=
  m_networkManager svc.

Inductive HttpMethod := HttpGet | HttpPost.

(** The slot that the [finished] signal of a reply is connected to. *)
Inductive ReplySlot :=
  | RecognizeReply | RegisterReply | HistoryReply | UsersReply | ConnectionTestReply.

(** A request handed to [QNetworkAccessManager]. *)
Record HttpRequest `{QtJson} := mkRequest {
  requestMethod : HttpMethod;
  requestUrl : string;
  requestBody : option QByteArray;
  connectedTo : ReplySlot;
}.
Arguments mkRequest {_} _ _ _ _.

(** The signals of the service other than [faceRecognized] and
    [faceRecognitionFailed]. *)
Inductive ReplySignal :=
  | faceRegistrationSuccess (userId : Z)
  | faceRegistrationFailed (error : string)
  | serverConnectionTested (success : bool) (message : string)
  | attendanceHistoryUpdated
  | historyDataLoaded (data : QVariantList)
  | historyDataLoadedJson (jsonData : string)
  | historyDataLoadFailed (error : string)
  | usersUpdated (users : QVariantList)
  | workHoursUpdated (workHours : QVariantList)
  | workHoursSummaryUpdated (summary : QVariantList).

Section Service.
Context `{QtJson}.

(** What Qt gives and the source does not fix: the decoding of image
    bytes ([QImage::loadFromData]), the JPEG bytes of an image in base 64
    ([imageToBase64]), the text of a reply's error, the integer of a
    string ([QString::toInt]) and the compact JSON text of a list. *)
Variable QImage : Type.
Variable loadFromData : ImageBytes → option QImage.
Variable imageToBase64 : QImage → string.
Variable errorString : QNetworkReply → string.
Variable QString_toInt : string → Z.
Variable compactJson : QVariantList → string.

Definition createRecognizeRequest (svc : FaceRecognitionService)
    (imageData : string) (capturedImage : string) : QJsonObject :=
  let requestObj : QJsonObject := ∅ in
  let requestObj := <["image_base64" := String imageData]> requestObj in
  let requestObj := <["device_id" := String (m_deviceId svc)]> requestObj in
  if negb (String.eqb capturedImage "")
  then <["captured_image" := String capturedImage]> requestObj
  else requestObj.

Definition createRegisterRequest (imageData name position : string) : QJsonObject :=
  <["position" := String position]>
    (<["name" := String name]> (<["image_base64" := String imageData]> ∅)).

(** [recognizeFaceWithServer]: the map it returns at once, and the
    requests it posts. *)
Definition recognizeFaceWithServer (svc : FaceRecognitionService)
    (imageData : ImageBytes) (capturedImage : string)
  : QVariantMap * list HttpRequest :=
  let result : QVariantMap := ∅ in
  if String.eqb imageData "" then
    (<["error" := String "No image data provided"]> (<["success" := Bool false]> result), [])
  else
    match loadFromData imageData with
    | None =>
        (<["error" := String "Invalid image data"]> (<["success" := Bool false]> result), [])
    | Some image =>
        let base64Image := imageToBase64 image in
        let requestObj := createRecognizeRequest svc base64Image capturedImage in
        let jsonData := toJson (Map requestObj) in
        (<["status" := String "processing"]> (<["success" := Bool true]> result),
         [mkRequest HttpPost (m_serverUrl svc +:+ "/recognize") (Some jsonData) RecognizeReply])
    end.

Definition recognizeFaceLocally (svc : FaceRecognitionService) (imageData : ImageBytes)
  : QVariantMap :=
  let result : QVariantMap := ∅ in
  if negb (m_databaseManager svc) then
    <["error" := String "Database not initialized"]> (<["success" := Bool false]> result)
  else if String.eqb imageData "" then
    <["error" := String "No image data provided"]> (<["success" := Bool false]> result)
  else
    <["error" := String "Local recognition not implemented"]>
      (<["matched" := Bool false]> (<["success" := Bool true]> result)).

Definition recognizeFace (svc : FaceRecognitionService) (imageData : ImageBytes)
  : QVariantMap * list HttpRequest :=
  if isNetworkAvailable svc then recognizeFaceWithServer svc imageData ""
  else (recognizeFaceLocally svc imageData, []).

Definition registerFaceWithServer (svc : FaceRecognitionService)
    (imageData : ImageBytes) (name position : string) : bool * list HttpRequest :=
  if String.eqb imageData "" || String.eqb name "" then (false, [])
  else
    match loadFromData imageData with
    | None => (false, [])
    | Some image =>
        let base64Image := imageToBase64 image in
        let requestObj := createRegisterRequest base64Image name position in
        let jsonData := toJson (Map requestObj) in
        (true, [mkRequest HttpPost (m_serverUrl svc +:+ "/register") (Some jsonData) RegisterReply])
    end.

Definition getAttendanceHistory (svc : FaceRecognitionService)
  : QVariantList * list HttpRequest :=
  let result : QVariantList := [] in
  if negb (isNetworkAvailable svc) then (result, [])
  else
    let requestObj : QJsonObject := <["limit" := Double 100]> ∅ in
    let jsonData := toJson (Map requestObj) in
    (result, [mkRequest HttpPost (m_serverUrl svc +:+ "/attendance") (Some jsonData) HistoryReply]).

Definition getUsersFromServer (svc : FaceRecognitionService)
  : QVariantList * list HttpRequest :=
  let result : QVariantList := [] in
  if negb (isNetworkAvailable svc) then (result, [])
  else (result, [mkRequest HttpGet (m_serverUrl svc +:+ "/users") None UsersReply]).

Definition testServerConnection (svc : FaceRecognitionService) (serverUrl : string)
  : bool * list HttpRequest :=
  let url := if String.eqb serverUrl "" then m_serverUrl svc else serverUrl in
  (true, [mkRequest HttpGet (url +:+ "/health") None ConnectionTestReply]).

(** ** Parsing the lists *)

Definition parseUser (value : QVariant) : QVariantMap :=
  let user : QJsonObject := toMap value in
  let userMap : QVariantMap := ∅ in
  let userMap := <["id" := String (jsonToString (jsonRef user "id"))]> userMap in
  let userMap := <["name" := String (jsonToString (jsonRef user "name"))]> userMap in
  let userMap := <["position" := String (jsonToString (jsonRef user "position"))]> userMap in
  let userMap := <["active" := Bool (jsonToBool (jsonRef user "active"))]> userMap in
  let userMap := <["model" := String (jsonToString (jsonRef user "model"))]> userMap in
  let userMap := <["created_at" := String (jsonToString (jsonRef user "created_at"))]> userMap in
  userMap.

(** The loop appends one map for each value of the array, in order. *)
Definition parseUsersResponse (responseData : QByteArray) : QVariantList :=
  let doc := fromJson responseData in
  if docIsNull doc then []
  else
    let obj : QJsonObject := toMap doc in
    let users := toList (jsonRef obj "users") in
    map (λ value, Map (parseUser value)) users.

Definition parseHistoryItem (value : QVariant) : QVariantMap :=
  let item : QJsonObject := toMap value in
  let itemMap : QVariantMap := ∅ in
  let itemMap := <["id" := Double (intToDouble (jsonToInt (jsonRef item "id")))]> itemMap in
  let itemMap := <["ts" := jsonRef item "ts"]> itemMap in
  let itemMap := <["device_id" := String (jsonToString (jsonRef item "device_id"))]> itemMap in
  let itemMap := <["matched" := Bool (jsonToBool (jsonRef item "matched"))]> itemMap in
  let itemMap :=
    if jsonIsNull (jsonRef item "user_id") then <["user_id" := String ""]> itemMap
    else <["user_id" := String (jsonToString (jsonRef item "user_id"))]> itemMap in
  let itemMap :=
    if jsonIsNull (jsonRef item "name") then <["name" := String "Unknown"]> itemMap
    else <["name" := String (jsonToString (jsonRef item "name"))]> itemMap in
  let itemMap :=
    if jsonIsNull (jsonRef item "distance") then <["distance" := Double 0]> itemMap
    else <["distance" := Double (jsonToDouble (jsonRef item "distance"))]> itemMap in
  itemMap.

Definition parseHistoryResponse (responseData : QByteArray) : QVariantList :=
  let doc := fromJson responseData in
  if docIsNull doc then []
  else
    let obj : QJsonObject := toMap doc in
    let items := toList (jsonRef obj "items") in
    map (λ value, Map (parseHistoryItem value)) items.

(** ** The other slots

    Each returns the signals it emits; [sender] is as for
    [onRecognizeReplyFinished]. *)

Definition onRegisterReplyFinished (sender : option QNetworkReply) : list ReplySignal :=
  match sender with
  | None => []
  | Some reply =>
      match replyError reply with
      | NoError =>
          let doc := fromJson (replyBody reply) in
          if negb (docIsNull doc) then
            let obj : QJsonObject := toMap doc in
            let userId := jsonToString (jsonRef obj "user_id") in
            [faceRegistrationSuccess (QString_toInt userId)]
          else [faceRegistrationFailed "Invalid response format"]
      | _ => [faceRegistrationFailed (errorString reply)]
      end
  end.

Definition onHistoryReplyFinished (sender : option QNetworkReply) : list ReplySignal :=
  match sender with
  | None => []
  | Some reply =>
      match replyError reply with
      | NoError =>
          let history := parseHistoryResponse (replyBody reply) in
          [attendanceHistoryUpdated; historyDataLoaded history;
           historyDataLoadedJson (compactJson history)]
      | _ => [historyDataLoadFailed (errorString reply)]
      end
  end.

Definition onUsersReplyFinished (sender : option QNetworkReply) : list ReplySignal :=
  match sender with
  | None => []
  | Some reply =>
      match replyError reply with
      | NoError => [usersUpdated (parseUsersResponse (replyBody reply))]
      | _ => [usersUpdated []]
      end
  end.

Definition onConnectionTestReplyFinished (sender : option QNetworkReply)
  : list ReplySignal :=
  match sender with
  | None => []
  | Some reply =>
      match replyError reply with
      | NoError =>
          let doc := fromJson (replyBody reply) in
          if negb (docIsNull doc)
          then [serverConnectionTested true "Server connection successful"]
          else [serverConnectionTested false "Invalid server response"]
      | _ => [serverConnectionTested false ("Connection failed: " +:+ errorString reply)]
      end
  end.

(** [QJsonDocument::isObject]. *)
Definition docIsObject (doc : QVariant) : bool :=
  match doc with Map _ => true | _ => false end.

Definition onWorkHoursReplyFinished (sender : option QNetworkReply) : list ReplySignal :=
  match sender with
  | None => []
  | Some reply =>
      match replyError reply with
      | NoError =>
          let doc := fromJson (replyBody reply) in
          if negb (docIsNull doc) && docIsObject doc then
            let obj : QJsonObject := toMap doc in
            let workHours : QVariantList :=
              if bool_decide (is_Some (obj !! "users"))
              then toList (jsonRef obj "users")
              else [] in
            [workHoursUpdated workHours]
          else [workHoursUpdated []]
      | _ => [workHoursUpdated []]
      end
  end.

Definition onWorkHoursSummaryReplyFinished (sender : option QNetworkReply)
  : list ReplySignal :=
  match sender with
  | None => []
  | Some reply =>
      match replyError reply with
      | NoError =>
          let doc := fromJson (replyBody reply) in
          if negb (docIsNull doc) && docIsObject doc then
            let obj : QJsonObject := toMap doc in
            let summary : QVariantList :=
              if bool_decide (is_Some (obj !! "users"))
              then toList (jsonRef obj "users")
              else [] in
            [workHoursSummaryUpdated summary]
          else [workHoursSummaryUpdated []]
      | _ => [workHoursSummaryUpdated []]
      end
  end.

End Service.

(* ===================================================================== *)
(** * CameraManager, readiness  (cameramanager.cpp) *)
(* ===================================================================== *)

(** [isImageCaptureReady]; [ready] is what
    [m_imageCapture->isReadyForCapture()] answers. *)
Definition isImageCaptureReady (ready : bool) (s : CameraManager) : bool :=
  m_imageCapture s && ready.

(* ===================================================================== *)
(** * QmlBridge  (qmlbridge.h, qmlbridge.cpp) *)
(* ===================================================================== *)

(** [QDateTime::currentDateTime()], by the two texts the bridge formats
    from it: ["yyyy-MM-dd"] and ["hh:mm:ss"]. *)
Record QDateTime := mkDateTime {
  dateText : string;
  timeText : string;
}.

(** Inside the bridge, [startCamera] is the bridge's own; this names the
    manager's. *)
Abbreviation CameraManager_startCamera := startCamera.

Module Bridge.

(** The part of the bridge that the operations below read or write.  The
    services are made in the constructor and the pointers to them are
    never null afterwards. *)
Record QmlBridge := mkBridge {
  m_cameraManager : CameraManager;
  m_faceRecognitionService : FaceRecognitionService;
  m_users : QVariantList;
  m_recognitionHistory : QVariantList;
  m_cameraAvailable : bool;
}.

Inductive Signal :=
  | usersChanged
  | cameraAvailableChanged
  | faceRecognized (userId userName : string)
  | faceRecognitionFailed
  | cameraError (error : string)
  | recognitionEventAdded (userName : string) (success : bool) (timestamp : string)
  | recognitionHistoryChanged.

(** The constructor. *)
Definition newQmlBridge (devices : list QCameraDevice) (machineHostName : string) : QmlBridge :=
  mkBridge (newCameraManager devices) (newFaceRecognitionService machineHostName)
    [] [] false.

Definition startCamera (env : StartEnv) (b : QmlBridge) : bool * QmlBridge * list Signal :=
  let '(started, camera, _) := startCamera env (m_cameraManager b) in
  if started then
    (true,
     mkBridge camera (m_faceRecognitionService b) (m_users b) (m_recognitionHistory b) true,
     [cameraAvailableChanged])
  else
    (false,
     mkBridge camera (m_faceRecognitionService b) (m_users b) (m_recognitionHistory b)
       (m_cameraAvailable b),
     [cameraError "Failed to start camera"]).

Definition stopCamera (b : QmlBridge) : QmlBridge * list Signal :=
  let '(camera, _) := stopCamera (m_cameraManager b) in
  (mkBridge camera (m_faceRecognitionService b) (m_users b) (m_recognitionHistory b) false,
   [cameraAvailableChanged]).

Definition onUsersUpdated (users : QVariantList) (b : QmlBridge) : QmlBridge * list Signal :=
  (mkBridge (m_cameraManager b) (m_faceRecognitionService b) users
     (m_recognitionHistory b) (m_cameraAvailable b),
   [usersChanged]).

Definition getUsersList (b : QmlBridge) : QVariantList := m_users b.

(** The connection that the constructor makes from [usersUpdated] of the
    service to [onUsersUpdated]: what the signals of a users reply do to
    the bridge. *)
Definition deliverUsersUpdated (signals : list ReplySignal) (b : QmlBridge)
  : QmlBridge * list Signal :=
  foldl (λ acc signal,
           match signal with
           | usersUpdated users =>
               let '(b', emitted) := onUsersUpdated users acc.1 in
               (b', acc.2 ++ emitted)
           | _ => acc
           end) (b, []) signals.

Definition addRecognitionEventWithImage (now : QDateTime) (userName : string)
    (success : bool) (imageData : string) (b : QmlBridge) : QmlBridge * list Signal :=
  let timestamp := dateText now +:+ " " +:+ timeText now in
  let event : QVariantMap := ∅ in
  let event := <["name" := String userName]> event in
  let event := <["success" := Bool success]> event in
  let event := <["timestamp" := String timestamp]> event in
  let event := <["time" := String (timeText now)]> event in
  let event := <["date" := String (dateText now)]> event in
  let event := <["type" := String (if success then "checkin" else "checkout")]> event in
  let event := <["status" := String (if success then "success" else "failed")]> event in
  let event :=
    if negb (String.eqb imageData "")
    then <["captured_image" := String imageData]> event
    else event in
  let history := Map event :: m_recognitionHistory b in
  let history := if (50 <? length history)%nat then take 50 history else history in
  (mkBridge (m_cameraManager b) (m_faceRecognitionService b) (m_users b) history
     (m_cameraAvailable b),
   [recognitionEventAdded userName success timestamp; recognitionHistoryChanged]).

Definition addRecognitionEvent (now : QDateTime) (userName : string) (success : bool)
    (b : QmlBridge) : QmlBridge * list Signal :=
  addRecognitionEventWithImage now userName success "" b.

Definition clearRecognitionHistory (b : QmlBridge) : QmlBridge * list Signal :=
  (mkBridge (m_cameraManager b) (m_faceRecognitionService b) (m_users b) []
     (m_cameraAvailable b),
   [recognitionHistoryChanged]).

Definition getRecognitionHistory (b : QmlBridge) : QVariantList :=
  m_recognitionHistory b.

(** [setServerUrl] and [setDeviceId], by what they do to the service; the
    setting that they also save is not read by the operations below. *)
Definition setServerUrl (url : string) (b : QmlBridge) : QmlBridge :=
  mkBridge (m_cameraManager b) (setServerUrl url (m_faceRecognitionService b))
    (m_users b) (m_recognitionHistory b) (m_cameraAvailable b).

Definition setDeviceId (deviceId : string) (b : QmlBridge) : QmlBridge :=
  mkBridge (m_cameraManager b) (setDeviceId deviceId (m_faceRecognitionService b))
    (m_users b) (m_recognitionHistory b) (m_cameraAvailable b).

Section Requests.
Context `{QtJson}.
Variable QImage : Type.
Variable loadFromData : ImageBytes → option QImage.
Variable imageToBase64 : QImage → string.
(** [QVariant::toInt], which [getUserById] compares ids with. *)
Variable variantToInt : QVariant → Z.

(** [recognizeFace]: the map it returns, the signals it emits and the
    requests the service posts. *)
Definition recognizeFace (imageData : ImageBytes) (b : QmlBridge)
  : QVariantMap * list Signal * list HttpRequest :=
  let '(result, requests) :=
    recognizeFace QImage loadFromData imageToBase64
      (m_faceRecognitionService b) imageData in
  if bool_decide (is_Some (result !! "success"))
     && toBool (subscript result "success").1 then
    let '(userId, result1) := subscript result "user_id" in
    let '(userName, result2) := subscript result1 "user_name" in
    (result2, [faceRecognized (toString userId) (toString userName)], requests)
  else (result, [faceRecognitionFailed], requests).

Definition processRecognition (imageData : ImageBytes) (capturedImage : string)
    (b : QmlBridge) : list Signal * list HttpRequest :=
  let '(result, requests) :=
    recognizeFaceWithServer QImage loadFromData imageToBase64
      (m_faceRecognitionService b) imageData capturedImage in
  if toBool (subscript result "success").1 then ([], requests)
  else ([faceRecognitionFailed], requests).

Definition withCamera (camera : CameraManager) (b : QmlBridge) : QmlBridge :=
  mkBridge camera (m_faceRecognitionService b) (m_users b) (m_recognitionHistory b)
    (m_cameraAvailable b).

Definition captureImage (env : CaptureEnv) (b : QmlBridge) : ImageBytes * QmlBridge :=
  let '(imageData, camera) := captureImage env (m_cameraManager b) in
  (imageData, withCamera camera b).

(** A single-shot timer that the bridge arms: to call [captureAndRecognize]
    again, or to run the lambda that fetches the captured image. *)
Inductive Timer :=
  | RetryCaptureAndRecognize (msec : nat)
  | FetchCapturedImage (msec : nat).

(** What the platform answers during one call of [captureAndRecognize]. *)
Record CaptureAndRecognizeEnv := mkCaptureAndRecognizeEnv {
  startEnv : StartEnv;
  readyWhenAsked : bool;        (* isReadyForCapture() in isImageCaptureReady *)
  captureEnv : CaptureEnv;
}.

(** [captureAndRecognize]: the bridge afterwards, the signals emitted, the
    requests posted and the timers armed. *)
Definition captureAndRecognize (env : CaptureAndRecognizeEnv) (b : QmlBridge)
  : QmlBridge * list Signal * list HttpRequest * list Timer :=
  if negb (isCameraAvailable (m_cameraManager b)) then
    (b, [faceRecognitionFailed], [], [])
  else if negb (isCameraRunning (m_cameraManager b)) then
    let '(started, camera, _) := CameraManager_startCamera (startEnv env) (m_cameraManager b) in
    if negb started then (withCamera camera b, [faceRecognitionFailed], [], [])
    else (withCamera camera b, [], [], [RetryCaptureAndRecognize 3000])
  else if negb (isImageCaptureReady (readyWhenAsked env) (m_cameraManager b)) then
    (b, [], [], [RetryCaptureAndRecognize 1000])
  else
    let '(imageData, b1) := captureImage (captureEnv env) b in
    if String.eqb imageData "" then (b1, [], [], [FetchCapturedImage 1000])
    else
      let '(signals, requests) := processRecognition imageData "" b1 in
      (b1, signals, requests, []).

(** The lambda of the timer that [captureAndRecognize] arms after it
    started a capture. *)
Definition fetchCapturedImage (env : CaptureEnv) (b : QmlBridge)
  : QmlBridge * list Signal * list HttpRequest :=
  let '(capturedData, b1) := captureImage env b in
  if negb (String.eqb capturedData "") then
    let '(signals, requests) := processRecognition capturedData "" b1 in
    (b1, signals, requests)
  else (b1, [faceRecognitionFailed], []).

Definition getUsers (b : QmlBridge) : QVariantList * list HttpRequest :=
  getUsersFromServer (m_faceRecognitionService b).

Fixpoint findByIdLoop (users : QVariantList) (userId : Z) : QVariantMap :=
  match users with
  | [] => ∅
  | userVar :: rest =>
      let '(id, user) := subscript (toMap userVar) "id" in
      if (variantToInt id =? userId)%Z then user else findByIdLoop rest userId
  end.

Definition getUserById (userId : Z) (b : QmlBridge) : QVariantMap * list HttpRequest :=
  let '(users, requests) := getUsers b in
  (findByIdLoop users userId, requests).

Fixpoint findByNameLoop (users : QVariantList) (name : string) : QVariantMap :=
  match users with
  | [] => ∅
  | userVar :: rest =>
      let '(n, user) := subscript (toMap userVar) "name" in
      if String.eqb (toString n) name then user else findByNameLoop rest name
  end.

Definition getUserByName (name : string) (b : QmlBridge) : QVariantMap * list HttpRequest :=
  let '(users, requests) := getUsers b in
  (findByNameLoop users name, requests).

(** ** The states of a bridge *)

Inductive Op :=
  | CallStartCamera (env : StartEnv)
  | CallStopCamera
  | CallCaptureImage (env : CaptureEnv)
  | CallCaptureAndRecognize (env : CaptureAndRecognizeEnv)
  | FireFetchCapturedImage (env : CaptureEnv)
  | CameraCallback (op : CameraOp)
  | CallAddRecognitionEvent (now : QDateTime) (userName : string) (success : bool)
      (imageData : string)
  | CallClearRecognitionHistory
  | ReceiveUsersUpdated (users : QVariantList)
  | CallSetServerUrl (url : string)
  | CallSetDeviceId (deviceId : string).

(** A callback of the camera manager itself: the capture slots and the
    timeout, not its [startCamera] or [stopCamera], which only the bridge
    calls. *)
Definition isCallback (op : CameraOp) : bool :=
  match op with
  | FireCaptureTimeout | SlotImageCaptured _ | SlotImageCaptureError _ => true
  | _ => false
  end.

Definition step (op : Op) (b : QmlBridge) : QmlBridge :=
  match op with
  | CallStartCamera env => (startCamera env b).1.2
  | CallStopCamera => (stopCamera b).1
  | CallCaptureImage env => (captureImage env b).2
  | CallCaptureAndRecognize env => (captureAndRecognize env b).1.1.1
  | FireFetchCapturedImage env => (fetchCapturedImage env b).1.1
  | CameraCallback op =>
      if isCallback op then withCamera (cameraStep op (m_cameraManager b)) b else b
  | CallAddRecognitionEvent now userName success imageData =>
      (addRecognitionEventWithImage now userName success imageData b).1
  | CallClearRecognitionHistory => (clearRecognitionHistory b).1
  | ReceiveUsersUpdated users => (onUsersUpdated users b).1
  | CallSetServerUrl url => setServerUrl url b
  | CallSetDeviceId deviceId => setDeviceId deviceId b
  end.

Inductive reachable : QmlBridge → Prop :=
  | reachable_new devices machineHostName :
      reachable (newQmlBridge devices machineHostName)
  | reachable_step op b : reachable b → reachable (step op b).

End Requests.

End Bridge.

(* ===================================================================== *)
(** * The vocabulary of the properties *)
(* ===================================================================== *)

#[global] Instance SyncState_eq_dec : EqDecision SyncState.
Proof. solve_decision. Defined.

(** An entry as the loop of [getUnsyncedLogs] copies it. *)
Definition asEvent (logVar : QVariant) : QVariant :=
  Map (subscript (toMap logVar) "synced").2.

(** An entry as [cacheLog] and [markLogSynced] write it: a map with a
    sync flag. *)
Definition isEvent (logVar : QVariant) : Prop :=
  ∃ m, logVar = Map m ∧ is_Some (m !! "synced").

(** What becomes of a stored entry: it is stored in some sync state, or it
    was removed from the log. *)
Inductive Fate := Stored (s : SyncState) | Removed.

(** The transitions of one operation.  [Pending] to [Synced] is the work of
    [markLogSynced]; a [Synced] entry stays [Synced] until
    [clearSyncedLogs] removes it; nothing leads from [Synced] to
    [Pending], and nothing removes a [Pending] entry. *)
Definition allowed (op : CacheOp) (before after : Fate) : Prop :=
  match before, after with
  | Stored Pending, Stored Pending => True
  | Stored Pending, Stored Synced => ∃ id now, op = OpMarkLogSynced id now
  | Stored Synced, Stored Synced => True
  | Stored Synced, Removed => op = OpClearSyncedLogs
  | Removed, Removed => True
  | _, _ => False
  end.

Arguments allowed : simpl never.

Fixpoint lawful (ops : list CacheOp) (before : Fate) (after : list Fate) : Prop :=
  match ops, after with
  | [], [] => True
  | op :: ops', f :: after' => allowed op before f ∧ lawful ops' f after'
  | _, _ => False
  end.

(** Two entries that hold the same event: the same id, and the same value
    in every field other than the id and the two that [markLogSynced]
    writes. *)
Definition sameEvent `{QtJson} (logVar logVar' : QVariant) : Prop :=
  logId logVar' = logId logVar ∧
  ∀ k, k ≠ "id" → k ≠ "synced" → k ≠ "synced_at" →
       toMap logVar' !! k = toMap logVar !! k.

Section Tracking.
Context `{QtJson}.
Variable cm : CacheManager.

(** The number of entries before position [i] that are not synced. *)
Definition pendingBefore (logs : QVariantList) (i : nat) : nat :=
  length (filter (λ logVar, isSynced logVar = false) (take i logs)).

(** Where the entry at position [i] of the stored log is after [op].
    [cacheLog] appends and [markLogSynced] writes in place, so the entry
    keeps its position; [clearSyncedLogs] drops the synced entries and
    moves the others up; an operation that could not write moves nothing. *)
Definition track (op : CacheOp) (fs : FileSystem) (i : nat) : option nat :=
  if decide (m_logsCacheFile cm ∈ writeDenied fs) then Some i
  else
    match op with
    | OpClearSyncedLogs =>
        match getCachedLogs cm fs !! i with
        | Some logVar =>
            if isSynced logVar then None
            else Some (pendingBefore (getCachedLogs cm fs) i)
        | None => None
        end
    | _ => Some i
    end.

Definition fateAt (fs : FileSystem) (pos : option nat) : Fate :=
  match pos with
  | Some j =>
      match getCachedLogs cm fs !! j with
      | Some logVar => Stored (syncState logVar)
      | None => Removed
      end
  | None => Removed
  end.

(** The fate of the entry after each operation of the sequence. *)
Fixpoint fates (ops : list CacheOp) (fs : FileSystem) (pos : option nat) : list Fate :=
  match ops with
  | [] => []
  | op :: ops' =>
      let pos' := pos ≫= track op fs in
      let fs' := runOp cm op fs in
      fateAt fs' pos' :: fates ops' fs' pos'
  end.

End Tracking.

(* ===================================================================== *)
(** * Induction on QVariant, and the JSON image *)
(* ===================================================================== *)

Fixpoint qsize (v : QVariant) : nat :=
  match v with
  | List l => S (foldr (λ x n, qsize x + n) 0 l)
  | Map m => S (map_fold (λ _ x n, qsize x + n) 0 m)
  | _ => 1
  end.

Lemma qsize_list_elem (l : QVariantList) (v : QVariant) :
  v ∈ l → qsize v < qsize (List l).
Proof.
  simpl. induction 1 as [x l|x y l _ IH]; simpl; lia.
Qed.

Lemma qsize_map_elem (m : QVariantMap) (k : string) (v : QVariant) :
  m !! k = Some v → qsize v < qsize (Map m).
Proof.
  intros Hk. simpl.
  rewrite (map_fold_delete_L _ _ k v m); [lia | | done].
  intros; lia.
Qed.

(** The induction principle that the nesting calls for. *)
Lemma QVariant_nested_ind (P : QVariant → Prop) :
  P Invalid → P Null → (∀ b, P (Bool b)) → (∀ d, P (Double d)) →
  (∀ s, P (String s)) →
  (∀ l, Forall P l → P (List l)) →
  (∀ m, map_Forall (λ _, P) m → P (Map m)) →
  ∀ v, P v.
Proof.
  intros HI HN HB HD HS HL HM v.
  remember (qsize v) as n eqn:Hn. revert v Hn.
  induction (lt_wf n) as [n _ IH]; intros v ->.
  destruct v; auto.
  - apply HL, Forall_forall. intros x Hx.
    eapply IH; [|reflexivity]. by apply qsize_list_elem.
  - apply HM. intros k x Hk.
    eapply IH; [|reflexivity]. by eapply qsize_map_elem.
Qed.

Lemma jsonOfVariant_idemp (v : QVariant) :
  jsonOfVariant (jsonOfVariant v) = jsonOfVariant v.
Proof.
  induction v as [| |b|d|s|l IH|m IH] using QVariant_nested_ind; simpl; try done.
  - destruct (is_finite d) eqn:E; simpl; by rewrite ?E.
  - f_equal. rewrite map_map. apply map_ext_Forall.
    eapply Forall_impl; [exact IH|]. by intros x ->.
  - f_equal. rewrite <-map_fmap_compose. apply map_fmap_ext.
    intros k x Hk. simpl. by apply (IH k x).
Qed.

Lemma jsonDocument_idemp (v : QVariant) :
  jsonDocument (jsonDocument v) = jsonDocument v.
Proof.
  pose proof (jsonOfVariant_idemp v) as Hv.
  destruct v; simpl in *; try done.
Qed.

(** ** The reference reader and writer

    The bytes are the document itself.  A number has a placeholder for
    its text: no closed example below has a number where its text is
    read. *)
#[refine] Instance referenceJson : QtJson := {|
  QByteArray := QVariant;
  noBytes := Invalid;
  toJson := jsonDocument;
  fromJson := jsonDocument;
  numberToString := λ _, "0";
|}.
Proof.
  - apply jsonDocument_idemp.
  - apply jsonDocument_idemp.
  - reflexivity.
Defined.

(* ===================================================================== *)
(** * Facts about the JSON image *)
(* ===================================================================== *)

Lemma jsonDocument_toList (v : QVariant) :
  toList (jsonDocument v) = map jsonOfVariant (toList v).
Proof. by destruct v. Qed.

Lemma jsonDocument_toMap (v : QVariant) :
  toMap (jsonDocument v) = jsonOfVariant <$> toMap v.
Proof. destruct v; simpl; by rewrite ?fmap_empty. Qed.

(** A document read back holds JSON values only. *)
Lemma document_list_json (v : QVariant) :
  jsonDocument v = v → map jsonOfVariant (toList v) = toList v.
Proof. destruct v; simpl; try done. by intros [= ->]. Qed.

Lemma Forall_isJson_map (l : QVariantList) :
  Forall isJson l ↔ map jsonOfVariant l = l.
Proof.
  unfold isJson. split.
  - induction 1; simpl; congruence.
  - induction l as [|x l IH]; simpl; [done|].
    intros [= Hx Hl]. constructor; auto.
Qed.

(** The JSON image can turn a true flag into a false one (a number that is
    not finite becomes null), never a false one into a true one. *)
Lemma toBool_jsonOfVariant (v : QVariant) :
  toBool (jsonOfVariant v) = true → toBool v = true.
Proof.
  destruct v; simpl; try done.
  destruct (is_finite d); simpl; [done|discriminate].
Qed.

Lemma subscript_fst (m : QVariantMap) (k : string) :
  (subscript m k).1 = default Invalid (m !! k).
Proof. unfold subscript. by destruct (m !! k). Qed.

Lemma subscript_snd_lookup (m : QVariantMap) (k : string) :
  (subscript m k).2 !! k = Some (subscript m k).1.
Proof.
  unfold subscript. destruct (m !! k) eqn:E; simpl; [done|].
  by rewrite lookup_insert_eq.
Qed.

Lemma subscript_present (m : QVariantMap) (k : string) :
  is_Some (m !! k) → (subscript m k).2 = m.
Proof. intros [v Hv]. unfold subscript. by rewrite Hv. Qed.

(* ===================================================================== *)
(** * Facts about the cache *)
(* ===================================================================== *)

Section CacheFacts.
Context `{QtJson}.
Variable cm : CacheManager.

(** ** Saving and loading *)

Lemma saveToFile_denied filePath data (fs : FileSystem) :
  filePath ∈ writeDenied fs → saveToFile filePath data fs = (false, fs).
Proof. intros Hd. unfold saveToFile, openWriteOnly. by rewrite decide_True. Qed.

Lemma saveToFile_written filePath data (fs : FileSystem) :
  filePath ∉ writeDenied fs →
  saveToFile filePath data fs =
    (true, mkFileSystem (<[filePath := toJson data]> (files fs))
             (readDenied fs) (writeDenied fs)).
Proof.
  intros Hd. unfold saveToFile, openWriteOnly, writeAll.
  rewrite decide_False by done. simpl. by rewrite insert_insert_eq.
Qed.

Lemma saveToFile_complete filePath data (fs : FileSystem) :
  (saveToFile filePath data fs).2 = saveToFile_stopped 2 filePath data fs.
Proof. unfold saveToFile, saveToFile_stopped. by destruct (openWriteOnly _ _). Qed.

Lemma loadFromFile_document filePath (fs : FileSystem) :
  jsonDocument (loadFromFile filePath fs) = loadFromFile filePath fs.
Proof.
  unfold loadFromFile. destruct (files fs !! filePath); [|done].
  case_decide; [done|]. apply fromJson_document.
Qed.

Lemma loadFromFile_read_denied filePath (fs : FileSystem) :
  filePath ∈ readDenied fs → loadFromFile filePath fs = Invalid.
Proof.
  intros Hr. unfold loadFromFile. destruct (files fs !! filePath); [|done].
  by rewrite decide_True.
Qed.

Lemma load_after_save filePath data (fs : FileSystem) :
  filePath ∉ writeDenied fs → filePath ∉ readDenied fs →
  loadFromFile filePath (saveToFile filePath data fs).2 = jsonDocument data.
Proof.
  intros Hw Hr. rewrite saveToFile_written by done.
  unfold loadFromFile. simpl. rewrite lookup_insert_eq.
  rewrite decide_False by done. apply fromJson_toJson.
Qed.

Lemma saveToFile_permissions filePath data (fs : FileSystem) :
  readDenied (saveToFile filePath data fs).2 = readDenied fs ∧
  writeDenied (saveToFile filePath data fs).2 = writeDenied fs.
Proof.
  unfold saveToFile, openWriteOnly. by case_decide.
Qed.

Lemma saveToFile_stopped_other n filePath data (fs : FileSystem) other :
  other ≠ filePath →
  files (saveToFile_stopped n filePath data fs) !! other = files fs !! other.
Proof.
  intros Hne. unfold saveToFile_stopped, openWriteOnly, writeAll.
  destruct n as [|[|n]]; [done| |]; case_decide; simpl;
    by rewrite ?lookup_insert_ne.
Qed.

Lemma saveToFile_stopped_open filePath data (fs : FileSystem) :
  filePath ∉ writeDenied fs →
  files (saveToFile_stopped 1 filePath data fs) = <[filePath := noBytes]> (files fs) ∧
  loadFromFile filePath (saveToFile_stopped 1 filePath data fs) = Invalid.
Proof.
  intros Hw. unfold saveToFile_stopped, openWriteOnly, loadFromFile.
  rewrite decide_False by done. simpl. split; [done|].
  rewrite lookup_insert_eq. case_decide; [done|]. apply fromJson_noBytes.
Qed.

(** The stored log holds JSON values only. *)
Lemma getCachedLogs_json (fs : FileSystem) :
  map jsonOfVariant (getCachedLogs cm fs) = getCachedLogs cm fs.
Proof. apply document_list_json, loadFromFile_document. Qed.

Lemma getCachedLogs_read_denied (fs : FileSystem) :
  m_logsCacheFile cm ∈ readDenied fs → getCachedLogs cm fs = [].
Proof. intros Hr. unfold getCachedLogs. by rewrite loadFromFile_read_denied. Qed.

(** What the log is after [logs] was saved over it. *)
Lemma getCachedLogs_after_save (logs : QVariantList) (fs : FileSystem) :
  m_logsCacheFile cm ∉ writeDenied fs →
  m_logsCacheFile cm ∉ readDenied fs →
  getCachedLogs cm (saveToFile (m_logsCacheFile cm) (List logs) fs).2
    = map jsonOfVariant logs.
Proof.
  intros Hw Hr. unfold getCachedLogs. by rewrite load_after_save.
Qed.

(** ** The loops *)

Lemma asEvent_event (logVar : QVariant) : isEvent logVar → asEvent logVar = logVar.
Proof.
  intros (m & -> & Hs). unfold asEvent. simpl. by rewrite subscript_present.
Qed.

Lemma unsyncedLoop_filter (allLogs acc : QVariantList) :
  unsyncedLoop allLogs acc
    = acc ++ map asEvent (filter (λ logVar, isSynced logVar = false) allLogs).
Proof.
  revert acc. induction allLogs as [|logVar rest IH]; intros acc; simpl.
  - by rewrite app_nil_r.
  - destruct (subscript (toMap logVar) "synced") as [synced log] eqn:E.
    assert (isSynced logVar = toBool synced) as Hs by (unfold isSynced; by rewrite E).
    assert (asEvent logVar = Map log) as Hv by (unfold asEvent; by rewrite E).
    destruct (toBool synced) eqn:Eb; simpl.
    + rewrite filter_cons_False by congruence. apply IH.
    + rewrite filter_cons_True by done. simpl.
      rewrite IH, Hv, <-app_assoc. done.
Qed.

Lemma markLoop_length rest i id now (logs : QVariantList) :
  length (markLoop rest i id now logs) = length logs.
Proof.
  revert i. induction rest as [|logVar rest IH]; intros i; simpl; [done|].
  destruct (subscript (toMap logVar) "id") as [idv log].
  destruct (String.eqb _ _); [by rewrite length_insert|apply IH].
Qed.

Lemma markLoop_absent rest i id now (logs : QVariantList) :
  Forall (λ logVar, logId logVar ≠ id) rest →
  markLoop rest i id now logs = logs.
Proof.
  revert i. induction rest as [|logVar rest IH]; intros i Hall; simpl; [done|].
  inversion Hall as [|? ? Hx Hrest]; subst.
  destruct (subscript (toMap logVar) "id") as [idv log] eqn:E.
  unfold logId in Hx. rewrite E in Hx. simpl in Hx.
  apply String.eqb_neq in Hx. rewrite Hx. by apply IH.
Qed.

(** Each position of the log after the loop holds what it held, or the
    entry there marked as synced. *)
Lemma markLoop_lookup_from rest i id now (logs : QVariantList) j e :
  rest = drop i logs →
  logs !! j = Some e →
  ∃ e', markLoop rest i id now logs !! j = Some e' ∧
        (e' = e ∨ e' = Map (syncedLog (subscript (toMap e) "id").2 now)).
Proof.
  revert i. induction rest as [|logVar rest IH]; intros i Hrest Hj; simpl.
  - eauto.
  - assert (logs !! i = Some logVar) as Hi.
    { rewrite <-(Nat.add_0_r i), <-lookup_drop, <-Hrest. done. }
    assert (rest = drop (S i) logs) as Hrest'.
    { rewrite (drop_S _ _ _ Hi) in Hrest. congruence. }
    destruct (subscript (toMap logVar) "id") as [idv log] eqn:E.
    destruct (String.eqb _ _).
    + destruct (decide (i = j)) as [->|Hne].
      * rewrite list_lookup_insert_eq by (by eapply lookup_lt_Some).
        assert (e = logVar) as -> by congruence.
        rewrite E. simpl. eauto.
      * rewrite list_lookup_insert_ne by done. eauto.
    + by apply IH.
Qed.

Lemma markLoop_lookup id now (logs : QVariantList) j e :
  logs !! j = Some e →
  ∃ e', markLoop logs 0 id now logs !! j = Some e' ∧
        (e' = e ∨ e' = Map (syncedLog (subscript (toMap e) "id").2 now)).
Proof. by apply markLoop_lookup_from. Qed.

End CacheFacts.

Lemma syncState_not_Synced (logVar : QVariant) :
  syncState logVar ≠ Synced ↔ isSynced logVar = false.
Proof. unfold syncState. destruct (isSynced logVar); naive_solver. Qed.

Lemma isSynced_json (logVar : QVariant) :
  isSynced (jsonOfVariant logVar) = true → isSynced logVar = true.
Proof.
  unfold isSynced. rewrite !subscript_fst.
  destruct logVar as [| |b|d|s|l|m]; simpl; try done.
  - by destruct (is_finite d).
  - rewrite lookup_fmap. destruct (m !! "synced") as [v|]; simpl; [|done].
    apply toBool_jsonOfVariant.
Qed.

Lemma isSynced_logWithSync (log : QVariantMap) (now : string) :
  isSynced (Map (logWithSync log now)) = false.
Proof.
  unfold isSynced, logWithSync. rewrite subscript_fst. simpl.
  rewrite lookup_insert_ne by done. by rewrite lookup_insert_eq.
Qed.

Lemma syncState_logWithSync_json (log : QVariantMap) (now : string) :
  syncState (jsonOfVariant (Map (logWithSync log now))) = Pending.
Proof.
  pose proof (isSynced_json (Map (logWithSync log now))) as Hj.
  rewrite isSynced_logWithSync in Hj. unfold syncState.
  destruct (isSynced (jsonOfVariant _)); [by specialize (Hj eq_refl)|done].
Qed.

Lemma isSynced_syncedLog_json (log : QVariantMap) (now : string) :
  isSynced (jsonOfVariant (Map (syncedLog log now))) = true.
Proof.
  unfold isSynced, syncedLog. rewrite subscript_fst. simpl.
  rewrite lookup_fmap, lookup_insert_ne by done. by rewrite lookup_insert_eq.
Qed.

Lemma isSynced_asEvent (logVar : QVariant) :
  isSynced (asEvent logVar) = isSynced logVar.
Proof.
  unfold isSynced, asEvent. simpl.
  rewrite (subscript_fst (subscript _ _).2), subscript_snd_lookup. done.
Qed.

(* ===================================================================== *)
(** * Properties of the cache *)
(* ===================================================================== *)

Section CacheProperties.
Context `{QtJson}.
Variable cm : CacheManager.

(** The shape shared by the mutating operations: save, then signal when
    the save succeeded. *)
Lemma save_then_signal filePath data (signal : CacheSignal) (fs : FileSystem) :
  (let '(ok, fs') := saveToFile filePath data fs in
   if ok then (fs', [signal]) else (fs', []))
  = if decide (filePath ∈ writeDenied fs) then (fs, [])
    else ((saveToFile filePath data fs).2, [signal]).
Proof.
  case_decide.
  - by rewrite saveToFile_denied.
  - by rewrite saveToFile_written.
Qed.

Lemma cacheLog_unfold log now (fs : FileSystem) :
  cacheLog cm log now fs
  = if decide (m_logsCacheFile cm ∈ writeDenied fs) then (fs, [])
    else ((saveToFile (m_logsCacheFile cm)
             (List (getCachedLogs cm fs ++ [Map (logWithSync log now)])) fs).2,
          [unsyncedLogsChanged]).
Proof. unfold cacheLog. apply save_then_signal. Qed.

Lemma markLogSynced_unfold id now (fs : FileSystem) :
  markLogSynced cm id now fs
  = if decide (m_logsCacheFile cm ∈ writeDenied fs) then (fs, [])
    else ((saveToFile (m_logsCacheFile cm)
             (List (markLoop (getCachedLogs cm fs) 0 id now (getCachedLogs cm fs))) fs).2,
          [unsyncedLogsChanged]).
Proof. unfold markLogSynced. apply save_then_signal. Qed.

Lemma clearSyncedLogs_unfold (fs : FileSystem) :
  clearSyncedLogs cm fs
  = if decide (m_logsCacheFile cm ∈ writeDenied fs) then (fs, [])
    else ((saveToFile (m_logsCacheFile cm)
             (List (unsyncedLoop (getCachedLogs cm fs) [])) fs).2,
          [unsyncedLogsChanged]).
Proof. unfold clearSyncedLogs. apply save_then_signal. Qed.

Lemma cacheUsers_unfold users now (fs : FileSystem) :
  cacheUsers cm users now fs
  = if decide (m_usersCacheFile cm ∈ writeDenied fs) then (fs, [])
    else ((saveToFile (m_usersCacheFile cm) (Map (usersCacheData users now)) fs).2,
          [cacheUpdated]).
Proof. unfold cacheUsers. apply save_then_signal. Qed.


(** The operations with the outcome of the write as an input: the ones
    above are those in which the write stores its bytes. *)
Lemma saveToFile_io_stored filePath data (fs : FileSystem) :
  saveToFile_io WriteStored filePath data fs = saveToFile filePath data fs.
Proof. done. Qed.

Lemma cacheLog_io_stored log now (fs : FileSystem) :
  cacheLog_io cm WriteStored log now fs = cacheLog cm log now fs.
Proof. done. Qed.

Lemma cacheUsers_io_stored users now (fs : FileSystem) :
  cacheUsers_io cm WriteStored users now fs = cacheUsers cm users now fs.
Proof. done. Qed.

Lemma saveToFile_io_denied outcome filePath data (fs : FileSystem) :
  filePath ∈ writeDenied fs → saveToFile_io outcome filePath data fs = (false, fs).
Proof. intros Hd. unfold saveToFile_io, openWriteOnly. by rewrite decide_True. Qed.

Lemma saveToFile_io_failed leftover filePath data (fs : FileSystem) :
  filePath ∉ writeDenied fs →
  saveToFile_io (WriteFailed leftover) filePath data fs =
    (true, mkFileSystem (<[filePath := leftover]> (files fs)) (readDenied fs) (writeDenied fs)).
Proof.
  intros Hd. unfold saveToFile_io, openWriteOnly, writeThenClose, writeAll.
  rewrite decide_False by done. simpl. by rewrite insert_insert_eq.
Qed.

Lemma save_io_then_signal outcome filePath data (signal : CacheSignal) (fs : FileSystem) :
  (let '(ok, fs') := saveToFile_io outcome filePath data fs in
   if ok then (fs', [signal]) else (fs', []))
  = if decide (filePath ∈ writeDenied fs) then (fs, [])
    else ((saveToFile_io outcome filePath data fs).2, [signal]).
Proof.
  case_decide as Hw.
  - by rewrite saveToFile_io_denied.
  - destruct outcome.
    + by rewrite saveToFile_io_stored, saveToFile_written.
    + by rewrite saveToFile_io_failed.
Qed.

Lemma cacheLog_io_unfold outcome log now (fs : FileSystem) :
  cacheLog_io cm outcome log now fs
  = if decide (m_logsCacheFile cm ∈ writeDenied fs) then (fs, [])
    else ((saveToFile_io outcome (m_logsCacheFile cm)
             (List (getCachedLogs cm fs ++ [Map (logWithSync log now)])) fs).2,
          [unsyncedLogsChanged]).
Proof. unfold cacheLog_io. apply save_io_then_signal. Qed.

Lemma cacheUsers_io_unfold outcome users now (fs : FileSystem) :
  cacheUsers_io cm outcome users now fs
  = if decide (m_usersCacheFile cm ∈ writeDenied fs) then (fs, [])
    else ((saveToFile_io outcome (m_usersCacheFile cm)
             (Map (usersCacheData users now)) fs).2,
          [cacheUpdated]).
Proof. unfold cacheUsers_io. apply save_io_then_signal. Qed.

(** The log file after [cacheLog], whatever the write did. *)
Lemma cacheLog_io_file outcome log now (fs : FileSystem) :
  m_logsCacheFile cm ∉ writeDenied fs →
    (cacheLog_io cm outcome log now fs).2 = [unsyncedLogsChanged]
  ∧ files (cacheLog_io cm outcome log now fs).1 !! m_logsCacheFile cm
      = Some (match outcome with
              | WriteStored =>
                  toJson (List (getCachedLogs cm fs ++ [Map (logWithSync log now)]))
              | WriteFailed leftover => leftover
              end).
Proof.
  intros Hw. rewrite cacheLog_io_unfold, decide_False by done. simpl.
  split; [done|]. destruct outcome as [|leftover].
  - rewrite saveToFile_io_stored, saveToFile_written by done. simpl.
    by rewrite lookup_insert_eq.
  - rewrite saveToFile_io_failed by done. simpl. by rewrite lookup_insert_eq.
Qed.

(** C2 (as amended).  [cacheLog] reports success exactly when the log file
    could be opened for writing, whatever the write then did.  When the
    open is refused it leaves the disk as it was and emits nothing: the
    write is not tried again, no error reaches the caller, and the event is
    in no file.  When the open is accepted it emits [unsyncedLogsChanged]
    also after a write that failed, and the file then holds what the
    failed write left and not the log with the event: the failure is
    neither retried nor surfaced. *)
Theorem cacheLog_outcome (outcome : WriteOutcome) (log : QVariantMap) (now : string)
    (fs : FileSystem) :
    (m_logsCacheFile cm ∈ writeDenied fs →
       cacheLog_io cm outcome log now fs = (fs, []))
  ∧ (m_logsCacheFile cm ∉ writeDenied fs →
       (cacheLog_io cm outcome log now fs).2 = [unsyncedLogsChanged]
     ∧ files (cacheLog_io cm outcome log now fs).1 !! m_logsCacheFile cm
         = Some (match outcome with
                 | WriteStored =>
                     toJson (List (getCachedLogs cm fs ++ [Map (logWithSync log now)]))
                 | WriteFailed leftover => leftover
                 end)).
Proof.
  split; intros Hw.
  - by rewrite cacheLog_io_unfold, decide_True.
  - by apply cacheLog_io_file.
Qed.

(** C4 (as amended).  When the log file can be opened for writing and the
    write stores its bytes, [cacheLog] has put the event into the file
    before it returns and signals: the entry is the event with [synced]
    set to [false] and [cached_at] set, every other field of the event is
    kept, and the file holds the log that was read before followed by the
    entry; read back, that is the previous log with the entry appended, in
    state [Pending].  A log that cannot be read counts as empty, so that
    the file then holds the one new entry in place of what it held.  The
    signal of success does not show any of this: after a write that failed
    it is emitted all the same, and the file holds what the write left. *)
Theorem cacheLog_persists (log : QVariantMap) (now : string) (fs : FileSystem) :
  m_logsCacheFile cm ∉ writeDenied fs →
    logWithSync log now !! "synced" = Some (Bool false)
  ∧ (∀ k, k ≠ "synced" → k ≠ "cached_at" → logWithSync log now !! k = log !! k)
  ∧ (cacheLog_io cm WriteStored log now fs).2 = [unsyncedLogsChanged]
  ∧ files (cacheLog_io cm WriteStored log now fs).1 !! m_logsCacheFile cm
      = Some (toJson (List (getCachedLogs cm fs ++ [Map (logWithSync log now)])))
  ∧ (m_logsCacheFile cm ∉ readDenied fs →
       getCachedLogs cm (cacheLog_io cm WriteStored log now fs).1
         = getCachedLogs cm fs ++ [jsonOfVariant (Map (logWithSync log now))]
     ∧ syncState (jsonOfVariant (Map (logWithSync log now))) = Pending
     ∧ (isJson (Map log) →
          getCachedLogs cm (cacheLog_io cm WriteStored log now fs).1
            = getCachedLogs cm fs ++ [Map (logWithSync log now)]))
  ∧ (m_logsCacheFile cm ∈ readDenied fs →
       files (cacheLog_io cm WriteStored log now fs).1 !! m_logsCacheFile cm
         = Some (toJson (List [Map (logWithSync log now)])))
  ∧ (∀ leftover,
       (cacheLog_io cm (WriteFailed leftover) log now fs).2 = [unsyncedLogsChanged]
     ∧ files (cacheLog_io cm (WriteFailed leftover) log now fs).1 !! m_logsCacheFile cm
         = Some leftover
     ∧ (m_logsCacheFile cm ∉ readDenied fs →
          getCachedLogs cm (cacheLog_io cm (WriteFailed leftover) log now fs).1
            = toList (fromJson leftover))).
Proof.
  intros Hw.
  destruct (cacheLog_io_file WriteStored log now fs Hw) as [Hsig Hfile].
  split_and!.
  - unfold logWithSync. rewrite lookup_insert_ne by done. by rewrite lookup_insert_eq.
  - intros k Hk1 Hk2. unfold logWithSync. by rewrite !lookup_insert_ne.
  - done.
  - done.
  - intros Hr. rewrite cacheLog_io_stored, cacheLog_unfold, decide_False by done.
    simpl.
    assert (getCachedLogs cm
              (saveToFile (m_logsCacheFile cm)
                 (List (getCachedLogs cm fs ++ [Map (logWithSync log now)])) fs).2
            = getCachedLogs cm fs ++ [jsonOfVariant (Map (logWithSync log now))]) as Hread.
    { rewrite getCachedLogs_after_save by done.
      rewrite map_app, getCachedLogs_json. done. }
    split_and!; [done| |].
    + apply syncState_logWithSync_json.
    + intros Hjson. rewrite Hread. do 2 f_equal.
      unfold isJson in Hjson. simpl in Hjson. injection Hjson as Hjson.
      simpl. unfold logWithSync. by rewrite !fmap_insert, Hjson.
  - intros Hr. rewrite Hfile. by rewrite getCachedLogs_read_denied.
  - intros leftover.
    destruct (cacheLog_io_file (WriteFailed leftover) log now fs Hw) as [Hsig' Hfile'].
    split_and!; [done|done|]. intros Hr.
    rewrite cacheLog_io_unfold, decide_False by done. simpl.
    rewrite saveToFile_io_failed by done.
    unfold getCachedLogs, loadFromFile. simpl.
    by rewrite lookup_insert_eq, decide_False.
Qed.

(** C5.  [getUnsyncedLogs] returns the stored entries whose sync state is
    not [Synced], in their stored order, each as the event it holds; for a
    log of events (maps with a sync flag, which is what the cache writes)
    that is exactly the sub-list of the stored entries that are not
    [Synced]. *)
Theorem getUnsyncedLogs_not_synced (fs : FileSystem) :
  getUnsyncedLogs cm fs
    = map asEvent (filter (λ logVar, syncState logVar ≠ Synced) (getCachedLogs cm fs))
  ∧ (Forall isEvent (getCachedLogs cm fs) →
       getUnsyncedLogs cm fs
         = filter (λ logVar, syncState logVar ≠ Synced) (getCachedLogs cm fs)).
Proof.
  assert (getUnsyncedLogs cm fs
    = map asEvent (filter (λ logVar, syncState logVar ≠ Synced) (getCachedLogs cm fs)))
    as Heq.
  { unfold getUnsyncedLogs. rewrite unsyncedLoop_filter. simpl. f_equal.
    apply list_filter_iff. intros x. symmetry. apply syncState_not_Synced. }
  split; [done|]. intros Hev. rewrite Heq.
  rewrite <-(map_id (filter _ _)) at 2. apply map_ext_Forall.
  apply Forall_forall. intros x [_ Hx]%list_elem_of_filter.
  apply asEvent_event. by eapply Forall_forall in Hev.
Qed.

(** C6 (as amended).  [cacheUsers] followed by [getCachedUsers] returns the
    list that was passed, each record as its JSON value, when the users
    file could be opened for writing, the write stored its bytes and the
    file can be opened for reading; that is the list itself exactly when
    its records are JSON values.  This covers the empty list.  In every
    other case the round trip is not what is returned: when the open for
    writing is refused, [cacheUsers] changes nothing and signals nothing
    and [getCachedUsers] returns the roster that was stored before; when
    the write fails, [cacheUsers] signals [cacheUpdated] all the same and
    [getCachedUsers] returns what the bytes left in the file hold; when the
    file cannot be opened for reading, [getCachedUsers] returns the empty
    list. *)
Theorem cacheUsers_roundtrip (outcome : WriteOutcome) (users : QVariantList)
    (now : string) (fs : FileSystem) :
    (m_usersCacheFile cm ∈ writeDenied fs →
       cacheUsers_io cm outcome users now fs = (fs, [])
     ∧ getCachedUsers cm (cacheUsers_io cm outcome users now fs).1
         = getCachedUsers cm fs)
  ∧ (m_usersCacheFile cm ∉ writeDenied fs →
       (cacheUsers_io cm outcome users now fs).2 = [cacheUpdated]
     ∧ (m_usersCacheFile cm ∈ readDenied fs →
          getCachedUsers cm (cacheUsers_io cm outcome users now fs).1 = [])
     ∧ (m_usersCacheFile cm ∉ readDenied fs →
          (outcome = WriteStored →
             getCachedUsers cm (cacheUsers_io cm outcome users now fs).1
               = map jsonOfVariant users
           ∧ (getCachedUsers cm (cacheUsers_io cm outcome users now fs).1 = users
              ↔ Forall isJson users))
        ∧ (∀ leftover, outcome = WriteFailed leftover →
             getCachedUsers cm (cacheUsers_io cm outcome users now fs).1
               = toList (subscript (toMap (fromJson leftover)) "users").1))).
Proof.
  rewrite cacheUsers_io_unfold. split; intros Hw.
  - by rewrite decide_True.
  - rewrite decide_False by done. simpl. split; [done|]. split.
    + intros Hr. unfold getCachedUsers. rewrite loadFromFile_read_denied; [done|].
      destruct outcome as [|leftover].
      * by rewrite saveToFile_io_stored, saveToFile_written.
      * by rewrite saveToFile_io_failed.
    + intros Hr. split.
      * intros ->. rewrite saveToFile_io_stored.
        assert (getCachedUsers cm
                  (saveToFile (m_usersCacheFile cm) (Map (usersCacheData users now)) fs).2
                = map jsonOfVariant users) as Heq.
        { unfold getCachedUsers. rewrite load_after_save by done. simpl.
          rewrite subscript_fst, lookup_fmap. unfold usersCacheData.
          by rewrite lookup_insert_eq. }
        split; [done|]. rewrite Heq. symmetry. apply Forall_isJson_map.
      * intros leftover ->. rewrite saveToFile_io_failed by done.
        unfold getCachedUsers, loadFromFile. simpl.
        by rewrite lookup_insert_eq, decide_False.
Qed.


End CacheProperties.

(* ===================================================================== *)
(** * The sync state of an entry along a sequence of operations *)
(* ===================================================================== *)

Lemma map_lookup {A B} (f : A → B) (l : list A) (i : nat) :
  map f l !! i = f <$> l !! i.
Proof. revert i. induction l as [|x l IH]; intros [|i]; simpl; auto. Qed.

Lemma filter_lookup_position {A} (P : A → Prop) `{∀ x, Decision (P x)}
    (l : list A) (i : nat) (x : A) :
  l !! i = Some x → P x →
  filter P l !! length (filter P (take i l)) = Some x.
Proof.
  intros Hi HP. set (n := length (filter P (take i l))).
  rewrite <-(take_drop_middle l i x Hi).
  rewrite filter_app, filter_cons_True by done.
  by rewrite list_lookup_middle.
Qed.

Section SyncStates.
Context `{QtJson}.
Variable cm : CacheManager.

Lemma allowed_refl op f : allowed op f f.
Proof. by destruct f as [[]|]. Qed.

Lemma runOp_denied op (fs : FileSystem) :
  m_logsCacheFile cm ∈ writeDenied fs → runOp cm op fs = fs.
Proof.
  intros Hw. destruct op; simpl;
    rewrite ?cacheLog_unfold, ?markLogSynced_unfold, ?clearSyncedLogs_unfold;
    by rewrite decide_True.
Qed.

Lemma stored_entry_json (fs : FileSystem) i logVar :
  getCachedLogs cm fs !! i = Some logVar → jsonOfVariant logVar = logVar.
Proof.
  intros Hi. pose proof (getCachedLogs_json cm fs) as Hj.
  apply Forall_isJson_map in Hj. eapply Forall_lookup_1 in Hj; eauto.
Qed.

Lemma stored_entry_readable (fs : FileSystem) i logVar :
  getCachedLogs cm fs !! i = Some logVar → m_logsCacheFile cm ∉ readDenied fs.
Proof.
  intros Hi Hr. by rewrite getCachedLogs_read_denied in Hi.
Qed.

Lemma sameEvent_refl logVar : sameEvent logVar logVar.
Proof. by split. Qed.

Lemma json_toMap logVar :
  jsonOfVariant logVar = logVar → jsonOfVariant <$> toMap logVar = toMap logVar.
Proof.
  destruct logVar; simpl; rewrite ?fmap_empty; try done.
  by intros [= ->].
Qed.

Lemma subscript_snd_other (m : QVariantMap) (k k' : string) :
  k' ≠ k → (subscript m k).2 !! k' = m !! k'.
Proof.
  intros Hne. unfold subscript. destruct (m !! k); simpl; [done|].
  by rewrite lookup_insert_ne.
Qed.

Lemma toString_json_default (m : QVariantMap) (k : string) :
  jsonOfVariant <$> m = m →
  toString (jsonOfVariant (default Invalid (m !! k))) = toString (default Invalid (m !! k)).
Proof.
  intros Hm. destruct (m !! k) as [v|] eqn:Hk; simpl; [|done].
  assert ((jsonOfVariant <$> m) !! k = Some v) as Hv by (by rewrite Hm).
  rewrite lookup_fmap, Hk in Hv. simpl in Hv. by injection Hv as ->.
Qed.

Lemma sameEvent_syncedLog logVar now :
  jsonOfVariant logVar = logVar →
  sameEvent logVar
    (jsonOfVariant (Map (syncedLog (subscript (toMap logVar) "id").2 now))).
Proof.
  intros Hjson%json_toMap. split.
  - unfold logId. rewrite !subscript_fst. simpl. unfold syncedLog.
    rewrite lookup_fmap, !lookup_insert_ne by done.
    rewrite subscript_snd_lookup, subscript_fst. simpl.
    by apply toString_json_default.
  - intros k Hid Hs Hat. simpl. unfold syncedLog.
    rewrite lookup_fmap, !lookup_insert_ne by done.
    rewrite subscript_snd_other by done.
    by rewrite <-lookup_fmap, Hjson.
Qed.

Lemma sameEvent_asEvent logVar :
  jsonOfVariant logVar = logVar →
  sameEvent logVar (jsonOfVariant (asEvent logVar)).
Proof.
  intros Hjson%json_toMap. split.
  - unfold logId, asEvent. rewrite !subscript_fst. simpl.
    rewrite lookup_fmap, subscript_snd_other by done.
    rewrite <-lookup_fmap, Hjson. done.
  - intros k Hid Hs Hat. unfold asEvent. simpl.
    rewrite lookup_fmap, subscript_snd_other by done.
    by rewrite <-lookup_fmap, Hjson.
Qed.

(** One operation, one entry: where [track] points, the same event is
    stored, in a sync state that the operation allows. *)
Lemma step_fate op (fs : FileSystem) i logVar :
  getCachedLogs cm fs !! i = Some logVar →
  match track cm op fs i with
  | Some j => ∃ logVar', getCachedLogs cm (runOp cm op fs) !! j = Some logVar' ∧
                sameEvent logVar logVar' ∧
                allowed op (Stored (syncState logVar)) (Stored (syncState logVar'))
  | None => op = OpClearSyncedLogs ∧ isSynced logVar = true
  end.
Proof.
  intros Hi. unfold track. case_decide as Hw.
  { rewrite runOp_denied by done. eauto using allowed_refl, sameEvent_refl. }
  pose proof (stored_entry_readable _ _ _ Hi) as Hr.
  pose proof (stored_entry_json _ _ _ Hi) as Hjson.
  destruct op as [log now|id now|]; simpl.
  - rewrite cacheLog_unfold, decide_False by done. simpl.
    rewrite getCachedLogs_after_save by done.
    rewrite map_app, getCachedLogs_json.
    exists logVar. split_and!; [|apply sameEvent_refl|apply allowed_refl].
    by apply lookup_app_l_Some.
  - rewrite markLogSynced_unfold, decide_False by done. simpl.
    rewrite getCachedLogs_after_save by done. rewrite map_lookup.
    destruct (markLoop_lookup id now _ _ _ Hi) as (e' & -> & [->| ->]); simpl.
    + exists (jsonOfVariant logVar). rewrite Hjson.
      split_and!; [done|apply sameEvent_refl|apply allowed_refl].
    + eexists. split_and!; [reflexivity|by apply sameEvent_syncedLog|].
      pose proof (isSynced_syncedLog_json (subscript (toMap logVar) "id").2 now) as Hs.
      simpl in Hs. unfold syncState at 2. rewrite Hs.
      destruct (syncState logVar); unfold allowed; eauto.
  - rewrite Hi. destruct (isSynced logVar) eqn:Es; [done|].
    rewrite clearSyncedLogs_unfold, decide_False by done. simpl.
    rewrite getCachedLogs_after_save by done.
    rewrite unsyncedLoop_filter. simpl. rewrite !map_lookup.
    unfold pendingBefore.
    rewrite (filter_lookup_position _ _ _ _ Hi Es).
    exists (jsonOfVariant (asEvent logVar)).
    split_and!; [done|by apply sameEvent_asEvent|].
    assert (isSynced (jsonOfVariant (asEvent logVar)) = false) as Hs.
    { destruct (isSynced (jsonOfVariant (asEvent logVar))) eqn:E; [|done].
      apply isSynced_json in E. by rewrite isSynced_asEvent, Es in E. }
    unfold syncState. by rewrite Hs, Es.
Qed.

Lemma fates_removed ops (fs : FileSystem) :
  lawful ops Removed (fates cm ops fs None).
Proof.
  revert fs. induction ops as [|op ops IH]; intros fs; simpl; [done|].
  split; [exact I|apply IH].
Qed.

Lemma fates_lawful ops (fs : FileSystem) i logVar :
  getCachedLogs cm fs !! i = Some logVar →
  lawful ops (Stored (syncState logVar)) (fates cm ops fs (Some i)).
Proof.
  revert fs i logVar. induction ops as [|op ops IH]; intros fs i logVar Hi; simpl.
  { done. }
  pose proof (step_fate op fs i logVar Hi) as Hstep.
  destruct (track cm op fs i) as [j|]; simpl.
  - destruct Hstep as (logVar' & Hj & _ & Hal). rewrite Hj. split; [done|].
    by apply IH.
  - destruct Hstep as [-> Hs]. unfold syncState. rewrite Hs.
    split; [done|]. apply fates_removed.
Qed.

Lemma lawful_synced ops after :
  lawful ops (Stored Synced) after ∨ lawful ops Removed after →
  Forall (λ f, f = Stored Synced ∨ f = Removed) after.
Proof.
  revert after. induction ops as [|op ops IH]; intros [|f after]; simpl.
  - intros _. constructor.
  - tauto.
  - tauto.
  - intros [[Hal Hl]|[Hal Hl]]; destruct f as [[]|]; unfold allowed in Hal;
      try done; constructor; eauto.
Qed.

(** ** The stored log is a log of events

    Every entry that an operation writes is a map with a sync flag, so a
    log of events stays one; a log that does not exist yet is one. *)

Lemma isEvent_json logVar : isEvent logVar → isEvent (jsonOfVariant logVar).
Proof.
  intros (m & -> & v & Hv). exists (jsonOfVariant <$> m). split; [done|].
  rewrite lookup_fmap, Hv. by eexists.
Qed.

Lemma isEvent_asEvent logVar : isEvent (asEvent logVar).
Proof.
  eexists. split; [reflexivity|]. rewrite subscript_snd_lookup. by eexists.
Qed.

Lemma isEvent_logWithSync log now : isEvent (Map (logWithSync log now)).
Proof.
  eexists. split; [reflexivity|]. unfold logWithSync.
  rewrite lookup_insert_ne by done. rewrite lookup_insert_eq. by eexists.
Qed.

Lemma isEvent_syncedLog log now : isEvent (Map (syncedLog log now)).
Proof.
  eexists. split; [reflexivity|]. unfold syncedLog.
  rewrite lookup_insert_ne by done. rewrite lookup_insert_eq. by eexists.
Qed.

Lemma events_absent_file (fs : FileSystem) :
  files fs !! m_logsCacheFile cm = None → getCachedLogs cm fs = [].
Proof. intros Hf. unfold getCachedLogs, loadFromFile. by rewrite Hf. Qed.

Lemma events_preserved op (fs : FileSystem) :
  Forall isEvent (getCachedLogs cm fs) →
  Forall isEvent (getCachedLogs cm (runOp cm op fs)).
Proof.
  intros Hev.
  destruct (decide (m_logsCacheFile cm ∈ writeDenied fs)) as [Hw|Hw].
  { by rewrite runOp_denied. }
  destruct (decide (m_logsCacheFile cm ∈ readDenied fs)) as [Hr|Hr].
  { rewrite getCachedLogs_read_denied; [constructor|].
    destruct op; simpl;
      rewrite ?cacheLog_unfold, ?markLogSynced_unfold, ?clearSyncedLogs_unfold;
      rewrite decide_False by done; simpl;
      by rewrite (proj1 (saveToFile_permissions _ _ _)). }
  destruct op as [log now|id now|]; simpl.
  - rewrite cacheLog_unfold, decide_False by done. simpl.
    rewrite getCachedLogs_after_save by done.
    rewrite map_app, getCachedLogs_json. apply Forall_app. split; [done|].
    repeat constructor. apply isEvent_json, isEvent_logWithSync.
  - rewrite markLogSynced_unfold, decide_False by done. simpl.
    rewrite getCachedLogs_after_save by done.
    apply Forall_lookup. intros j x. rewrite map_lookup. intros Hx.
    destruct (markLoop _ _ _ _ _ !! j) as [y|] eqn:Hy; [|done].
    injection Hx as <-. apply isEvent_json.
    assert (is_Some (getCachedLogs cm fs !! j)) as [e He].
    { apply lookup_lt_is_Some.
      rewrite <-(markLoop_length (getCachedLogs cm fs) 0 id now).
      by eapply lookup_lt_Some. }
    destruct (markLoop_lookup id now _ _ _ He) as (e' & He' & [->| ->]);
      rewrite He' in Hy; injection Hy as <-.
    + by eapply Forall_lookup_1 in Hev.
    + apply isEvent_syncedLog.
  - rewrite clearSyncedLogs_unfold, decide_False by done. simpl.
    rewrite getCachedLogs_after_save by done.
    rewrite unsyncedLoop_filter. simpl.
    apply Forall_forall. intros x Hx.
    apply list_elem_of_In, in_map_iff in Hx as (y & <- & Hy).
    apply in_map_iff in Hy as (z & <- & _).
    apply isEvent_json, isEvent_asEvent.
Qed.

Lemma events_invariant ops (fs : FileSystem) :
  Forall isEvent (getCachedLogs cm fs) →
  Forall isEvent (getCachedLogs cm (runOps cm ops fs)).
Proof.
  revert fs. induction ops as [|op ops IH]; intros fs Hev; simpl; [done|].
  by apply IH, events_preserved.
Qed.


End SyncStates.

(* ===================================================================== *)
(** * Properties of the recognition reply handling *)
(* ===================================================================== *)

Section RecognitionProperties.
Context `{QtJson}.

Lemma parseRecognizeResponse_object (responseData : QByteArray) (obj : QJsonObject) :
  fromJson responseData = Map obj →
  parseRecognizeResponse responseData =
    <["threshold" := Double (jsonToDouble (jsonValue obj "threshold"))]>
    (<["distance" := Double (jsonToDouble (jsonValue obj "distance"))]>
    (<["name" := String (jsonToString (jsonValue obj "name"))]>
    (<["user_id" := String (jsonToString (jsonValue obj "user_id"))]>
    (<["matched" := Bool (jsonToBool (jsonValue obj "matched"))]>
    (<["success" := Bool true]> ∅))))).
Proof. intros Hdoc. unfold parseRecognizeResponse. by rewrite Hdoc. Qed.

Lemma parseRecognizeResponse_malformed (responseData : QByteArray) :
  fromJson responseData = Invalid →
  parseRecognizeResponse responseData =
    <["error" := String "Invalid JSON response"]> (<["success" := Bool false]> ∅).
Proof. intros Hdoc. unfold parseRecognizeResponse. by rewrite Hdoc. Qed.

(** What [fromJson] returns is the null document, a list or a map. *)
Lemma fromJson_shape (b : QByteArray) :
  fromJson b = Invalid ∨ (∃ l, fromJson b = List l) ∨ (∃ m, fromJson b = Map m).
Proof.
  pose proof (fromJson_document b) as Hd.
  destruct (fromJson b); simpl in Hd; try discriminate; eauto.
Qed.

(** What the slot emits for a reply without error whose body is a JSON
    object. *)
Lemma onRecognizeReplyFinished_object (reply : QNetworkReply) (obj : QJsonObject) :
  replyError reply = NoError → fromJson (replyBody reply) = Map obj →
  onRecognizeReplyFinished (Some reply)
  = if jsonToBool (jsonValue obj "matched")
    then [faceRecognized (jsonToString (jsonValue obj "user_id"))
                         (jsonToString (jsonValue obj "name"))]
    else [faceRecognitionFailed].
Proof.
  intros Herr Hdoc. unfold onRecognizeReplyFinished. rewrite Herr.
  rewrite (parseRecognizeResponse_object _ _ Hdoc). simpl.
  unfold subscript. simplify_map_eq.
  destruct (jsonToBool (jsonValue obj "matched")); [|done].
  by simplify_map_eq.
Qed.

(** C7 (as amended).  A well-formed response (a JSON object, in a reply
    without error) with [matched = true] and the fields [user_id], [name],
    [distance], [threshold] is parsed into the map that carries exactly
    these values, next to [success] and [matched]; a well-formed response
    with [matched = false] is parsed into a map with [success = true],
    [matched = false] and no [error].  That map does not leave the
    service.  What the service delivers is the signal of
    [onRecognizeReplyFinished]: for the match, [faceRecognized] with the
    user id and the name, without distance and threshold, which play no
    part in what is emitted; for [matched = false],
    [faceRecognitionFailed], the signal of every error. *)
Theorem recognize_response_result (reply : QNetworkReply) (obj : QJsonObject) :
  replyError reply = NoError →
  fromJson (replyBody reply) = Map obj →
    (∀ userId name distance threshold,
       obj !! "matched" = Some (Bool true) →
       obj !! "user_id" = Some (String userId) →
       obj !! "name" = Some (String name) →
       obj !! "distance" = Some (Double distance) →
       obj !! "threshold" = Some (Double threshold) →
         parseRecognizeResponse (replyBody reply) =
           <["threshold" := Double threshold]> (<["distance" := Double distance]>
           (<["name" := String name]> (<["user_id" := String userId]>
           (<["matched" := Bool true]> (<["success" := Bool true]> ∅)))))
       ∧ onRecognizeReplyFinished (Some reply) = [faceRecognized userId name])
  ∧ (obj !! "matched" = Some (Bool false) →
       parseRecognizeResponse (replyBody reply) !! "success" = Some (Bool true)
     ∧ parseRecognizeResponse (replyBody reply) !! "matched" = Some (Bool false)
     ∧ parseRecognizeResponse (replyBody reply) !! "error" = None
     ∧ onRecognizeReplyFinished (Some reply) = [faceRecognitionFailed])
  ∧ (∀ (other : QNetworkReply) (otherObj : QJsonObject),
       replyError other = NoError → fromJson (replyBody other) = Map otherObj →
       otherObj !! "matched" = obj !! "matched" →
       otherObj !! "user_id" = obj !! "user_id" →
       otherObj !! "name" = obj !! "name" →
       onRecognizeReplyFinished (Some other) = onRecognizeReplyFinished (Some reply)).
Proof.
  intros Herr Hdoc.
  rewrite (onRecognizeReplyFinished_object reply obj Herr Hdoc).
  rewrite (parseRecognizeResponse_object _ _ Hdoc). split_and!.
  - intros userId name distance threshold Hm Hu Hn Hd Ht.
    unfold jsonValue. by rewrite Hm, Hu, Hn, Hd, Ht.
  - intros Hm. unfold jsonValue. rewrite Hm. simpl.
    split_and!; by simplify_map_eq.
  - intros other otherObj Herr' Hdoc' Hm Hu Hn.
    rewrite (onRecognizeReplyFinished_object other otherObj Herr' Hdoc').
    unfold jsonValue. by rewrite Hm, Hu, Hn.
Qed.

(** C8 (as amended).  The slot tells a match from everything else, and
    nothing more.  A reply with any error, of the transport or of HTTP,
    a reply whose body is not JSON, and a reply that says [matched = false]
    all end in the one signal [faceRecognitionFailed], which carries no
    reason; only a reply without error that says [matched = true] ends in
    [faceRecognized] with the id and the name.  The parsed result alone
    tells a body that is not JSON ([success = false] and an [error] text)
    from a response that did not match. *)
Theorem onRecognizeReplyFinished_outcomes (reply : QNetworkReply) :
    onRecognizeReplyFinished (Some reply) =
      match replyError reply with
      | NoError =>
          let obj := toMap (fromJson (replyBody reply)) in
          if jsonToBool (jsonValue obj "matched")
          then [faceRecognized (jsonToString (jsonValue obj "user_id"))
                               (jsonToString (jsonValue obj "name"))]
          else [faceRecognitionFailed]
      | _ => [faceRecognitionFailed]
      end
  ∧ (fromJson (replyBody reply) = Invalid →
       parseRecognizeResponse (replyBody reply) =
         <["error" := String "Invalid JSON response"]> (<["success" := Bool false]> ∅)).
Proof.
  split; [|apply parseRecognizeResponse_malformed].
  unfold onRecognizeReplyFinished. destruct (replyError reply); try done.
  destruct (fromJson_shape (replyBody reply)) as [Hd|[[l Hd]|[m Hd]]].
  - rewrite (parseRecognizeResponse_malformed _ Hd), Hd. simpl.
    unfold subscript. by simplify_map_eq.
  - unfold parseRecognizeResponse. rewrite Hd. simpl.
    unfold subscript, jsonValue. by simplify_map_eq.
  - rewrite (parseRecognizeResponse_object _ _ Hd), Hd. simpl.
    unfold subscript. simplify_map_eq.
    destruct (jsonToBool (jsonValue m "matched")); [|done].
    by simplify_map_eq.
Qed.

End RecognitionProperties.

(* ===================================================================== *)
(** * Properties of the camera start *)
(* ===================================================================== *)

(** No member writes [m_cameraAvailable] after the constructor. *)
Lemma cameraStep_available op s :
  m_cameraAvailable (cameraStep op s) = m_cameraAvailable s.
Proof.
  destruct op as [env| |env| | |]; simpl;
    unfold startCamera, stopCamera, captureImage, captureTimeout;
    repeat (case_match; simpl; try done); done.
Qed.

Lemma cameraStep_running op s :
  m_cameraRunning (cameraStep op s) = true →
  m_cameraRunning s = true ∨ m_cameraAvailable s = true.
Proof.
  destruct op as [env| |env| | |]; simpl;
    unfold startCamera, stopCamera, captureImage, captureTimeout;
    repeat (case_match; simpl; try done); auto;
    destruct (m_cameraAvailable s); auto.
Qed.

(** A camera that is running was available when the manager was made. *)
Lemma reachable_running_available s :
  reachable s → m_cameraRunning s = true → m_cameraAvailable s = true.
Proof.
  induction 1 as [devices|op s Hs IH]; [done|].
  intros Hr. rewrite cameraStep_available.
  destruct (cameraStep_running _ _ Hr); auto.
Qed.


(* ===================================================================== *)
(** * Closed examples, computed with the reference reader and writer *)
(* ===================================================================== *)

Definition cm0 : CacheManager := newCacheManager "/data".

Definition alice : QVariantMap :=
  <["id" := String "e1"]> (<["user_name" := String "Alice"]> (<["success" := Bool true]> ∅)).

Definition bob : QVariantMap :=
  <["id" := String "e2"]> (<["user_name" := String "Bob"]> (<["success" := Bool false]> ∅)).

Definition carol : QVariantMap :=
  <["id" := String "e3"]> (<["user_name" := String "Carol"]> (<["success" := Bool true]> ∅)).

Definition morning : string := "2024-03-01T08:00:00".
Definition noon : string := "2024-03-01T12:00:00".

(** A disk whose log holds one pending entry. *)
Definition diskWithAlice : FileSystem :=
  mkFileSystem {[ m_logsCacheFile cm0 := toJson (List [Map (logWithSync alice morning)]) ]} ∅ ∅.

(** A disk whose log holds a pending entry and a synced one. *)
Definition diskWithTwo : FileSystem :=
  mkFileSystem
    {[ m_logsCacheFile cm0 :=
         toJson (List [Map (logWithSync alice morning);
                       Map (syncedLog (logWithSync bob morning) morning)]) ]} ∅ ∅.

(** An empty disk on which the log file cannot be opened for writing. *)
Definition diskLogLocked : FileSystem :=
  mkFileSystem ∅ ∅ {[ m_logsCacheFile cm0 ]}.

Definition userAlice : QVariant :=
  Map (<["id" := String "u1"]> (<["name" := String "Alice"]> (<["position" := String "Engineer"]> ∅))).

Definition userBob : QVariant :=
  Map (<["id" := String "u2"]> (<["name" := String "Bob"]> (<["position" := String "Clerk"]> ∅))).

(** A disk with a roster of one user, on which the users file cannot be
    opened for writing. *)
Definition diskUsersLocked : FileSystem :=
  mkFileSystem
    {[ m_usersCacheFile cm0 := toJson (Map (usersCacheData [userBob] morning)) ]}
    ∅ {[ m_usersCacheFile cm0 ]}.


(** C2, counterexample.  The log file cannot be opened for writing:
    [cacheLog] returns with the disk unchanged and no signal emitted, and
    the event is neither stored nor listed as unsynced.  And on an empty
    disk where the file can be opened and the write fails with nothing
    written, [cacheLog] reports success while the event is neither stored
    nor listed as unsynced. *)
Lemma refused_write_drops_event_silently :
  cacheLog cm0 alice morning diskLogLocked = (diskLogLocked, []) ∧
  getCachedLogs cm0 (cacheLog cm0 alice morning diskLogLocked).1 = [] ∧
  getUnsyncedLogs cm0 (cacheLog cm0 alice morning diskLogLocked).1 = [] ∧
  (cacheLog_io cm0 (WriteFailed noBytes) alice morning (mkFileSystem ∅ ∅ ∅)).2
    = [unsyncedLogsChanged] ∧
  getCachedLogs cm0
    (cacheLog_io cm0 (WriteFailed noBytes) alice morning (mkFileSystem ∅ ∅ ∅)).1 = [] ∧
  getUnsyncedLogs cm0
    (cacheLog_io cm0 (WriteFailed noBytes) alice morning (mkFileSystem ∅ ∅ ∅)).1 = [].
Proof. split_and!; vm_compute; reflexivity. Qed.


Example fates_of_alice :
  fates cm0
    [OpMarkLogSynced "e1" noon; OpCacheLog carol noon; OpClearSyncedLogs;
     OpMarkLogSynced "e3" noon]
    diskWithTwo (Some 0)
  = [Stored Synced; Stored Synced; Removed; Removed].
Proof. vm_compute. reflexivity. Qed.

Example fates_of_carol :
  fates cm0 [OpClearSyncedLogs; OpMarkLogSynced "e3" noon]
    (runOps cm0 [OpMarkLogSynced "e1" noon; OpCacheLog carol noon] diskWithTwo) (Some 2)
  = [Stored Pending; Stored Synced].
Proof. vm_compute. reflexivity. Qed.

(** C4, counterexample.  The disk holds Alice's entry; the log file can be
    opened, and the write of [cacheLog] of Bob's event fails with nothing
    written.  [cacheLog] reports success, and the stored log holds neither
    Bob's event nor Alice's entry. *)
Lemma failed_write_reported_as_success :
  getCachedLogs cm0 diskWithAlice = [Map (logWithSync alice morning)] ∧
  (cacheLog_io cm0 (WriteFailed noBytes) bob noon diskWithAlice).2
    = [unsyncedLogsChanged] ∧
  getCachedLogs cm0 (cacheLog_io cm0 (WriteFailed noBytes) bob noon diskWithAlice).1 = [].
Proof. split_and!; vm_compute; reflexivity. Qed.

(** C4, witness.  Bob's event recorded on the disk that holds Alice's, the
    write storing its bytes. *)
Lemma cacheLog_persists_witness :
  (cacheLog_io cm0 WriteStored bob noon diskWithAlice).2 = [unsyncedLogsChanged] ∧
  getCachedLogs cm0 (cacheLog_io cm0 WriteStored bob noon diskWithAlice).1
    = getCachedLogs cm0 diskWithAlice ++ [Map (logWithSync bob noon)].
Proof.
  destruct (cacheLog_persists cm0 bob noon diskWithAlice)
    as (_ & _ & Hsig & _ & Hread & _).
  { apply not_elem_of_empty. }
  split; [exact Hsig|].
  destruct Hread as (_ & _ & Hjson).
  - apply not_elem_of_empty.
  - apply Hjson. vm_compute. reflexivity.
Defined.

(** C5, witness.  Of the two stored entries, the pending one is listed. *)
Lemma getUnsyncedLogs_not_synced_witness :
  Forall isEvent (getCachedLogs cm0 diskWithTwo) ∧
  getUnsyncedLogs cm0 diskWithTwo
    = filter (λ logVar, syncState logVar ≠ Synced) (getCachedLogs cm0 diskWithTwo).
Proof.
  assert (Forall isEvent (getCachedLogs cm0 diskWithTwo)) as Hev.
  { assert (getCachedLogs cm0 diskWithTwo
            = [Map (logWithSync alice morning);
               Map (syncedLog (logWithSync bob morning) morning)]) as ->
      by (vm_compute; reflexivity).
    repeat constructor; eexists; (split; [reflexivity|]); vm_compute; eauto. }
  split; [exact Hev|].
  exact (proj2 (getUnsyncedLogs_not_synced cm0 diskWithTwo) Hev).
Defined.

Example getUnsyncedLogs_example :
  getUnsyncedLogs cm0 diskWithTwo = [Map (logWithSync alice morning)].
Proof. vm_compute. reflexivity. Qed.

(** A user record one of whose fields holds an invalid variant, which JSON
    has no value for, and what it is stored as. *)
Definition userWithInvalid : QVariant :=
  Map (<["id" := String "u3"]> (<["badge" := Invalid]> ∅)).

Definition userWithNull : QVariant :=
  Map (<["id" := String "u3"]> (<["badge" := Null]> ∅)).

(** An empty disk on which the users file cannot be opened for reading. *)
Definition diskUsersUnreadable : FileSystem :=
  mkFileSystem ∅ {[ m_usersCacheFile cm0 ]} ∅.

(** C6, counterexample.  Four calls of [cacheUsers] after which
    [getCachedUsers] does not return the list that was passed.  The users
    file cannot be opened for writing: nothing is signalled, and the roster
    with Bob that was stored before is returned.  The write fails with
    nothing written: [cacheUpdated] is signalled, and the empty list is
    returned.  The file cannot be opened for reading: [cacheUpdated] is
    signalled, and the empty list is returned.  A record holds an invalid
    variant: it is returned with a null in its place. *)
Lemma cacheUsers_roundtrip_failures :
    ((cacheUsers_io cm0 WriteStored [userAlice] noon diskUsersLocked).2 = []
     ∧ getCachedUsers cm0 (cacheUsers_io cm0 WriteStored [userAlice] noon diskUsersLocked).1
         = [userBob]
     ∧ [userBob] ≠ [userAlice])
  ∧ ((cacheUsers_io cm0 (WriteFailed noBytes) [userAlice] noon (mkFileSystem ∅ ∅ ∅)).2
       = [cacheUpdated]
     ∧ getCachedUsers cm0
         (cacheUsers_io cm0 (WriteFailed noBytes) [userAlice] noon (mkFileSystem ∅ ∅ ∅)).1
         = [])
  ∧ ((cacheUsers_io cm0 WriteStored [userAlice] noon diskUsersUnreadable).2 = [cacheUpdated]
     ∧ getCachedUsers cm0
         (cacheUsers_io cm0 WriteStored [userAlice] noon diskUsersUnreadable).1 = [])
  ∧ (getCachedUsers cm0
       (cacheUsers_io cm0 WriteStored [userWithInvalid] noon (mkFileSystem ∅ ∅ ∅)).1
       = [userWithNull]
     ∧ [userWithNull] ≠ [userWithInvalid]).
Proof.
  split_and!; try (vm_compute; reflexivity); vm_compute; discriminate.
Qed.

(** C6, witness.  The roster with Alice and Bob on an empty disk, the write
    storing its bytes. *)
Lemma cacheUsers_roundtrip_witness :
  getCachedUsers cm0
    (cacheUsers_io cm0 WriteStored [userAlice; userBob] noon (mkFileSystem ∅ ∅ ∅)).1
  = [userAlice; userBob].
Proof.
  destruct (cacheUsers_roundtrip cm0 WriteStored [userAlice; userBob] noon
              (mkFileSystem ∅ ∅ ∅)) as [_ Hwritten].
  destruct Hwritten as (_ & _ & Hread); [apply not_elem_of_empty|].
  destruct Hread as [Hstored _]; [apply not_elem_of_empty|].
  destruct (Hstored eq_refl) as [_ Hiff].
  apply Hiff. repeat constructor; vm_compute; reflexivity.
Defined.

Example cacheUsers_roundtrip_empty :
  getCachedUsers cm0 (cacheUsers cm0 [] noon (mkFileSystem ∅ ∅ ∅)).1 = [].
Proof. vm_compute. reflexivity. Qed.


(** The response of the scenario:
    [{matched: true, user_id: "u1", name: "Alice", distance: 0.3, threshold: 0.5}]. *)
Definition matchedObject : QJsonObject :=
  <["matched" := Bool true]> (<["user_id" := String "u1"]> (<["name" := String "Alice"]>
  (<["distance" := Double 0.3]> (<["threshold" := Double 0.5]> ∅)))).

Definition notMatchedObject : QJsonObject :=
  <["matched" := Bool false]> (<["user_id" := String ""]> (<["name" := String ""]>
  (<["distance" := Double 0.9]> (<["threshold" := Double 0.5]> ∅)))).

Definition replyMatched : QNetworkReply :=
  mkReply NoError 200 (toJson (Map matchedObject)).

(** C7, witness.  The scenario of the specification: the parsed map holds
    the four values, the signal holds the id and the name. *)
Lemma recognize_response_result_witness :
  parseRecognizeResponse (replyBody replyMatched) =
    <["threshold" := Double 0.5]> (<["distance" := Double 0.3]>
    (<["name" := String "Alice"]> (<["user_id" := String "u1"]>
    (<["matched" := Bool true]> (<["success" := Bool true]> ∅)))))
  ∧ onRecognizeReplyFinished (Some replyMatched) = [faceRecognized "u1" "Alice"].
Proof.
  assert (fromJson (replyBody replyMatched) = Map matchedObject) as Hdoc
    by (vm_compute; reflexivity).
  apply (proj1 (recognize_response_result replyMatched matchedObject eq_refl Hdoc)
           "u1" "Alice"); vm_compute; reflexivity.
Defined.

Example parseRecognizeResponse_not_matched :
  parseRecognizeResponse (toJson (Map notMatchedObject)) !! "success" = Some (Bool true) ∧
  parseRecognizeResponse (toJson (Map notMatchedObject)) !! "matched" = Some (Bool false) ∧
  parseRecognizeResponse (toJson (Map notMatchedObject)) !! "error" = None.
Proof. split_and!; vm_compute; reflexivity. Qed.

(** Four replies: the connection was refused; the server answered 500; the
    body is not JSON; the server found no match. *)
Definition replyRefused : QNetworkReply := mkReply ConnectionRefusedError 0 noBytes.
Definition replyServerError : QNetworkReply :=
  mkReply InternalServerError 500 (toJson (Map ∅)).
Definition replyMalformed : QNetworkReply := mkReply NoError 200 noBytes.
Definition replyNotMatched : QNetworkReply :=
  mkReply NoError 200 (toJson (Map notMatchedObject)).

(** C8, counterexample.  The four replies end in the same signal, which has
    no argument: a transport failure, an HTTP failure, a malformed body and
    a response without match cannot be told apart. *)
Lemma recognize_failures_indistinguishable :
  onRecognizeReplyFinished (Some replyRefused) = [faceRecognitionFailed] ∧
  onRecognizeReplyFinished (Some replyServerError) = [faceRecognitionFailed] ∧
  onRecognizeReplyFinished (Some replyMalformed) = [faceRecognitionFailed] ∧
  onRecognizeReplyFinished (Some replyNotMatched) = [faceRecognitionFailed].
Proof. split_and!; vm_compute; reflexivity. Qed.

Example recognize_match_signal :
  onRecognizeReplyFinished (Some (mkReply NoError 200 (toJson (Map matchedObject))))
  = [faceRecognized "u1" "Alice"].
Proof. vm_compute. reflexivity. Qed.

(** The response of the scenario with another distance and another
    threshold. *)
Definition matchedFarObject : QJsonObject :=
  <["matched" := Bool true]> (<["user_id" := String "u1"]> (<["name" := String "Alice"]>
  (<["distance" := Double 0.49]> (<["threshold" := Double 0.6]> ∅)))).

(** C7, counterexample.  The response of the scenario and a response with
    another distance and threshold are parsed into different maps, but
    what the service delivers for them is the same signal, which holds no
    distance and no threshold; and the response without match is delivered
    as the signal that a refused connection is delivered as. *)
Lemma recognize_signal_drops_distance :
  parseRecognizeResponse (toJson (Map matchedObject))
    ≠ parseRecognizeResponse (toJson (Map matchedFarObject)) ∧
  onRecognizeReplyFinished (Some (mkReply NoError 200 (toJson (Map matchedObject))))
    = [faceRecognized "u1" "Alice"] ∧
  onRecognizeReplyFinished (Some (mkReply NoError 200 (toJson (Map matchedFarObject))))
    = [faceRecognized "u1" "Alice"] ∧
  onRecognizeReplyFinished (Some (mkReply NoError 200 (toJson (Map notMatchedObject))))
    = onRecognizeReplyFinished (Some (mkReply ConnectionRefusedError 0 noBytes)).
Proof.
  split_and!; try (vm_compute; reflexivity).
  intros Heq.
  assert (parseRecognizeResponse (toJson (Map matchedObject)) !! "distance"
          = parseRecognizeResponse (toJson (Map matchedFarObject)) !! "distance") as Hd
    by (by rewrite Heq).
  vm_compute in Hd. discriminate.
Qed.

(** A manager made with one camera present, then started. *)
Definition platformOk : StartEnv := mkStartEnv ["Integrated Camera"] None.
Definition platformNoCamera : StartEnv := mkStartEnv [] None.

Definition runningCamera : CameraManager :=
  cameraStep (CallStartCamera platformOk) (newCameraManager ["Integrated Camera"]).


Example startCamera_no_camera_at_construction :
  startCamera platformOk (newCameraManager [])
  = (false, newCameraManager [], [cameraError "Camera not available"]).
Proof. reflexivity. Qed.

Example startCamera_camera_removed :
  startCamera platformNoCamera (newCameraManager ["Integrated Camera"])
  = (false, newCameraManager ["Integrated Camera"], [cameraError "No camera found"]).
Proof. reflexivity. Qed.

(* ===================================================================== *)
(** * Further properties of the cache *)
(* ===================================================================== *)

Lemma string_app_inv_head (s a b : string) : s +:+ a = s +:+ b → a = b.
Proof. induction s as [|c s IH]; simpl; [done|]. intros [= Heq]. auto. Qed.

(** The two files of a manager made by the constructor are different
    files. *)
Lemma newCacheManager_files_differ (appDataLocation : string) :
  m_usersCacheFile (newCacheManager appDataLocation)
  ≠ m_logsCacheFile (newCacheManager appDataLocation).
Proof. simpl. intros Heq%string_app_inv_head. discriminate. Qed.

Lemma filter_insert_length {A} (P : A → Prop) `{∀ x, Decision (P x)}
    (l : list A) (i : nat) (x y : A) :
  l !! i = Some x → P x → ¬ P y →
  S (length (filter P (<[i := y]> l))) = length (filter P l).
Proof.
  intros Hi HPx HPy.
  rewrite <-(take_drop_middle l i x Hi) at 2.
  rewrite (insert_take_drop l i y) by (by eapply lookup_lt_Some).
  rewrite !filter_app.
  rewrite (filter_cons_True P x), (filter_cons_False P y) by done.
  rewrite !length_app. simpl. lia.
Qed.

Lemma filter_insert_same {A} (P : A → Prop) `{∀ x, Decision (P x)}
    (l : list A) (i : nat) (x y : A) :
  l !! i = Some x → ¬ P x → ¬ P y →
  filter P (<[i := y]> l) = filter P l.
Proof.
  intros Hi HPx HPy.
  rewrite <-(take_drop_middle l i x Hi) at 2.
  rewrite (insert_take_drop l i y) by (by eapply lookup_lt_Some).
  rewrite !filter_app.
  by rewrite (filter_cons_False P x), (filter_cons_False P y) by done.
Qed.

Section CacheComposition.
Context `{QtJson}.
Variable cm : CacheManager.

Lemma asEvent_json_event logVar :
  isEvent logVar → asEvent (jsonOfVariant logVar) = jsonOfVariant logVar.
Proof. intros Hev. by apply asEvent_event, isEvent_json. Qed.

Lemma getCachedLogs_all_json (fs : FileSystem) :
  Forall isJson (getCachedLogs cm fs).
Proof. apply Forall_isJson_map, getCachedLogs_json. Qed.

Lemma isSynced_json_false logVar :
  isSynced logVar = false → isSynced (jsonOfVariant logVar) = false.
Proof.
  intros Hs. destruct (isSynced (jsonOfVariant logVar)) eqn:E; [|done].
  apply isSynced_json in E. congruence.
Qed.

(** The unsynced entries of a log of events, read directly. *)
Lemma getUnsyncedLogs_events (fs : FileSystem) :
  Forall isEvent (getCachedLogs cm fs) →
  getUnsyncedLogs cm fs
    = filter (λ logVar, isSynced logVar = false) (getCachedLogs cm fs).
Proof.
  intros Hev. unfold getUnsyncedLogs. rewrite unsyncedLoop_filter. simpl.
  rewrite <-(map_id (filter _ _)) at 2. apply map_ext_Forall.
  apply Forall_forall. intros x [_ Hx]%list_elem_of_filter.
  apply asEvent_event. by eapply Forall_forall in Hev.
Qed.

(** What [clearSyncedLogs] stores, when it can write and read. *)
Lemma clearSyncedLogs_stored (fs : FileSystem) :
  m_logsCacheFile cm ∉ writeDenied fs →
  m_logsCacheFile cm ∉ readDenied fs →
  getCachedLogs cm (clearSyncedLogs cm fs).1
    = map jsonOfVariant (getUnsyncedLogs cm fs).
Proof.
  intros Hw Hr. rewrite clearSyncedLogs_unfold, decide_False by done. simpl.
  by rewrite getCachedLogs_after_save.
Qed.

Lemma getUnsyncedLogs_pending (fs : FileSystem) :
  Forall (λ logVar, isSynced logVar = false) (getUnsyncedLogs cm fs).
Proof.
  unfold getUnsyncedLogs. rewrite unsyncedLoop_filter. simpl.
  apply Forall_forall. intros x Hx.
  apply list_elem_of_In, in_map_iff in Hx as (y & <- & Hy).
  apply list_elem_of_In, list_elem_of_filter in Hy as [Hy _].
  by rewrite isSynced_asEvent.
Qed.

Lemma getUnsyncedLogs_are_events (fs : FileSystem) :
  Forall isEvent (getUnsyncedLogs cm fs).
Proof.
  unfold getUnsyncedLogs. rewrite unsyncedLoop_filter. simpl.
  apply Forall_forall. intros x Hx.
  apply list_elem_of_In, in_map_iff in Hx as (y & <- & Hy).
  apply isEvent_asEvent.
Qed.

(** X1.  When the log file can be written and read, [clearSyncedLogs]
    leaves exactly the entries that [getUnsyncedLogs] listed before, in
    their order and all [Pending]; for a log of events the stored log is
    that list itself, and the list of unsynced entries is what it was:
    no pending event is lost by the clearing. *)
Theorem clearSyncedLogs_keeps_unsynced (fs : FileSystem) :
  m_logsCacheFile cm ∉ writeDenied fs →
  m_logsCacheFile cm ∉ readDenied fs →
    getCachedLogs cm (clearSyncedLogs cm fs).1
      = map jsonOfVariant (getUnsyncedLogs cm fs)
  ∧ Forall (λ logVar, syncState logVar = Pending)
      (getCachedLogs cm (clearSyncedLogs cm fs).1)
  ∧ (Forall isEvent (getCachedLogs cm fs) →
       getCachedLogs cm (clearSyncedLogs cm fs).1 = getUnsyncedLogs cm fs
     ∧ getUnsyncedLogs cm (clearSyncedLogs cm fs).1 = getUnsyncedLogs cm fs).
Proof.
  intros Hw Hr. pose proof (clearSyncedLogs_stored fs Hw Hr) as Hst.
  assert (Forall (λ logVar, isSynced logVar = false)
            (getCachedLogs cm (clearSyncedLogs cm fs).1)) as Hpend.
  { rewrite Hst. apply Forall_forall. intros x Hx.
    apply list_elem_of_In, in_map_iff in Hx as (y & <- & Hy).
    apply isSynced_json_false.
    pose proof (getUnsyncedLogs_pending fs) as Hp.
    eapply Forall_forall in Hp; [done|]. by apply list_elem_of_In. }
  split_and!; [done| |].
  - eapply Forall_impl; [exact Hpend|]. intros x Hx. unfold syncState. by rewrite Hx.
  - intros Hev.
    assert (getCachedLogs cm (clearSyncedLogs cm fs).1 = getUnsyncedLogs cm fs) as Heq.
    { rewrite Hst, getUnsyncedLogs_events by done.
      apply Forall_isJson_map, Forall_forall.
      intros x [_ Hx]%list_elem_of_filter.
      pose proof (getCachedLogs_all_json fs) as Hj.
      by eapply Forall_forall in Hj. }
    split; [done|].
    rewrite getUnsyncedLogs_events.
    + rewrite Heq, getUnsyncedLogs_events by done.
      by rewrite list_filter_filter_l.
    + rewrite Heq. apply getUnsyncedLogs_are_events.
Qed.

Lemma filter_all {A} (P : A → Prop) `{∀ x, Decision (P x)} (l : list A) :
  Forall P l → filter P l = l.
Proof.
  induction 1 as [|x l Hx Hl IH]; [done|].
  by rewrite filter_cons_True, IH.
Qed.

Lemma clearSyncedLogs_permissions (fs : FileSystem) :
  readDenied (clearSyncedLogs cm fs).1 = readDenied fs ∧
  writeDenied (clearSyncedLogs cm fs).1 = writeDenied fs.
Proof.
  rewrite clearSyncedLogs_unfold. case_decide; [done|]. simpl.
  apply saveToFile_permissions.
Qed.


(** X3.  When the log file can be opened for writing and for reading and
    the write stores its bytes, after [cacheLog] the event is the last
    entry of [getUnsyncedLogs], after the entries that were listed before;
    the count of unsynced entries has grown by one and [hasUnsyncedLogs]
    holds. *)
Theorem cacheLog_listed_unsynced (log : QVariantMap) (now : string) (fs : FileSystem) :
  m_logsCacheFile cm ∉ writeDenied fs →
  m_logsCacheFile cm ∉ readDenied fs →
    getUnsyncedLogs cm (cacheLog_io cm WriteStored log now fs).1
      = getUnsyncedLogs cm fs ++ [jsonOfVariant (Map (logWithSync log now))]
  ∧ getUnsyncedLogsCount cm (cacheLog_io cm WriteStored log now fs).1
      = S (getUnsyncedLogsCount cm fs)
  ∧ hasUnsyncedLogs cm (cacheLog_io cm WriteStored log now fs).1 = true.
Proof.
  intros Hw Hr. rewrite cacheLog_io_stored, cacheLog_unfold, decide_False by done.
  simpl.
  assert (getUnsyncedLogs cm
            (saveToFile (m_logsCacheFile cm)
               (List (getCachedLogs cm fs ++ [Map (logWithSync log now)])) fs).2
          = getUnsyncedLogs cm fs ++ [jsonOfVariant (Map (logWithSync log now))]) as Heq.
  { unfold getUnsyncedLogs at 1. rewrite getCachedLogs_after_save by done.
    rewrite map_app, getCachedLogs_json, unsyncedLoop_filter. simpl.
    rewrite filter_app, map_app. unfold getUnsyncedLogs.
    rewrite unsyncedLoop_filter. simpl. f_equal.
    pose proof (isSynced_json_false _ (isSynced_logWithSync log now)) as Hs.
    change (map jsonOfVariant [Map (logWithSync log now)])
      with [jsonOfVariant (Map (logWithSync log now))].
    rewrite filter_cons_True by done. rewrite filter_nil. simpl. f_equal.
    apply (asEvent_json_event (Map (logWithSync log now))), isEvent_logWithSync. }
  split_and!; [done| |].
  - unfold getUnsyncedLogsCount. rewrite Heq, length_app. simpl. lia.
  - unfold hasUnsyncedLogs. rewrite Heq, length_app. simpl.
    rewrite bool_decide_eq_false_2; [done|lia].
Qed.

(** ** [markLogSynced] and the first entry with the id *)

Lemma markLoop_first_from rest (k i : nat) id now (logs : QVariantList) e :
  rest = drop k logs → (k ≤ i)%nat →
  logs !! i = Some e → logId e = id →
  Forall (λ logVar, logId logVar ≠ id) (take (i - k) rest) →
  markLoop rest k id now logs
    = <[i := Map (syncedLog (subscript (toMap e) "id").2 now)]> logs.
Proof.
  revert k. induction rest as [|logVar rest IH]; intros k Hrest Hk Hi Hid Hne.
  - exfalso. apply lookup_lt_Some in Hi.
    assert (length (drop k logs) = 0) as Hlen by (by rewrite <-Hrest).
    rewrite length_drop in Hlen. lia.
  - assert (logs !! k = Some logVar) as Hlk.
    { rewrite <-(Nat.add_0_r k), <-lookup_drop, <-Hrest. done. }
    assert (rest = drop (S k) logs) as Hrest'.
    { rewrite (drop_S _ _ _ Hlk) in Hrest. congruence. }
    simpl. destruct (subscript (toMap logVar) "id") as [idv log] eqn:E.
    destruct (decide (k = i)) as [->|Hki].
    + assert (logVar = e) as -> by congruence.
      unfold logId in Hid. rewrite E in Hid. simpl in Hid.
      apply String.eqb_eq in Hid. rewrite Hid, E. done.
    + replace (i - k) with (S (i - S k)) in Hne by lia.
      simpl in Hne. apply Forall_cons in Hne as [Hx Hne'].
      unfold logId in Hx. rewrite E in Hx. simpl in Hx.
      apply String.eqb_neq in Hx. rewrite Hx.
      apply IH; [done|lia|done|done|done].
Qed.

Lemma markLoop_first i id now (logs : QVariantList) e :
  logs !! i = Some e → logId e = id →
  Forall (λ logVar, logId logVar ≠ id) (take i logs) →
  markLoop logs 0 id now logs
    = <[i := Map (syncedLog (subscript (toMap e) "id").2 now)]> logs.
Proof.
  intros Hi Hid Hne. apply (markLoop_first_from logs 0 i); try done; [lia|].
  by rewrite Nat.sub_0_r.
Qed.

Lemma map_insert {A B} (f : A → B) (l : list A) (i : nat) (x : A) :
  map f (<[i := x]> l) = <[i := f x]> (map f l).
Proof. revert i. induction l as [|y l IH]; intros [|i]; simpl; f_equal; auto. Qed.

(** The stored log after [markLogSynced], when the first entry with the id
    is at position [i]. *)
Lemma markLogSynced_stored (id now : string) (fs : FileSystem) i e :
  m_logsCacheFile cm ∉ writeDenied fs →
  getCachedLogs cm fs !! i = Some e → logId e = id →
  Forall (λ logVar, logId logVar ≠ id) (take i (getCachedLogs cm fs)) →
  getCachedLogs cm (markLogSynced cm id now fs).1
    = <[i := jsonOfVariant (Map (syncedLog (subscript (toMap e) "id").2 now))]>
        (getCachedLogs cm fs).
Proof.
  intros Hw Hi Hid Hne.
  pose proof (stored_entry_readable cm _ _ _ Hi) as Hr.
  rewrite markLogSynced_unfold, decide_False by done. simpl.
  rewrite getCachedLogs_after_save by done.
  rewrite (markLoop_first i id now _ e) by done.
  by rewrite map_insert, getCachedLogs_json.
Qed.

(** X4.  When the log file can be written, [markLogSynced] marks the first
    stored entry that has the id, and only that one: it is [Synced]
    afterwards and is the same event, and every other entry, also a later
    one with the same id, is stored as it was. *)
Theorem markLogSynced_marks_first (id now : string) (fs : FileSystem)
    (i : nat) (logVar : QVariant) :
  m_logsCacheFile cm ∉ writeDenied fs →
  getCachedLogs cm fs !! i = Some logVar → logId logVar = id →
  Forall (λ earlier, logId earlier ≠ id) (take i (getCachedLogs cm fs)) →
  (∃ marked,
      getCachedLogs cm (markLogSynced cm id now fs).1 !! i = Some marked
    ∧ syncState marked = Synced
    ∧ toMap marked !! "synced_at" = Some (String now)
    ∧ sameEvent logVar marked)
  ∧ (∀ j, j ≠ i →
       getCachedLogs cm (markLogSynced cm id now fs).1 !! j
         = getCachedLogs cm fs !! j).
Proof.
  intros Hw Hi Hid Hne.
  rewrite (markLogSynced_stored id now fs i logVar) by done.
  split.
  - eexists. split_and!.
    + apply list_lookup_insert_eq. by eapply lookup_lt_Some.
    + unfold syncState.
      by rewrite (isSynced_syncedLog_json (subscript (toMap logVar) "id").2 now).
    + simpl. unfold syncedLog. by rewrite lookup_fmap, lookup_insert_eq.
    + apply sameEvent_syncedLog. by eapply stored_entry_json.
  - intros j Hj. by rewrite list_lookup_insert_ne.
Qed.

(** X5.  On a log of events that can be written, [markLogSynced] of an id
    whose first entry is [Pending] lowers the count of unsynced entries by
    exactly one; when that first entry is already [Synced] the list of
    unsynced entries is unchanged, even if a later entry with the same id
    is [Pending]. *)
Theorem markLogSynced_unsynced_count (id now : string) (fs : FileSystem)
    (i : nat) (logVar : QVariant) :
  m_logsCacheFile cm ∉ writeDenied fs →
  Forall isEvent (getCachedLogs cm fs) →
  getCachedLogs cm fs !! i = Some logVar → logId logVar = id →
  Forall (λ earlier, logId earlier ≠ id) (take i (getCachedLogs cm fs)) →
    (syncState logVar = Pending →
       S (getUnsyncedLogsCount cm (markLogSynced cm id now fs).1)
         = getUnsyncedLogsCount cm fs)
  ∧ (syncState logVar = Synced →
       getUnsyncedLogs cm (markLogSynced cm id now fs).1 = getUnsyncedLogs cm fs).
Proof.
  intros Hw Hev Hi Hid Hne.
  pose proof (markLogSynced_stored id now fs i logVar Hw Hi Hid Hne) as Hst.
  pose proof (events_preserved cm (OpMarkLogSynced id now) fs Hev) as Hev'.
  simpl in Hev'.
  assert (isSynced (jsonOfVariant (Map (syncedLog (subscript (toMap logVar) "id").2 now)))
          ≠ false) as Hmarked.
  { by rewrite (isSynced_syncedLog_json (subscript (toMap logVar) "id").2 now). }
  unfold getUnsyncedLogsCount.
  rewrite (getUnsyncedLogs_events _ Hev'), (getUnsyncedLogs_events _ Hev), Hst.
  unfold syncState. split; destruct (isSynced logVar) eqn:Es; try done; intros _.
  - by apply (filter_insert_length _ _ _ logVar).
  - apply (filter_insert_same _ _ _ logVar); [done| |done]. by rewrite Es.
Qed.

End CacheComposition.

Section CacheLookupProperties.
Context `{QtJson}.
Variable cm : CacheManager.

Lemma findUserLoop_absent users userId :
  Forall (λ userVar, logId userVar ≠ userId) users →
  findUserLoop users userId = ∅.
Proof.
  induction 1 as [|userVar rest Hx _ IH]; simpl; [done|].
  destruct (subscript (toMap userVar) "id") as [idv user] eqn:E.
  unfold logId in Hx. rewrite E in Hx. simpl in Hx.
  apply String.eqb_neq in Hx. by rewrite Hx.
Qed.

Lemma findUserLoop_first users (i : nat) userVar userId :
  users !! i = Some userVar → logId userVar = userId →
  Forall (λ earlier, logId earlier ≠ userId) (take i users) →
  findUserLoop users userId = (subscript (toMap userVar) "id").2.
Proof.
  revert i. induction users as [|x rest IH]; intros i Hi Hid Hne; [done|].
  simpl. destruct (subscript (toMap x) "id") as [idv user] eqn:E.
  destruct i as [|i]; simpl in *.
  - injection Hi as ->. unfold logId in Hid. rewrite E in Hid. simpl in Hid.
    apply String.eqb_eq in Hid. by rewrite Hid, E.
  - apply Forall_cons in Hne as [Hx Hne'].
    unfold logId in Hx. rewrite E in Hx. simpl in Hx.
    apply String.eqb_neq in Hx. rewrite Hx. by eapply IH.
Qed.

(** X6.  [getCachedUserById] returns the empty map when no cached user has
    the id (also when there is no users file): that is not an error.
    Otherwise it returns the first cached user with the id, and for a user
    record that is a map with an [id] field it returns that record
    unchanged. *)
Theorem getCachedUserById_result (userId : string) (fs : FileSystem) :
    (Forall (λ userVar, logId userVar ≠ userId) (getCachedUsers cm fs) →
       getCachedUserById cm userId fs = ∅)
  ∧ (∀ (i : nat) userVar,
       getCachedUsers cm fs !! i = Some userVar → logId userVar = userId →
       Forall (λ earlier, logId earlier ≠ userId) (take i (getCachedUsers cm fs)) →
         getCachedUserById cm userId fs = (subscript (toMap userVar) "id").2
       ∧ (∀ user, userVar = Map user → is_Some (user !! "id") →
            getCachedUserById cm userId fs = user)).
Proof.
  unfold getCachedUserById. split.
  - apply findUserLoop_absent.
  - intros i userVar Hi Hid Hne.
    rewrite (findUserLoop_first _ i userVar) by done. split; [done|].
    intros user -> Hsome. simpl. by apply subscript_present.
Qed.

(** ** The roster and the log are separate files *)

Lemma loadFromFile_after_save_other filePath other data (fs : FileSystem) :
  other ≠ filePath →
  loadFromFile other (saveToFile filePath data fs).2 = loadFromFile other fs.
Proof.
  intros Hne. unfold loadFromFile.
  destruct (saveToFile_permissions filePath data fs) as [-> _].
  rewrite saveToFile_complete, saveToFile_stopped_other by done. done.
Qed.

Lemma runOp_saves op (fs : FileSystem) :
  runOp cm op fs = fs ∨
  ∃ data, runOp cm op fs = (saveToFile (m_logsCacheFile cm) data fs).2.
Proof.
  destruct op; simpl;
    rewrite ?cacheLog_unfold, ?markLogSynced_unfold, ?clearSyncedLogs_unfold;
    case_decide; simpl; eauto.
Qed.

End CacheLookupProperties.

(** X7.  For a manager made by the constructor the roster and the log do
    not touch each other: [cacheUsers] leaves the stored log as it was, and
    every sequence of [cacheLog], [markLogSynced] and [clearSyncedLogs]
    leaves the cached roster as it was. *)
Theorem roster_and_log_independent `{QtJson} (appDataLocation : string)
    (fs : FileSystem) :
  let cm := newCacheManager appDataLocation in
    (∀ users now, getCachedLogs cm (cacheUsers cm users now fs).1 = getCachedLogs cm fs)
  ∧ (∀ ops, getCachedUsers cm (runOps cm ops fs) = getCachedUsers cm fs).
Proof.
  intros cm. pose proof (newCacheManager_files_differ appDataLocation) as Hne.
  split.
  - intros users now. rewrite cacheUsers_unfold. case_decide; [done|]. simpl.
    unfold getCachedLogs. by rewrite loadFromFile_after_save_other.
  - intros ops. revert fs. induction ops as [|op ops IH]; intros fs; simpl; [done|].
    rewrite IH. unfold getCachedUsers.
    destruct (runOp_saves cm op fs) as [->|[data ->]]; [done|].
    by rewrite loadFromFile_after_save_other.
Qed.

Section CacheClearing.
Context `{QtJson}.
Variable cm : CacheManager.

Lemma loadFromFile_removed filePath (fs : FileSystem) :
  loadFromFile filePath (removeFile filePath fs) = Invalid.
Proof. unfold loadFromFile, removeFile. simpl. by rewrite lookup_delete_eq. Qed.

Lemma loadFromFile_removed_other filePath other (fs : FileSystem) :
  other ≠ filePath →
  loadFromFile other (removeFile filePath fs) = loadFromFile other fs.
Proof.
  intros Hne. unfold loadFromFile, removeFile. simpl.
  by rewrite lookup_delete_ne.
Qed.

(** X8.  Taking [QFile::remove] to succeed (the source does not test its
    result): after [clearUserCache] no user is cached, and a log in another
    file is stored as before; after [clearAllCache] no user and no log
    entry is stored, unsynced entries included, and [isCacheValid] is
    false. *)
Theorem clearing_the_cache (fs : FileSystem) :
    getCachedUsers cm (clearUserCache cm fs).1 = []
  ∧ hasCachedUsers cm (clearUserCache cm fs).1 = false
  ∧ (m_logsCacheFile cm ≠ m_usersCacheFile cm →
       getCachedLogs cm (clearUserCache cm fs).1 = getCachedLogs cm fs)
  ∧ getCachedUsers cm (clearAllCache cm fs).1 = []
  ∧ getCachedLogs cm (clearAllCache cm fs).1 = []
  ∧ getUnsyncedLogs cm (clearAllCache cm fs).1 = []
  ∧ isCacheValid cm (clearAllCache cm fs).1 = false.
Proof.
  assert (getCachedUsers cm (clearUserCache cm fs).1 = []) as Hu.
  { unfold getCachedUsers, clearUserCache. simpl. by rewrite loadFromFile_removed. }
  assert (getCachedLogs cm (clearAllCache cm fs).1 = []) as Hl.
  { unfold getCachedLogs, clearAllCache, clearUserCache. simpl.
    by rewrite loadFromFile_removed. }
  split_and!; try done.
  - unfold hasCachedUsers. by rewrite Hu.
  - intros Hne. unfold getCachedLogs, clearUserCache. simpl.
    by rewrite loadFromFile_removed_other.
  - unfold getCachedUsers, clearAllCache, clearUserCache, loadFromFile, removeFile.
    simpl. destruct (decide (m_usersCacheFile cm = m_logsCacheFile cm)) as [->|Hne].
    + by rewrite lookup_delete_eq.
    + by rewrite lookup_delete_ne, lookup_delete_eq.
  - unfold getUnsyncedLogs. by rewrite Hl.
  - unfold isCacheValid, fileExists, clearAllCache, clearUserCache, removeFile. simpl.
    rewrite andb_false_iff. right. apply bool_decide_eq_false_2.
    rewrite lookup_delete_eq. by intros [? ?].
Qed.

(** X9.  [isCacheValid] looks at the existence of the two files and at
    nothing in them: on a disk where the users file exists and a
    [cacheLog] was interrupted after opening the log file, it is true
    although the log reads back as empty. *)
Theorem isCacheValid_after_interrupted_write (log : QVariantMap) (now : string)
    (fs : FileSystem) :
  m_logsCacheFile cm ∉ writeDenied fs →
  fileExists (m_usersCacheFile cm) fs = true →
    isCacheValid cm (cacheLog_stopped cm 1 log now fs) = true
  ∧ getCachedLogs cm (cacheLog_stopped cm 1 log now fs) = [].
Proof.
  intros Hw Hu. unfold cacheLog_stopped.
  destruct (saveToFile_stopped_open (m_logsCacheFile cm)
    (List (getCachedLogs cm fs ++ [Map (logWithSync log now)])) fs Hw) as [Hf Hl].
  split; [|unfold getCachedLogs at 1; by rewrite Hl].
  unfold isCacheValid, fileExists in *. rewrite Hf.
  apply andb_true_iff. split; apply bool_decide_eq_true.
  - apply bool_decide_eq_true in Hu.
    destruct (decide (m_usersCacheFile cm = m_logsCacheFile cm)) as [->|Hne].
    + rewrite lookup_insert_eq. by eexists.
    + by rewrite lookup_insert_ne.
  - rewrite lookup_insert_eq. by eexists.
Qed.

End CacheClearing.

(* ===================================================================== *)
(** * Properties of the requests and of the other replies *)
(* ===================================================================== *)

Lemma jsonToInt_range (v : QVariant) :
  (- 2 ^ 31 ≤ jsonToInt v < 2 ^ 31)%Z.
Proof.
  destruct v; simpl; try lia.
  unfold doubleToInt. destruct (Prim2SF d) as [| | |negative m e]; simpl; try lia.
  repeat case_match; simpl; lia.
Qed.

Section ServiceProperties.
Context `{QtJson}.

(** A user record as the server sends it: the six fields, each of its
    type. *)
Definition serverUser (id name position : string) (active : bool)
    (model created_at : string) : QVariantMap :=
  <["id" := String id]> (<["name" := String name]> (<["position" := String position]>
  (<["active" := Bool active]> (<["model" := String model]>
  (<["created_at" := String created_at]> ∅))))).

Lemma parseUser_json (value : QVariant) : isJson (Map (parseUser value)).
Proof.
  unfold isJson, parseUser. simpl. by rewrite !fmap_insert, fmap_empty.
Qed.

Lemma parseUser_serverUser id name position active model created_at :
  parseUser (Map (serverUser id name position active model created_at))
  = serverUser id name position active model created_at.
Proof.
  unfold parseUser, jsonRef. simpl. unfold serverUser at 1 2 3 4 5 6.
  simplify_map_eq. unfold serverUser.
  apply map_eq. intros k.
  destruct (decide (k = "id")) as [->|?]; [by simplify_map_eq|].
  destruct (decide (k = "name")) as [->|?]; [by simplify_map_eq|].
  destruct (decide (k = "position")) as [->|?]; [by simplify_map_eq|].
  destruct (decide (k = "active")) as [->|?]; [by simplify_map_eq|].
  destruct (decide (k = "model")) as [->|?]; [by simplify_map_eq|].
  destruct (decide (k = "created_at")) as [->|?]; [by simplify_map_eq|].
  by simplify_map_eq.
Qed.

Lemma parseUsersResponse_json (responseData : QByteArray) :
  Forall isJson (parseUsersResponse responseData).
Proof.
  unfold parseUsersResponse. destruct (docIsNull _); [constructor|].
  apply Forall_forall. intros x Hx.
  apply list_elem_of_In, in_map_iff in Hx as (y & <- & _). apply parseUser_json.
Qed.

(** X10.  [parseUsersResponse] returns the empty list for a body that is
    not JSON, and for any body whose [users] is not an array.  For a
    response object with a [users] array it returns one record per element,
    in order; each record is a map with exactly the six fields [id],
    [name], [position], [active], [model], [created_at], a field that is
    missing or of another type reading as the empty string (false for
    [active]), and a record that the server sent with the six fields is
    returned as it was sent. *)
Theorem parseUsersResponse_records (responseData : QByteArray) :
    (fromJson responseData = Invalid → parseUsersResponse responseData = [])
  ∧ (∀ obj, fromJson responseData = Map obj →
       (∀ users, obj !! "users" ≠ Some (List users)) →
       parseUsersResponse responseData = [])
  ∧ (∀ obj users, fromJson responseData = Map obj →
       obj !! "users" = Some (List users) →
       parseUsersResponse responseData = map (λ value, Map (parseUser value)) users)
  ∧ (∀ value,
       dom (parseUser value)
         = ({["id"; "name"; "position"; "active"; "model"; "created_at"]} : gset string)
     ∧ (∀ k, k ∈ ["id"; "name"; "position"; "model"; "created_at"] →
          (∀ s, toMap value !! k ≠ Some (String s)) →
          parseUser value !! k = Some (String "")))
  ∧ (∀ id name position active model created_at,
       parseUser (Map (serverUser id name position active model created_at))
       = serverUser id name position active model created_at).
Proof.
  split_and!.
  - intros Hd. unfold parseUsersResponse. by rewrite Hd.
  - intros obj Hd Hno. unfold parseUsersResponse. rewrite Hd. simpl.
    unfold jsonRef. destruct (obj !! "users") as [[]|]; simpl; try done.
    by destruct (Hno l).
  - intros obj users Hd Hu. unfold parseUsersResponse. rewrite Hd. simpl.
    unfold jsonRef. by rewrite Hu.
  - intros value. split.
    + unfold parseUser. rewrite !dom_insert_L, dom_empty_L. set_solver.
    + intros k Hk Hno. unfold parseUser, jsonRef.
      assert (jsonToString (default Null (toMap value !! k)) = "") as Hs.
      { destruct (toMap value !! k) as [[]|]; simpl; try done. by destruct (Hno s). }
      repeat (apply elem_of_cons in Hk as [->|Hk];
              [simplify_map_eq; by rewrite Hs|]).
      by apply elem_of_nil in Hk.
  - apply parseUser_serverUser.
Qed.

(** X11.  What [parseUsersResponse] returns is always made of JSON values,
    so the cache stores it without change: when the users file can be
    written and read, [cacheUsers] of the parsed list followed by
    [getCachedUsers] returns the parsed list, whatever the response
    was. *)
Theorem parsed_users_cached (cm : CacheManager) (responseData : QByteArray)
    (now : string) (fs : FileSystem) :
  m_usersCacheFile cm ∉ writeDenied fs →
  m_usersCacheFile cm ∉ readDenied fs →
    Forall isJson (parseUsersResponse responseData)
  ∧ getCachedUsers cm (cacheUsers cm (parseUsersResponse responseData) now fs).1
      = parseUsersResponse responseData.
Proof.
  intros Hw Hr. pose proof (parseUsersResponse_json responseData) as Hjson.
  split; [done|].
  rewrite cacheUsers_unfold, decide_False by done. simpl.
  unfold getCachedUsers. rewrite load_after_save by done. simpl.
  rewrite subscript_fst, lookup_fmap. unfold usersCacheData.
  rewrite lookup_insert_eq. simpl. by apply Forall_isJson_map.
Qed.

(** X12.  A users reply always ends in exactly one [usersUpdated], and the
    bridge takes its list as the list of users: after a reply with an
    error, or with a body that is not JSON, the bridge has no users,
    whatever it had before, as after a reply that lists none; after any
    other reply it has the parsed list. *)
Theorem users_reply_replaces_list (reply : QNetworkReply) (b : Bridge.QmlBridge) :
    (∃ users, onUsersReplyFinished (Some reply) = [usersUpdated users])
  ∧ (replyError reply ≠ NoError ∨ fromJson (replyBody reply) = Invalid →
       Bridge.getUsersList
         (Bridge.deliverUsersUpdated (onUsersReplyFinished (Some reply)) b).1 = [])
  ∧ (replyError reply = NoError →
       Bridge.getUsersList
         (Bridge.deliverUsersUpdated (onUsersReplyFinished (Some reply)) b).1
       = parseUsersResponse (replyBody reply)).
Proof.
  unfold onUsersReplyFinished. split_and!.
  - destruct (replyError reply); eauto.
  - intros [Herr|Hbad].
    + by destruct (replyError reply).
    + destruct (replyError reply); try done. simpl.
      unfold parseUsersResponse. by rewrite Hbad.
  - by intros ->.
Qed.

Section Replies.
Variable errorString : QNetworkReply → string.
Variable QString_toInt : string → Z.

(** X13.  [onRegisterReplyFinished] reports success for every reply without
    error whose body is a JSON document, whatever the document says: the
    id it signals is the integer of the [user_id] string, and the integer
    of the empty string when [user_id] is missing or is not a string (an
    object without fields, a list and a number as [user_id] all give
    that).  Failure is reported only for a reply with an error, with the
    text of the error, and for a body that is not JSON. *)
Theorem onRegisterReplyFinished_outcomes (reply : QNetworkReply) :
    (replyError reply = NoError → fromJson (replyBody reply) ≠ Invalid →
       onRegisterReplyFinished errorString QString_toInt (Some reply)
         = [faceRegistrationSuccess
              (QString_toInt
                 (jsonToString (jsonRef (toMap (fromJson (replyBody reply))) "user_id")))]
     ∧ ((∀ s, toMap (fromJson (replyBody reply)) !! "user_id" ≠ Some (String s)) →
          onRegisterReplyFinished errorString QString_toInt (Some reply)
            = [faceRegistrationSuccess (QString_toInt "")]))
  ∧ (replyError reply = NoError → fromJson (replyBody reply) = Invalid →
       onRegisterReplyFinished errorString QString_toInt (Some reply)
         = [faceRegistrationFailed "Invalid response format"])
  ∧ (replyError reply ≠ NoError →
       onRegisterReplyFinished errorString QString_toInt (Some reply)
         = [faceRegistrationFailed (errorString reply)]).
Proof.
  unfold onRegisterReplyFinished. split_and!.
  - intros -> Hdoc.
    assert (docIsNull (fromJson (replyBody reply)) = false) as ->.
    { by destruct (fromJson (replyBody reply)). }
    simpl. split; [done|]. intros Hno. unfold jsonRef.
    destruct (toMap (fromJson (replyBody reply)) !! "user_id") as [[]|]; simpl;
      try done. by destruct (Hno s).
  - intros -> Hdoc. by rewrite Hdoc.
  - intros Herr. by destruct (replyError reply).
Qed.

(** X14.  [onConnectionTestReplyFinished] emits exactly one
    [serverConnectionTested], and it says success exactly when the reply
    has no error and its body is a JSON document; what the document holds
    plays no part. *)
Theorem onConnectionTestReplyFinished_success (reply : QNetworkReply) :
  ∃ success message,
    onConnectionTestReplyFinished errorString (Some reply)
      = [serverConnectionTested success message]
    ∧ (success = true ↔
         replyError reply = NoError ∧ fromJson (replyBody reply) ≠ Invalid).
Proof.
  unfold onConnectionTestReplyFinished.
  destruct (replyError reply) eqn:Herr;
    try (do 2 eexists; split; [reflexivity|]; split; [done|by intros [? _]]).
  destruct (fromJson (replyBody reply)) eqn:Hdoc; simpl;
    do 2 eexists; (split; [reflexivity|]); split; try done; try by intros [_ ?].
Qed.

End Replies.

Lemma fromJson_list_json (b : QByteArray) (l : QVariantList) :
  fromJson b = List l → Forall isJson l.
Proof.
  intros Hd. pose proof (fromJson_document b) as Hdoc. rewrite Hd in Hdoc.
  simpl in Hdoc. injection Hdoc as Hl. by apply Forall_isJson_map.
Qed.

Lemma fromJson_map_json (b : QByteArray) (m : QVariantMap) k v :
  fromJson b = Map m → m !! k = Some v → isJson v.
Proof.
  intros Hd Hk. pose proof (fromJson_document b) as Hdoc. rewrite Hd in Hdoc.
  simpl in Hdoc. injection Hdoc as Hm.
  assert ((jsonOfVariant <$> m) !! k = Some v) as Hv by (by rewrite Hm).
  rewrite lookup_fmap, Hk in Hv. simpl in Hv. by injection Hv.
Qed.

(** X15.  [onWorkHoursReplyFinished] and [onWorkHoursSummaryReplyFinished]
    emit exactly one signal each and the same list: the elements of the
    [users] array when the reply has no error and its body is a JSON
    object with such an array, and the empty list in every other case (an
    error, a body that is not JSON or is a JSON list, no [users], a
    [users] that is not an array). *)
Theorem work_hours_replies (reply : QNetworkReply) :
  ∃ list,
    onWorkHoursReplyFinished (Some reply) = [workHoursUpdated list]
    ∧ onWorkHoursSummaryReplyFinished (Some reply) = [workHoursSummaryUpdated list]
    ∧ (list ≠ [] →
         replyError reply = NoError ∧
         ∃ obj, fromJson (replyBody reply) = Map obj ∧ obj !! "users" = Some (List list))
    ∧ (∀ obj users, replyError reply = NoError →
         fromJson (replyBody reply) = Map obj → obj !! "users" = Some (List users) →
         list = users).
Proof.
  unfold onWorkHoursReplyFinished, onWorkHoursSummaryReplyFinished.
  destruct (replyError reply) eqn:Herr;
    try (exists []; split_and!; [done|done|done|congruence]).
  destruct (fromJson (replyBody reply)) as [| | | | |l|obj] eqn:Hdoc; simpl;
    try (exists []; split_and!; [done|done|done|congruence]).
  destruct (obj !! "users") as [v|] eqn:Hu.
  - rewrite bool_decide_eq_true_2 by (by eexists).
    unfold jsonRef. rewrite Hu. simpl.
    exists (toList v). split_and!; [done|done| |].
    + intros Hne. split; [done|]. exists obj. split; [done|].
      destruct v; simpl in *; try done.
    + intros obj' users _ [= <-] Hu'. rewrite Hu in Hu'. by injection Hu' as ->.
  - rewrite bool_decide_eq_false_2 by (by intros [? ?]).
    exists []. split_and!; [done|done|done|]. intros obj' users _ [= <-] Hu'.
    congruence.
Qed.

(** X16.  [parseHistoryResponse] returns the empty list for a body that
    is not JSON and one record per element of the [items] array otherwise,
    in order.  Each record has exactly the seven fields; a [name] that is
    null or missing reads as ["Unknown"] while a [name] of another type
    that is not a string reads as the empty string; a [user_id] that is
    null or missing reads as the empty string and a [distance] that is
    null or missing as 0; the [id] is a number made from an integer in
    the range of [int]. *)
Theorem parseHistoryResponse_records (responseData : QByteArray) :
    (fromJson responseData = Invalid → parseHistoryResponse responseData = [])
  ∧ (∀ obj items, fromJson responseData = Map obj →
       obj !! "items" = Some (List items) →
       parseHistoryResponse responseData
         = map (λ value, Map (parseHistoryItem value)) items)
  ∧ (∀ value,
       dom (parseHistoryItem value)
         = ({["id"; "ts"; "device_id"; "matched"; "user_id"; "name"; "distance"]}
              : gset string)
     ∧ (toMap value !! "name" = None ∨ toMap value !! "name" = Some Null →
          parseHistoryItem value !! "name" = Some (String "Unknown"))
     ∧ (∀ v, toMap value !! "name" = Some v → v ≠ Null →
          parseHistoryItem value !! "name" = Some (String (jsonToString v)))
     ∧ (toMap value !! "user_id" = None ∨ toMap value !! "user_id" = Some Null →
          parseHistoryItem value !! "user_id" = Some (String ""))
     ∧ (toMap value !! "distance" = None ∨ toMap value !! "distance" = Some Null →
          parseHistoryItem value !! "distance" = Some (Double 0))
     ∧ (∀ d, toMap value !! "distance" = Some (Double d) →
          parseHistoryItem value !! "distance" = Some (Double d))
     ∧ (∃ n, parseHistoryItem value !! "id" = Some (Double (intToDouble n))
             ∧ (- 2 ^ 31 ≤ n < 2 ^ 31)%Z)).
Proof.
  split_and!.
  - intros Hd. unfold parseHistoryResponse. by rewrite Hd.
  - intros obj items Hd Hi. unfold parseHistoryResponse. rewrite Hd. simpl.
    unfold jsonRef. by rewrite Hi.
  - intros value. unfold parseHistoryItem, jsonRef. split_and!.
    + repeat case_match; rewrite !dom_insert_L, dom_empty_L; set_solver.
    + intros [-> | ->]; simpl; repeat case_match; by simplify_map_eq.
    + intros v -> Hv. simpl.
      assert (jsonIsNull v = false) as -> by (by destruct v).
      repeat case_match; by simplify_map_eq.
    + intros [-> | ->]; simpl; repeat case_match; by simplify_map_eq.
    + intros [-> | ->]; simpl; repeat case_match; by simplify_map_eq.
    + intros d ->. simpl. repeat case_match; by simplify_map_eq.
    + eexists. split; [|apply jsonToInt_range].
      repeat case_match; by simplify_map_eq.
Qed.

Section Requests.
Variable QImage : Type.
Variable loadFromData : ImageBytes → option QImage.
Variable imageToBase64 : QImage → string.

Lemma createRecognizeRequest_json svc base64 capturedImage :
  jsonDocument (Map (createRecognizeRequest svc base64 capturedImage))
  = Map (createRecognizeRequest svc base64 capturedImage).
Proof.
  unfold createRecognizeRequest. destruct (negb _); simpl;
    by rewrite !fmap_insert, fmap_empty.
Qed.

(** X17.  [recognizeFaceWithServer] posts a request exactly when it returns
    [success = true]: for image bytes that are empty or that do not decode
    it posts nothing and returns [success = false] with an [error].
    Otherwise it posts one request to [/recognize] of the server, whose
    body reads back as the object with [image_base64], the [device_id] of
    the service and, only for a captured image that is not empty,
    [captured_image]; the map it returns then says ["processing"] and
    holds no result of the recognition. *)
Theorem recognizeFaceWithServer_request (svc : FaceRecognitionService)
    (imageData : ImageBytes) (capturedImage : string) :
  let result := (recognizeFaceWithServer QImage loadFromData imageToBase64
                   svc imageData capturedImage).1 in
  let requests := (recognizeFaceWithServer QImage loadFromData imageToBase64
                     svc imageData capturedImage).2 in
    (result !! "success" = Some (Bool true) ↔ requests ≠ [])
  ∧ (imageData = "" ∨ loadFromData imageData = None →
       requests = [] ∧ result !! "success" = Some (Bool false)
       ∧ is_Some (result !! "error"))
  ∧ (∀ image, imageData ≠ "" → loadFromData imageData = Some image →
       result = <["status" := String "processing"]> (<["success" := Bool true]> ∅)
     ∧ ∃ body obj,
         requests = [mkRequest HttpPost (m_serverUrl svc +:+ "/recognize")
                       (Some body) RecognizeReply]
       ∧ fromJson body = Map obj
       ∧ obj !! "image_base64" = Some (String (imageToBase64 image))
       ∧ obj !! "device_id" = Some (String (m_deviceId svc))
       ∧ obj !! "captured_image"
           = (if decide (capturedImage = "") then None else Some (String capturedImage))).
Proof.
  intros result requests. subst result requests.
  unfold recognizeFaceWithServer.
  destruct (String.eqb imageData "") eqn:He.
  { apply String.eqb_eq in He as ->. simpl. split_and!.
    - split; [by simplify_map_eq|done].
    - intros _. split_and!; [done|by simplify_map_eq|]. simplify_map_eq. by eexists.
    - by intros image Hne. }
  apply String.eqb_neq in He.
  destruct (loadFromData imageData) as [image|] eqn:Hl; simpl.
  - split_and!.
    + split; [done|]. intros _. by simplify_map_eq.
    + by intros [?|?].
    + intros image' _ [= <-]. split; [done|].
      eexists _, _. split; [reflexivity|].
      rewrite fromJson_toJson, createRecognizeRequest_json.
      split; [reflexivity|]. unfold createRecognizeRequest.
      case_decide as Hc.
      * rewrite Hc. simpl. by simplify_map_eq.
      * apply String.eqb_neq in Hc. rewrite Hc. simpl. by simplify_map_eq.
  - split_and!.
    + split; [by simplify_map_eq|done].
    + intros _. split_and!; [done|by simplify_map_eq|]. simplify_map_eq. by eexists.
    + by intros image _ ?.
Qed.

(** X18.  [registerFaceWithServer] returns [true] exactly when it posts the
    registration request: it refuses empty image bytes, an empty name and
    bytes that do not decode, posting nothing, and accepts an empty
    position.  The body of the request reads back as the object with
    [image_base64], [name] and [position]. *)
Theorem registerFaceWithServer_request (svc : FaceRecognitionService)
    (imageData : ImageBytes) (name position : string) :
  let accepted := (registerFaceWithServer QImage loadFromData imageToBase64
                     svc imageData name position).1 in
  let requests := (registerFaceWithServer QImage loadFromData imageToBase64
                     svc imageData name position).2 in
    (accepted = true ↔ requests ≠ [])
  ∧ (accepted = true ↔
       imageData ≠ "" ∧ name ≠ "" ∧ is_Some (loadFromData imageData))
  ∧ (∀ image, accepted = true → loadFromData imageData = Some image →
       ∃ body,
         requests = [mkRequest HttpPost (m_serverUrl svc +:+ "/register")
                       (Some body) RegisterReply]
       ∧ fromJson body
           = Map (<["position" := String position]> (<["name" := String name]>
                  (<["image_base64" := String (imageToBase64 image)]> ∅)))).
Proof.
  intros accepted requests. subst accepted requests.
  unfold registerFaceWithServer.
  destruct (String.eqb imageData "") eqn:He; simpl.
  { apply String.eqb_eq in He. split_and!; [done| |done].
    split; [done|]. by intros [? _]. }
  apply String.eqb_neq in He.
  destruct (String.eqb name "") eqn:Hn; simpl.
  { apply String.eqb_eq in Hn. split_and!; [done| |done].
    split; [done|]. by intros (_ & ? & _). }
  apply String.eqb_neq in Hn.
  destruct (loadFromData imageData) as [image|] eqn:Hl; simpl.
  - split_and!; [done|done|].
    intros image' _ [= <-]. eexists. split; [reflexivity|].
    rewrite fromJson_toJson. unfold createRegisterRequest. simpl.
    by rewrite !fmap_insert, fmap_empty.
  - split_and!; [done| |done].
    split; [done|]. by intros (_ & _ & [? ?]).
Qed.

End Requests.

End ServiceProperties.

(* ===================================================================== *)
(** * Further properties of the camera manager *)
(* ===================================================================== *)

(** X19.  [stopCamera] is safe in every state: the camera is not running
    afterwards, a second [stopCamera] changes nothing and emits nothing,
    and a camera that was running has its three objects released and
    [cameraStopped] emitted.  It keeps the image that was captured last.
    When a device was present as the manager was made and one is present
    now, [startCamera] after [stopCamera] starts the camera again. *)
Theorem stopCamera_stops (s : CameraManager) :
    m_cameraRunning (stopCamera s).1 = false
  ∧ stopCamera (stopCamera s).1 = ((stopCamera s).1, [])
  ∧ m_lastCapturedImage (stopCamera s).1 = m_lastCapturedImage s
  ∧ (m_cameraRunning s = true →
       (stopCamera s).2 = [cameraStopped]
     ∧ m_camera (stopCamera s).1 = None
     ∧ m_captureSession (stopCamera s).1 = false
     ∧ m_imageCapture (stopCamera s).1 = false)
  ∧ (∀ env first others, m_cameraAvailable s = true →
       videoInputs env = first :: others → thrown env = None →
       (startCamera env (stopCamera s).1).1.1 = true
     ∧ m_cameraRunning (startCamera env (stopCamera s).1).1.2 = true
     ∧ (startCamera env (stopCamera s).1).2 = [cameraStarted]).
Proof.
  unfold stopCamera. destruct (m_cameraRunning s) eqn:Hrun; simpl;
    rewrite ?Hrun; simpl; split_and!; try done.
  - intros env first others Hav Hvi Hth. unfold startCamera. simpl.
    by rewrite Hav, Hvi, Hth.
  - intros env first others Hav Hvi Hth. unfold startCamera.
    by rewrite Hav, Hrun, Hvi, Hth.
Qed.

Lemma cameraStep_objects op s :
  (m_cameraRunning s = true →
     is_Some (m_camera s) ∧ m_captureSession s = true ∧ m_imageCapture s = true) →
  m_cameraRunning (cameraStep op s) = true →
  is_Some (m_camera (cameraStep op s)) ∧ m_captureSession (cameraStep op s) = true
  ∧ m_imageCapture (cameraStep op s) = true.
Proof.
  intros Hinv.
  destruct op as [env| |env| | |]; simpl;
    unfold startCamera, stopCamera, captureImage, captureTimeout;
    repeat (case_match; simpl; try done); auto; try congruence.
  all: by eauto.
Qed.

(** X20.  In every state that the constructor and the members of
    [CameraManager] lead to, a running camera has its camera, capture
    session and image capture objects allocated, and a device was present
    as the manager was made. *)
Theorem running_camera_has_objects (s : CameraManager) :
  reachable s → m_cameraRunning s = true →
    is_Some (m_camera s) ∧ m_captureSession s = true ∧ m_imageCapture s = true
  ∧ m_cameraAvailable s = true.
Proof.
  intros Hreach Hrun.
  assert (is_Some (m_camera s) ∧ m_captureSession s = true ∧ m_imageCapture s = true)
    as (? & ? & ?).
  { induction Hreach as [devices|op s Hs IH]; [done|].
    by apply cameraStep_objects. }
  split_and!; try done. by apply reachable_running_available.
Qed.

Lemma startCamera_tells_running_aux (env : StartEnv) (s : CameraManager) :
  reachable s →
  (startCamera env s).1.1 = m_cameraRunning (startCamera env s).1.2.
Proof.
  intros Hreach. unfold startCamera.
  destruct (m_cameraAvailable s) eqn:Hav; simpl.
  - destruct (m_cameraRunning s) eqn:Hrun; simpl; [by rewrite Hrun|].
    repeat (case_match; simpl; try done).
  - destruct (m_cameraRunning s) eqn:Hrun; [|done].
    by rewrite (reachable_running_available s Hreach Hrun) in Hav.
Qed.

(** X21.  For every reachable state, [startCamera] returns whether the
    camera is running afterwards, and a camera that runs stays running
    and emits nothing. *)
Theorem startCamera_tells_running (env : StartEnv) (s : CameraManager) :
  reachable s →
    (startCamera env s).1.1 = m_cameraRunning (startCamera env s).1.2
  ∧ (m_cameraRunning s = true → startCamera env s = (true, s, [])).
Proof.
  intros Hreach. split; [by apply startCamera_tells_running_aux|].
  intros Hrun. unfold startCamera.
  by rewrite (reachable_running_available s Hreach Hrun), Hrun.
Qed.

(** X22.  Once an image is stored, [captureImage] never starts a capture
    again: it leaves the state as it is and returns nothing or that same
    image.  No member other than the capture callback changes the stored
    image; [stopCamera] and [startCamera] keep it. *)
Theorem stored_image_is_returned_again (s : CameraManager) :
  m_lastCapturedImage s ≠ "" →
    (∀ env, captureImage env s = ("", s)
            ∨ captureImage env s = (m_lastCapturedImage s, s))
  ∧ (∀ env, m_cameraRunning s = true → m_imageCapture s = true →
       m_captureInProgress s = false → cameraIsActive env = true →
       readyForCapture env = true →
       captureImage env s = (m_lastCapturedImage s, s))
  ∧ (∀ op, (∀ jpeg, op ≠ SlotImageCaptured jpeg) →
       m_lastCapturedImage (cameraStep op s) = m_lastCapturedImage s).
Proof.
  intros Himg. split_and!.
  - intros env. unfold captureImage.
    repeat (case_match; simpl; auto).
    all: by match goal with H : negb (bool_decide _) = false |- _ =>
              apply negb_false_iff, bool_decide_eq_true in H end.
  - intros env Hrun Hcap Hprog Hact Hready. unfold captureImage.
    rewrite Hrun, Hcap, Hprog, Hact, Hready. simpl.
    rewrite andb_false_r. simpl. by rewrite bool_decide_eq_false_2.
  - intros op Hop.
    destruct op as [env| |env| |jpeg|]; simpl;
      unfold startCamera, stopCamera, captureImage, captureTimeout;
      repeat (case_match; simpl; try done).
    all: try by match goal with H : negb (bool_decide _) = false |- _ =>
              apply negb_false_iff, bool_decide_eq_true in H end.
    all: try done.
    by destruct (Hop jpeg).
Qed.

(** X23.  The capture protocol.  On a running camera that is active and
    ready, with no image stored and no capture in progress, [captureImage]
    returns no bytes and a capture is in progress afterwards; while it is,
    a further [captureImage] returns no bytes and changes nothing; after
    the capture callback delivered an image that is not empty,
    [captureImage] returns that image. *)
Theorem capture_then_fetch (env : CaptureEnv) (s : CameraManager) :
  m_cameraRunning s = true → m_imageCapture s = true →
  m_captureInProgress s = false → m_lastCapturedImage s = "" →
  cameraIsActive env = true → readyForCapture env = true →
  captureId env ≠ (-1)%Z →
    (captureImage env s).1 = ""
  ∧ m_captureInProgress (captureImage env s).2 = true
  ∧ (∀ env', captureImage env' (captureImage env s).2 = ("", (captureImage env s).2))
  ∧ (∀ env' jpeg, jpeg ≠ "" →
       cameraIsActive env' = true → readyForCapture env' = true →
       (captureImage env' (onImageCaptured jpeg (captureImage env s).2)).1 = jpeg).
Proof.
  intros Hrun Hcap Hprog Himg Hact Hready Hid.
  assert (captureImage env s
          = ("", mkCameraManager (m_cameraAvailable s) (m_cameraRunning s) (m_camera s)
                   (m_captureSession s) (m_imageCapture s) "" true)) as Hc.
  { unfold captureImage. rewrite Hrun, Hcap, Hprog, Hact, Hready, Himg. simpl.
    rewrite andb_false_r. simpl. by rewrite bool_decide_eq_false_2. }
  rewrite Hc. simpl. split_and!; try done.
  - intros env'. unfold captureImage. simpl. by rewrite Hrun, Hcap.
  - intros env' jpeg Hj Hact' Hready'. unfold captureImage, onImageCaptured. simpl.
    rewrite Hrun, Hcap, Hact', Hready'. simpl. rewrite andb_false_r. simpl.
    by rewrite bool_decide_eq_false_2.
Qed.

(* ===================================================================== *)
(** * Properties of the bridge *)
(* ===================================================================== *)

Lemma startCamera_keeps_running env s :
  m_cameraRunning s = true → m_cameraRunning (startCamera env s).1.2 = true.
Proof.
  intros Hrun. unfold startCamera.
  repeat (case_match; simpl; try done).
Qed.

Lemma startCamera_started_running env s :
  (startCamera env s).1.1 = true → m_cameraAvailable s = true →
  m_cameraRunning (startCamera env s).1.2 = true.
Proof.
  unfold startCamera. intros Hs Hav. rewrite Hav in *. simpl in *.
  repeat (case_match; simpl in *; try done).
Qed.

Lemma captureImage_running env s :
  m_cameraRunning (captureImage env s).2 = m_cameraRunning s.
Proof. unfold captureImage. repeat (case_match; simpl; try done). Qed.

Lemma take_50_length {A} (l : list A) :
  (length (if (50 <? length l)%nat then take 50 l else l) ≤ 50)%nat.
Proof.
  destruct (50 <? length l)%nat eqn:E.
  - rewrite length_take. lia.
  - apply Nat.ltb_ge in E. lia.
Qed.

Lemma take_50_take {A} (l : list A) :
  (if (50 <? length l)%nat then take 50 l else l) = take 50 l.
Proof.
  destruct (50 <? length l)%nat eqn:E; [done|].
  apply Nat.ltb_ge in E. by rewrite take_ge.
Qed.

Section BridgeProperties.
Context `{QtJson}.
Variable QImage : Type.
Variable loadFromData : ImageBytes → option QImage.
Variable imageToBase64 : QImage → string.

Local Abbreviation bridgeReachable := (Bridge.reachable QImage loadFromData imageToBase64).
Local Abbreviation bridgeStep := (Bridge.step QImage loadFromData imageToBase64).
Local Abbreviation bridgeCaptureAndRecognize :=
  (Bridge.captureAndRecognize QImage loadFromData imageToBase64).
Local Abbreviation bridgeFetchCapturedImage :=
  (Bridge.fetchCapturedImage QImage loadFromData imageToBase64).
Local Abbreviation bridgeProcessRecognition :=
  (Bridge.processRecognition QImage loadFromData imageToBase64).
Local Abbreviation bridgeRecognizeFace :=
  (Bridge.recognizeFace QImage loadFromData imageToBase64).

Lemma bridgeStep_camera op b :
  ∃ ops, Bridge.m_cameraManager (bridgeStep op b)
         = foldr cameraStep (Bridge.m_cameraManager b) ops.
Proof.
  destruct op as [env| |env|env|env|op| | | | |]; simpl.
  - exists [CallStartCamera env]. simpl. unfold Bridge.startCamera.
    destruct (startCamera env (Bridge.m_cameraManager b)) as [[started camera] signals].
    by destruct started.
  - exists [CallStopCamera]. simpl. unfold Bridge.stopCamera.
    by destruct (stopCamera (Bridge.m_cameraManager b)).
  - exists [CallCaptureImage env]. simpl. unfold Bridge.captureImage.
    by destruct (captureImage env (Bridge.m_cameraManager b)).
  - unfold Bridge.captureAndRecognize.
    destruct (negb (isCameraAvailable _)); [by exists []|].
    destruct (negb (isCameraRunning _)).
    { exists [CallStartCamera (Bridge.startEnv env)]. simpl.
      destruct (startCamera _ _) as [[started camera] signals].
      by destruct started. }
    destruct (negb (isImageCaptureReady _ _)); [by exists []|].
    exists [CallCaptureImage (Bridge.captureEnv env)]. simpl.
    unfold Bridge.captureImage.
    destruct (captureImage _ _) as [imageData camera]. simpl.
    destruct (String.eqb imageData ""); [done|].
    by destruct (Bridge.processRecognition _ _ _ _ _ _).
  - exists [CallCaptureImage env]. simpl.
    unfold Bridge.fetchCapturedImage, Bridge.captureImage.
    destruct (captureImage _ _) as [imageData camera]. simpl.
    destruct (negb (String.eqb imageData "")); [|done].
    by destruct (Bridge.processRecognition _ _ _ _ _ _).
  - destruct (Bridge.isCallback op); [by exists [op]|by exists []].
  - by exists [].
  - by exists [].
  - by exists [].
  - by exists [].
  - by exists [].
Qed.

Lemma reachable_foldr ops s : reachable s → reachable (foldr cameraStep s ops).
Proof.
  intros Hs. induction ops as [|op ops IH]; [done|].
  simpl. by constructor.
Qed.

Lemma bridge_camera_reachable b :
  bridgeReachable b → reachable (Bridge.m_cameraManager b).
Proof.
  induction 1 as [devices host|op b Hb IH]; [constructor|].
  destruct (bridgeStep_camera op b) as [ops ->]. by apply reachable_foldr.
Qed.

Lemma bridgeStep_flag op b :
  reachable (Bridge.m_cameraManager b) →
  (Bridge.m_cameraAvailable b = true → m_cameraRunning (Bridge.m_cameraManager b) = true) →
  Bridge.m_cameraAvailable (bridgeStep op b) = true →
  m_cameraRunning (Bridge.m_cameraManager (bridgeStep op b)) = true.
Proof.
  intros Hreach Hinv.
  destruct op as [env| |env|env|env|op| | | | |]; simpl; try by auto.
  - unfold Bridge.startCamera.
    pose proof (startCamera_tells_running_aux env (Bridge.m_cameraManager b) Hreach) as Hst.
    pose proof (startCamera_keeps_running env (Bridge.m_cameraManager b)) as Hk.
    destruct (startCamera env (Bridge.m_cameraManager b)) as [[started camera] signals].
    simpl in *. destruct started; simpl; [done|]. auto.
  - unfold Bridge.stopCamera. by destruct (stopCamera _).
  - unfold Bridge.captureImage.
    pose proof (captureImage_running env (Bridge.m_cameraManager b)) as Hc.
    destruct (captureImage env (Bridge.m_cameraManager b)) as [imageData camera].
    simpl in *. intros Hflag. rewrite Hc. auto.
  - unfold Bridge.captureAndRecognize.
    destruct (negb (isCameraAvailable _)); [by auto|].
    destruct (negb (isCameraRunning _)) eqn:Hrun.
    { pose proof (startCamera_keeps_running (Bridge.startEnv env)
                    (Bridge.m_cameraManager b)) as Hk.
      destruct (startCamera _ _) as [[started camera] signals].
      destruct started; simpl in *; auto. }
    destruct (negb (isImageCaptureReady _ _)); [by auto|].
    unfold Bridge.captureImage.
    pose proof (captureImage_running (Bridge.captureEnv env)
                  (Bridge.m_cameraManager b)) as Hc.
    destruct (captureImage _ _) as [imageData camera]. simpl in *.
    destruct (String.eqb imageData ""); simpl.
    + intros Hflag. rewrite Hc. auto.
    + destruct (Bridge.processRecognition _ _ _ _ _ _). simpl.
      intros Hflag. rewrite Hc. auto.
  - unfold Bridge.fetchCapturedImage, Bridge.captureImage.
    pose proof (captureImage_running env (Bridge.m_cameraManager b)) as Hc.
    destruct (captureImage _ _) as [imageData camera]. simpl in *.
    destruct (negb (String.eqb imageData "")); simpl.
    + destruct (Bridge.processRecognition _ _ _ _ _ _). simpl.
      intros Hflag. rewrite Hc. auto.
    + intros Hflag. rewrite Hc. auto.
  - destruct op; simpl; auto.
    unfold captureTimeout. by destruct (m_captureInProgress _); simpl; auto.
Qed.

Lemma bridgeStep_rest op b :
    isNetworkAvailable (Bridge.m_faceRecognitionService (bridgeStep op b))
    = isNetworkAvailable (Bridge.m_faceRecognitionService b)
  ∧ (Bridge.m_recognitionHistory (bridgeStep op b) = Bridge.m_recognitionHistory b
     ∨ (length (Bridge.m_recognitionHistory (bridgeStep op b)) ≤ 50)%nat).
Proof.
  destruct op as [env| |env|env|env|op|now userName success imageData| | | |]; simpl.
  - unfold Bridge.startCamera.
    destruct (startCamera _ _) as [[started camera] signals].
    destruct started; auto.
  - unfold Bridge.stopCamera. destruct (stopCamera _). auto.
  - unfold Bridge.captureImage. destruct (captureImage _ _). auto.
  - unfold Bridge.captureAndRecognize, Bridge.captureImage.
    destruct (negb (isCameraAvailable _)); [by auto|].
    destruct (negb (isCameraRunning _)).
    { destruct (startCamera _ _) as [[started camera] signals].
      destruct started; auto. }
    destruct (negb (isImageCaptureReady _ _)); [by auto|].
    destruct (captureImage _ _) as [imageData camera]. simpl.
    destruct (String.eqb imageData ""); [by auto|].
    destruct (Bridge.processRecognition _ _ _ _ _ _). auto.
  - unfold Bridge.fetchCapturedImage, Bridge.captureImage.
    destruct (captureImage _ _) as [imageData camera]. simpl.
    destruct (negb (String.eqb imageData "")); [|by auto].
    destruct (Bridge.processRecognition _ _ _ _ _ _). auto.
  - destruct (Bridge.isCallback op); auto.
  - split; [done|]. right.
    exact (take_50_length (_ :: Bridge.m_recognitionHistory b)).
  - split; [done|]. right. simpl. lia.
  - auto.
  - auto.
  - auto.
Qed.

(** X24.  In every state that the constructor and the members of the
    bridge lead to: the camera manager is in a state of its own that is
    reachable; when the bridge says that the camera is available, the
    camera is running; the recognition history holds at most 50 events;
    and the service has its network manager, so it never falls back to
    local recognition. *)
Theorem bridge_states (b : Bridge.QmlBridge) :
  bridgeReachable b →
    reachable (Bridge.m_cameraManager b)
  ∧ (Bridge.m_cameraAvailable b = true →
       m_cameraRunning (Bridge.m_cameraManager b) = true)
  ∧ (length (Bridge.m_recognitionHistory b) ≤ 50)%nat
  ∧ isNetworkAvailable (Bridge.m_faceRecognitionService b) = true.
Proof.
  intros Hb. split; [by apply bridge_camera_reachable|].
  induction Hb as [devices host|op b Hb (Hflag & Hlen & Hnet)].
  { split_and!; [done|simpl; lia|done]. }
  destruct (bridgeStep_rest op b) as [Hn Hh]. split_and!.
  - apply bridgeStep_flag; [by apply bridge_camera_reachable|done].
  - destruct Hh as [->|?]; done.
  - by rewrite Hn.
Qed.

(** X25.  [captureAndRecognize] on a camera that is available and not
    running starts it, with the manager's [startCamera] and not the
    bridge's: the camera runs afterwards, but the bridge's
    [cameraAvailable] is as before and no signal is emitted; only the
    timer that calls [captureAndRecognize] again in 3 s is armed. *)
Theorem captureAndRecognize_starts_camera (env : Bridge.CaptureAndRecognizeEnv)
    (b : Bridge.QmlBridge) (first : QCameraDevice) (others : list QCameraDevice) :
  m_cameraAvailable (Bridge.m_cameraManager b) = true →
  m_cameraRunning (Bridge.m_cameraManager b) = false →
  videoInputs (Bridge.startEnv env) = first :: others →
  thrown (Bridge.startEnv env) = None →
  ∃ b', bridgeCaptureAndRecognize env b
          = (b', [], [], [Bridge.RetryCaptureAndRecognize 3000])
      ∧ m_cameraRunning (Bridge.m_cameraManager b') = true
      ∧ Bridge.m_cameraAvailable b' = Bridge.m_cameraAvailable b.
Proof.
  intros Hav Hrun Hvi Hth.
  unfold Bridge.captureAndRecognize, isCameraAvailable, isCameraRunning, startCamera.
  rewrite Hav, Hrun, Hvi, Hth. simpl. by eexists.
Qed.

Lemma processRecognition_cases imageData capturedImage b :
  let svc := Bridge.m_faceRecognitionService b in
    (bridgeProcessRecognition imageData capturedImage b
       = ([Bridge.faceRecognitionFailed], [])
     ∧ (imageData = "" ∨ loadFromData imageData = None))
  ∨ (∃ image,
       imageData ≠ "" ∧ loadFromData imageData = Some image
     ∧ bridgeProcessRecognition imageData capturedImage b
       = ([], [mkRequest HttpPost (m_serverUrl svc +:+ "/recognize")
                 (Some (toJson (Map (createRecognizeRequest svc (imageToBase64 image)
                                       capturedImage))))
                 RecognizeReply])).
Proof.
  simpl. unfold Bridge.processRecognition, recognizeFaceWithServer.
  destruct (String.eqb imageData "") eqn:He.
  { apply String.eqb_eq in He. left. split; [|by left].
    unfold subscript. by simplify_map_eq. }
  apply String.eqb_neq in He.
  destruct (loadFromData imageData) as [image|] eqn:Hl.
  - right. exists image. split_and!; [done|done|].
    unfold subscript. by simplify_map_eq.
  - left. split; [|by right]. unfold subscript. by simplify_map_eq.
Qed.

(** X26.  Every call of [captureAndRecognize] does exactly one thing: it
    emits [faceRecognitionFailed], or it arms one timer, or it posts one
    request to [/recognize]; it never returns having done none of them.
    The lambda of the timer that fetches the captured image emits
    [faceRecognitionFailed] or posts one request.  Neither changes the
    bridge's [cameraAvailable], users or recognition history. *)
Theorem captureAndRecognize_one_outcome (env : Bridge.CaptureAndRecognizeEnv)
    (fetchEnv : CaptureEnv) (b : Bridge.QmlBridge) :
  let url := m_serverUrl (Bridge.m_faceRecognitionService b) +:+ "/recognize" in
  let r := bridgeCaptureAndRecognize env b in
  let f := bridgeFetchCapturedImage fetchEnv b in
    ((r.1.1.2 = [Bridge.faceRecognitionFailed] ∧ r.1.2 = [] ∧ r.2 = [])
     ∨ (r.1.1.2 = [] ∧ r.1.2 = [] ∧ ∃ timer, r.2 = [timer])
     ∨ (r.1.1.2 = [] ∧ r.2 = []
        ∧ ∃ body, r.1.2 = [mkRequest HttpPost url (Some body) RecognizeReply]))
  ∧ ((f.1.2 = [Bridge.faceRecognitionFailed] ∧ f.2 = [])
     ∨ (f.1.2 = []
        ∧ ∃ body, f.2 = [mkRequest HttpPost url (Some body) RecognizeReply]))
  ∧ (∀ b', b' = r.1.1.1 ∨ b' = f.1.1 →
       Bridge.m_cameraAvailable b' = Bridge.m_cameraAvailable b
     ∧ Bridge.m_users b' = Bridge.m_users b
     ∧ Bridge.m_recognitionHistory b' = Bridge.m_recognitionHistory b
     ∧ Bridge.m_faceRecognitionService b' = Bridge.m_faceRecognitionService b).
Proof.
  intros url r f. subst url r f. split_and!.
  - unfold Bridge.captureAndRecognize, Bridge.captureImage.
    destruct (negb (isCameraAvailable _)); [by left|].
    destruct (negb (isCameraRunning _)).
    { destruct (startCamera _ _) as [[started camera] signals].
      destruct started; simpl; [right; left; eauto|by left]. }
    destruct (negb (isImageCaptureReady _ _)); [right; left; simpl; eauto|].
    destruct (captureImage _ _) as [imageData camera]. simpl.
    destruct (String.eqb imageData ""); [right; left; simpl; eauto|].
    destruct (processRecognition_cases imageData "" (Bridge.withCamera camera b))
      as [[-> _]|(image & _ & _ & ->)]; simpl; [by left|].
    right; right. eauto.
  - unfold Bridge.fetchCapturedImage, Bridge.captureImage.
    destruct (captureImage _ _) as [imageData camera]. simpl.
    destruct (negb (String.eqb imageData "")); [|by left].
    destruct (processRecognition_cases imageData "" (Bridge.withCamera camera b))
      as [[-> _]|(image & _ & _ & ->)]; simpl; [by left|].
    right. eauto.
  - intros b' [->| ->].
    + unfold Bridge.captureAndRecognize, Bridge.captureImage.
      destruct (negb (isCameraAvailable _)); [done|].
      destruct (negb (isCameraRunning _)).
      { destruct (startCamera _ _) as [[started camera] signals].
        by destruct started. }
      destruct (negb (isImageCaptureReady _ _)); [done|].
      destruct (captureImage _ _) as [imageData camera]. simpl.
      destruct (String.eqb imageData ""); [done|].
      by destruct (Bridge.processRecognition _ _ _ _ _ _).
    + unfold Bridge.fetchCapturedImage, Bridge.captureImage.
      destruct (captureImage _ _) as [imageData camera]. simpl.
      destruct (negb (String.eqb imageData "")); [|done].
      by destruct (Bridge.processRecognition _ _ _ _ _ _).
Qed.

(** X27.  Once the camera manager holds a captured image,
    [captureAndRecognize] on the running, ready camera submits that stored
    image again: it starts no capture, arms no timer and leaves the bridge
    and the camera as they are, so every later call submits the same
    image.  The request carries the stored image in base 64 and no
    [captured_image]. *)
Theorem captureAndRecognize_resubmits_stored_image
    (env : Bridge.CaptureAndRecognizeEnv) (b : Bridge.QmlBridge) (image : QImage) :
  let camera := Bridge.m_cameraManager b in
  let svc := Bridge.m_faceRecognitionService b in
  m_cameraAvailable camera = true → m_cameraRunning camera = true →
  m_imageCapture camera = true → m_captureInProgress camera = false →
  m_lastCapturedImage camera ≠ "" →
  loadFromData (m_lastCapturedImage camera) = Some image →
  Bridge.readyWhenAsked env = true →
  cameraIsActive (Bridge.captureEnv env) = true →
  readyForCapture (Bridge.captureEnv env) = true →
  ∃ body obj,
      bridgeCaptureAndRecognize env b
      = (b, [], [mkRequest HttpPost (m_serverUrl svc +:+ "/recognize") (Some body)
                   RecognizeReply], [])
    ∧ fromJson body = Map obj
    ∧ obj !! "image_base64" = Some (String (imageToBase64 image))
    ∧ obj !! "device_id" = Some (String (m_deviceId svc))
    ∧ obj !! "captured_image" = None.
Proof.
  intros camera svc Hav Hrun Hcap Hprog Himg Hload Hready Hact Hrfc.
  subst camera svc. destruct b as [camera svc users history flag]. simpl in *.
  unfold Bridge.captureAndRecognize, Bridge.captureImage, isCameraAvailable,
    isCameraRunning, isImageCaptureReady, captureImage. simpl.
  rewrite Hav, Hrun, Hcap, Hprog, Hready, Hact, Hrfc. simpl.
  rewrite andb_false_r. simpl. rewrite bool_decide_eq_false_2 by done. simpl.
  apply String.eqb_neq in Himg as Himg'. rewrite Himg'.
  unfold Bridge.withCamera. simpl.
  destruct (processRecognition_cases (m_lastCapturedImage camera) ""
              (Bridge.mkBridge camera svc users history flag))
    as [[_ [?|Hn]]|(image' & _ & Hl & ->)]; [done|congruence|].
  simpl. rewrite Hload in Hl. injection Hl as <-.
  eexists _, _. split; [reflexivity|].
  rewrite fromJson_toJson, createRecognizeRequest_json.
  split; [reflexivity|]. unfold createRecognizeRequest. simpl.
  by simplify_map_eq.
Qed.

(** X28.  The bridge's [recognizeFace] emits [faceRecognitionFailed] or
    [faceRecognized] with an empty user id and an empty user name, never
    the id or the name of a user: it looks for them in the map that the
    service returns at once, which holds neither.  With the network
    manager in place it emits [faceRecognized] exactly when the request was
    posted, that is for image bytes that are not empty and decode, and the
    map it returns then holds [user_id] and [user_name] as invalid
    variants. *)
Theorem bridge_recognizeFace_signal (imageData : ImageBytes) (b : Bridge.QmlBridge) :
  let signals := (bridgeRecognizeFace imageData b).1.2 in
  let requests := (bridgeRecognizeFace imageData b).2 in
  let result := (bridgeRecognizeFace imageData b).1.1 in
    (signals = [Bridge.faceRecognitionFailed] ∨ signals = [Bridge.faceRecognized "" ""])
  ∧ (isNetworkAvailable (Bridge.m_faceRecognitionService b) = true →
       (signals = [Bridge.faceRecognized "" ""] ↔ requests ≠ [])
     ∧ (signals = [Bridge.faceRecognized "" ""] ↔
          imageData ≠ "" ∧ is_Some (loadFromData imageData))
     ∧ (requests ≠ [] →
          result = <["user_name" := Invalid]> (<["user_id" := Invalid]>
                     (<["status" := String "processing"]>
                        (<["success" := Bool true]> ∅))))).
Proof.
  intros signals requests result. subst signals requests result.
  unfold Bridge.recognizeFace, recognizeFace, recognizeFaceWithServer,
    recognizeFaceLocally.
  destruct (isNetworkAvailable _) eqn:Hnet.
  - destruct (String.eqb imageData "") eqn:He.
    { apply String.eqb_eq in He. unfold subscript. simplify_map_eq. simpl.
      split; [by left|]. intros _. split_and!; [done| |done].
      split; [done|]. by intros [? _]. }
    apply String.eqb_neq in He.
    destruct (loadFromData imageData) as [image|] eqn:Hl.
    + unfold subscript. simplify_map_eq. simpl.
      split; [by right|]. intros _. split_and!; [done| |done].
      split; [|done]. intros _. split; [done|by eexists].
    + unfold subscript. simplify_map_eq. simpl.
      split; [by left|]. intros _. split_and!; [done| |done].
      split; [done|]. by intros [_ [? ?]].
  - split; [|done].
    destruct (negb (m_databaseManager _)).
    { unfold subscript. simplify_map_eq. by left. }
    destruct (String.eqb imageData "").
    { unfold subscript. simplify_map_eq. by left. }
    unfold subscript. simplify_map_eq. simpl.
    by right.
Qed.

End BridgeProperties.

(** X29.  [getUserById] and [getUserByName] never find a user: they search
    the list that [getUsersFromServer] returns at once, which is always
    empty, since the users of the server arrive later with the reply.
    With the network manager in place each call still posts one GET
    request to [/users]. *)
Theorem bridge_user_lookup_empty (variantToInt : QVariant → Z) (userId : Z)
    (name : string) (b : Bridge.QmlBridge) :
  let svc := Bridge.m_faceRecognitionService b in
  let usersRequest := mkRequest HttpGet (m_serverUrl svc +:+ "/users") None UsersReply in
    (Bridge.getUsers b).1 = []
  ∧ (Bridge.getUserById variantToInt userId b).1 = ∅
  ∧ (Bridge.getUserByName name b).1 = ∅
  ∧ (isNetworkAvailable svc = true →
       (Bridge.getUsers b).2 = [usersRequest]
     ∧ (Bridge.getUserById variantToInt userId b).2 = [usersRequest]
     ∧ (Bridge.getUserByName name b).2 = [usersRequest]).
Proof.
  intros svc usersRequest. subst svc usersRequest.
  unfold Bridge.getUserById, Bridge.getUserByName, Bridge.getUsers, getUsersFromServer.
  destruct (isNetworkAvailable _); simpl; by split_and!.
Qed.

(** X30.  [addRecognitionEventWithImage] puts the new event first and keeps
    the 50 newest: the history afterwards is the first 50 of the event
    followed by the history before, every earlier event moves one place
    down and the one at place 50 is dropped.  The event holds the name,
    the result and the time stamp made of the date and the time, and holds
    [captured_image] exactly when the image text is not empty. *)
Theorem addRecognitionEvent_history (now : QDateTime) (userName : string)
    (success : bool) (imageData : string) (b : Bridge.QmlBridge) :
  let before := Bridge.m_recognitionHistory b in
  let after := Bridge.m_recognitionHistory
                 (Bridge.addRecognitionEventWithImage now userName success imageData b).1 in
  ∃ event : QVariantMap,
      after = take 50 (Map event :: before)
    ∧ after !! 0%nat = Some (Map event)
    ∧ (∀ (i : nat) e, (i < 49)%nat → before !! i = Some e → after !! S i = Some e)
    ∧ length after = (S (length before) `min` 50)%nat
    ∧ event !! "name" = Some (String userName)
    ∧ event !! "success" = Some (Bool success)
    ∧ event !! "timestamp" = Some (String (dateText now +:+ " " +:+ timeText now))
    ∧ event !! "captured_image"
        = (if decide (imageData = "") then None else Some (String imageData)).
Proof.
  intros before after. subst before after.
  unfold Bridge.addRecognitionEventWithImage.
  cbn [fst Bridge.m_recognitionHistory].
  eexists. rewrite take_50_take. split; [reflexivity|].
  split_and!.
  - done.
  - intros i e Hi He. simpl. rewrite lookup_take_lt by lia. done.
  - simpl. rewrite length_take. lia.
  - destruct (String.eqb imageData ""); simpl; by simplify_map_eq.
  - destruct (String.eqb imageData ""); simpl; by simplify_map_eq.
  - destruct (String.eqb imageData ""); simpl; by simplify_map_eq.
  - case_decide as Hc.
    + rewrite Hc. simpl. by simplify_map_eq.
    + apply String.eqb_neq in Hc. rewrite Hc. simpl. by simplify_map_eq.
Qed.

(* ===================================================================== *)
(** * Closed examples for the further properties *)
(* ===================================================================== *)

Lemma diskWithTwo_logs :
  getCachedLogs cm0 diskWithTwo
  = [Map (logWithSync alice morning); Map (syncedLog (logWithSync bob morning) morning)].
Proof. vm_compute. reflexivity. Qed.

Lemma diskWithTwo_events : Forall isEvent (getCachedLogs cm0 diskWithTwo).
Proof.
  rewrite diskWithTwo_logs.
  repeat constructor; eexists; (split; [reflexivity|]); vm_compute; eauto.
Qed.

(** X1, witness.  Of Alice's pending entry and Bob's synced one, the
    clearing keeps Alice's. *)
Lemma clearSyncedLogs_keeps_unsynced_witness :
  getCachedLogs cm0 (clearSyncedLogs cm0 diskWithTwo).1
  = map jsonOfVariant (getUnsyncedLogs cm0 diskWithTwo).
Proof.
  refine (proj1 (clearSyncedLogs_keeps_unsynced cm0 diskWithTwo _ _));
    apply not_elem_of_empty.
Defined.

Example clearSyncedLogs_example :
  getCachedLogs cm0 (clearSyncedLogs cm0 diskWithTwo).1 = [Map (logWithSync alice morning)].
Proof. vm_compute. reflexivity. Qed.

(** X3, witness.  Bob's event recorded on the disk that holds Alice's
    pending entry: two unsynced entries afterwards. *)
Lemma cacheLog_listed_unsynced_witness :
  getUnsyncedLogsCount cm0 diskWithAlice = 1%nat ∧
  getUnsyncedLogsCount cm0 (cacheLog_io cm0 WriteStored bob noon diskWithAlice).1
  = S (getUnsyncedLogsCount cm0 diskWithAlice).
Proof.
  split; [vm_compute; reflexivity|].
  refine (proj1 (proj2 (cacheLog_listed_unsynced cm0 bob noon diskWithAlice _ _)));
    apply not_elem_of_empty.
Defined.

(** X4, witness.  Alice's entry is the first with the id ["e1"]; Bob's
    entry after it is stored as it was. *)
Lemma markLogSynced_marks_first_witness :
  getCachedLogs cm0 diskWithTwo !! 0%nat = Some (Map (logWithSync alice morning)) ∧
  getCachedLogs cm0 (markLogSynced cm0 "e1" noon diskWithTwo).1 !! 1%nat
  = getCachedLogs cm0 diskWithTwo !! 1%nat.
Proof.
  assert (getCachedLogs cm0 diskWithTwo !! 0%nat = Some (Map (logWithSync alice morning)))
    as Hfirst by (vm_compute; reflexivity).
  split; [exact Hfirst|].
  refine (proj2 (markLogSynced_marks_first cm0 "e1" noon diskWithTwo 0
                  (Map (logWithSync alice morning)) _ Hfirst _ _) 1%nat _).
  - apply not_elem_of_empty.
  - vm_compute. reflexivity.
  - constructor.
  - discriminate.
Defined.

(** X5, witness.  Marking Alice's pending entry lowers the count by one. *)
Lemma markLogSynced_unsynced_count_witness :
  S (getUnsyncedLogsCount cm0 (markLogSynced cm0 "e1" noon diskWithTwo).1)
  = getUnsyncedLogsCount cm0 diskWithTwo.
Proof.
  refine (proj1 (markLogSynced_unsynced_count cm0 "e1" noon diskWithTwo 0
                  (Map (logWithSync alice morning)) _ _ _ _ _) _).
  - apply not_elem_of_empty.
  - exact diskWithTwo_events.
  - vm_compute. reflexivity.
  - vm_compute. reflexivity.
  - constructor.
  - vm_compute. reflexivity.
Defined.

(** A disk that holds a roster with Alice and a log with Alice's event. *)
Definition diskWithRoster : FileSystem :=
  mkFileSystem
    (<[ m_usersCacheFile cm0 := toJson (Map (usersCacheData [userAlice] morning)) ]>
       {[ m_logsCacheFile cm0 := toJson (List [Map (logWithSync alice morning)]) ]})
    ∅ ∅.

(** X9, witness.  [cacheLog] of Bob's event interrupted on that disk. *)
Lemma isCacheValid_after_interrupted_write_witness :
  fileExists (m_usersCacheFile cm0) diskWithRoster = true ∧
  isCacheValid cm0 (cacheLog_stopped cm0 1 bob noon diskWithRoster) = true ∧
  getCachedLogs cm0 (cacheLog_stopped cm0 1 bob noon diskWithRoster) = [].
Proof.
  assert (fileExists (m_usersCacheFile cm0) diskWithRoster = true) as Hu
    by (vm_compute; reflexivity).
  split; [exact Hu|].
  apply (isCacheValid_after_interrupted_write cm0 bob noon diskWithRoster);
    [apply not_elem_of_empty|exact Hu].
Defined.

(** The response of the server that lists Alice and Bob. *)
Definition usersResponse : QJsonObject :=
  <["users" := List [Map (serverUser "u1" "Alice" "Engineer" true "face-v1" "2024-01-05");
                     Map (serverUser "u2" "Bob" "Clerk" false "face-v1" "2024-02-11")]]>
    (<["total" := Double 2]> ∅).

(** X11, witness.  The two users of that response are parsed, and cached
    on an empty disk they are read back. *)
Lemma parsed_users_cached_witness :
  parseUsersResponse (toJson (Map usersResponse))
    = [Map (serverUser "u1" "Alice" "Engineer" true "face-v1" "2024-01-05");
       Map (serverUser "u2" "Bob" "Clerk" false "face-v1" "2024-02-11")] ∧
  getCachedUsers cm0
    (cacheUsers cm0 (parseUsersResponse (toJson (Map usersResponse))) noon
       (mkFileSystem ∅ ∅ ∅)).1
  = parseUsersResponse (toJson (Map usersResponse)).
Proof.
  split; [vm_compute; reflexivity|].
  refine (proj2 (parsed_users_cached cm0 (toJson (Map usersResponse)) noon
                  (mkFileSystem ∅ ∅ ∅) _ _)); apply not_elem_of_empty.
Defined.

Lemma runningCamera_reachable : reachable runningCamera.
Proof. apply reachable_step, reachable_new. Qed.

(** X20, witness.  The camera started on a platform with one device. *)
Lemma running_camera_has_objects_witness :
  m_cameraRunning runningCamera = true ∧
  is_Some (m_camera runningCamera) ∧ m_captureSession runningCamera = true ∧
  m_imageCapture runningCamera = true ∧ m_cameraAvailable runningCamera = true.
Proof.
  split; [reflexivity|].
  apply (running_camera_has_objects runningCamera runningCamera_reachable).
  reflexivity.
Defined.

(** X21, witness.  [startCamera] on the stopped camera, the device gone. *)
Lemma startCamera_tells_running_witness :
  (startCamera platformNoCamera (stopCamera runningCamera).1).1.1
  = m_cameraRunning (startCamera platformNoCamera (stopCamera runningCamera).1).1.2.
Proof.
  refine (proj1 (startCamera_tells_running platformNoCamera
                  (stopCamera runningCamera).1 _)).
  apply (reachable_step CallStopCamera), runningCamera_reachable.
Defined.

Definition readyToCapture : CaptureEnv := mkCaptureEnv true true 1.

(** The running camera after a capture was started and its image arrived. *)
Definition cameraWithImage : CameraManager :=
  cameraStep (SlotImageCaptured "JPEG-1")
    (cameraStep (CallCaptureImage readyToCapture) runningCamera).

(** X22, witness.  With the first image stored, [captureImage] returns it
    again and starts nothing. *)
Lemma stored_image_is_returned_again_witness :
  m_lastCapturedImage cameraWithImage ≠ "" ∧
  captureImage readyToCapture cameraWithImage = ("JPEG-1", cameraWithImage).
Proof.
  assert (m_lastCapturedImage cameraWithImage ≠ "") as Himg by discriminate.
  split; [exact Himg|].
  refine (proj1 (proj2 (stored_image_is_returned_again cameraWithImage Himg))
            readyToCapture _ _ _ _ _); reflexivity.
Defined.

(** X23, witness.  A capture on the running camera, then its image. *)
Lemma capture_then_fetch_witness :
  (captureImage readyToCapture runningCamera).1 = "" ∧
  (captureImage readyToCapture
     (onImageCaptured "JPEG-1" (captureImage readyToCapture runningCamera).2)).1
  = "JPEG-1".
Proof.
  destruct (capture_then_fetch readyToCapture runningCamera)
    as (Hnone & _ & _ & Hfetch); try reflexivity; [discriminate|].
  split; [exact Hnone|].
  apply Hfetch; [discriminate|reflexivity..].
Defined.

(** An image decoder for the examples: every byte string that is not
    empty decodes, to itself. *)
Definition decodeAny (bytes : ImageBytes) : option string :=
  if String.eqb bytes "" then None else Some bytes.

Definition kiosk : Bridge.QmlBridge := Bridge.newQmlBridge ["Integrated Camera"] "kiosk-1".

Definition captureOk : Bridge.CaptureAndRecognizeEnv :=
  Bridge.mkCaptureAndRecognizeEnv platformOk true readyToCapture.

(** The bridge after [captureAndRecognize] started the camera, a second
    call started a capture, and the image arrived. *)
Definition kioskWithImage : Bridge.QmlBridge :=
  Bridge.step string decodeAny id (Bridge.CameraCallback (SlotImageCaptured "JPEG-1"))
    (Bridge.step string decodeAny id (Bridge.CallCaptureAndRecognize captureOk)
       (Bridge.step string decodeAny id (Bridge.CallCaptureAndRecognize captureOk) kiosk)).

Lemma kioskWithImage_reachable : Bridge.reachable string decodeAny id kioskWithImage.
Proof. do 3 apply Bridge.reachable_step. apply Bridge.reachable_new. Qed.

(** X24, witness.  The camera runs in that state, started by
    [captureAndRecognize]; the bridge does not say that it is available. *)
Lemma bridge_states_witness :
  m_cameraRunning (Bridge.m_cameraManager kioskWithImage) = true ∧
  Bridge.m_cameraAvailable kioskWithImage = false ∧
  reachable (Bridge.m_cameraManager kioskWithImage) ∧
  (length (Bridge.m_recognitionHistory kioskWithImage) ≤ 50)%nat.
Proof.
  split; [reflexivity|]. split; [reflexivity|].
  destruct (bridge_states string decodeAny id kioskWithImage kioskWithImage_reachable)
    as (Hcam & _ & Hlen & _).
  split; [exact Hcam|exact Hlen].
Defined.

(** X25, witness.  [captureAndRecognize] on the bridge as constructed. *)
Lemma captureAndRecognize_starts_camera_witness :
  ∃ b', Bridge.captureAndRecognize string decodeAny id captureOk kiosk
          = (b', [], [], [Bridge.RetryCaptureAndRecognize 3000])
      ∧ m_cameraRunning (Bridge.m_cameraManager b') = true
      ∧ Bridge.m_cameraAvailable b' = Bridge.m_cameraAvailable kiosk.
Proof.
  apply (captureAndRecognize_starts_camera string decodeAny id captureOk kiosk
           "Integrated Camera" []); reflexivity.
Defined.

(** X27, witness.  With the first image stored, [captureAndRecognize]
    posts it again. *)
Lemma captureAndRecognize_resubmits_stored_image_witness :
  m_lastCapturedImage (Bridge.m_cameraManager kioskWithImage) = "JPEG-1" ∧
  ∃ body obj,
      Bridge.captureAndRecognize string decodeAny id captureOk kioskWithImage
      = (kioskWithImage, [],
         [mkRequest HttpPost ("http://localhost:8001" +:+ "/recognize") (Some body)
            RecognizeReply], [])
    ∧ fromJson body = Map obj
    ∧ obj !! "image_base64" = Some (String "JPEG-1")
    ∧ obj !! "device_id" = Some (String "kiosk-1")
    ∧ obj !! "captured_image" = None.
Proof.
  split; [reflexivity|].
  apply (captureAndRecognize_resubmits_stored_image string decodeAny id captureOk
           kioskWithImage "JPEG-1"); try reflexivity.
  discriminate.
Defined.

(** [QJsonValue::toInt] on numbers that hold an integer of the range of
    [int], on one that holds none, on the bounds of the range, and on a
    string. *)
Example jsonToInt_examples :
  jsonToInt (Double 42) = 42%Z ∧ jsonToInt (Double (-7)) = (-7)%Z ∧
  jsonToInt (Double 2.5) = 0%Z ∧
  jsonToInt (Double 2147483647) = 2147483647%Z ∧
  jsonToInt (Double 2147483648) = 0%Z ∧
  jsonToInt (Double (-2147483648)) = (-2147483648)%Z ∧
  jsonToInt (String "42") = 0%Z.
Proof. vm_compute. by split_and!. Qed.

(** A history item without a user, as the server sends it for a face
    that matched nobody. *)
Example parseHistoryItem_unmatched :
  parseHistoryItem
    (Map (<["id" := Double 12]> (<["ts" := String "2024-03-01T08:00:00"]>
         (<["device_id" := String "kiosk-1"]> (<["matched" := Bool false]>
         (<["user_id" := Null]> (<["name" := Null]> (<["distance" := Null]> ∅))))))))
  = <["id" := Double 12]> (<["ts" := String "2024-03-01T08:00:00"]>
    (<["device_id" := String "kiosk-1"]> (<["matched" := Bool false]>
    (<["user_id" := String ""]> (<["name" := String "Unknown"]>
    (<["distance" := Double 0]> ∅)))))).
Proof. vm_compute. reflexivity. Qed.
